(** * NavKiosk image utilities: [generate_tiles.py] and [img.py]

    A shallow embedding of the two command-line tools of the repository and
    the properties of their specification.

    - [PyFloat]: the binary64 arithmetic the tile tool uses (true division of
      integers, [int * float], [round], [math.ceil]), as exact rationals
      rounded to nearest-even.
    - [Pillow]: rasters as pixel functions with the operations the tools call.
    - [GenerateTiles]: [src/generate_tiles.py].
    - [Img]: [src/img.py].

    The properties come in two parts: those of the specification (C1 to
    C10), then further properties of the runs of the two tools (X1 to
    X23). *)

From Stdlib Require Import Ascii String.
From stdpp Require Import base option list gmap strings pretty.
From Stdlib Require Import ZArith QArith Qround Qabs Qpower Lia Lra Lqa.
From Stdlib Require Floats.SpecFloat.

Local Open Scope Z_scope.

(** ** Python exceptions and results *)

(** The subclasses of [Exception] that the modelled calls raise. *)
Inductive exn : Type :=
  | ZeroDivisionError
  | OverflowError
  | ValueError
  | IndexError
  | OSError
  | MemoryError.

Inductive res (A : Type) : Type :=
  | Ok (a : A)
  | Raise (e : exn).
Arguments Ok {A} a.
Arguments Raise {A} e.

Definition rbind {A B} (m : res A) (k : A -> res B) : res B :=
  match m with
  | Ok a => k a
  | Raise e => Raise e
  end.

#[global] Instance res_ret : MRet res := fun A a => Ok a.
#[global] Instance res_bind : MBind res := fun A B k m => rbind m k.

(** ** Binary64 arithmetic as Python exposes it *)
Module PyFloat.

(** [pow2 e] is 2^e for any integer exponent. *)
Definition pow2 (e : Z) : Q := Qpower 2 e.

(** floor (log2 x) for a positive rational [x]. *)
Definition ilog2 (x : Q) : Z :=
  let e0 := Z.log2 (Qnum x) - Z.log2 (Zpos (Qden x)) in
  if Qle_bool (pow2 e0) x then e0 else e0 - 1.

(** Nearest integer, ties to the even one: Python's [round(x)] on a float. *)
Definition round_half_even (x : Q) : Z :=
  let f := Qfloor x in
  match Qcompare (x - inject_Z f) (1 # 2) with
  | Lt => f
  | Gt => f + 1
  | Eq => if Z.even f then f else f + 1
  end.

(** Exponent of the unit in the last place of the binade of [x]: 53 bits of
    precision, gradual underflow below 2^-1022. *)
Definition ulp_exp (x : Q) : Z := Z.max (ilog2 (Qabs x)) (-1022) - 52.

(** Round to nearest, ties to even, onto the binary64 grid (exponent
    unbounded above). *)
Definition RN (x : Q) : Q :=
  if Qeq_bool x 0 then 0%Q
  else
    let s := ulp_exp x in
    Qred (inject_Z (round_half_even (x / pow2 s)) * pow2 s).

(** A Python float: a finite binary64 value, an infinity, or a NaN.  The sign
    of zero is not kept: no operation modelled here observes it. *)
Inductive pyfloat : Type :=
  | Fin (x : Q)
  | Inf (negative : bool)
  | NaN.

Definition Qneg_bool (x : Q) : bool := negb (Qle_bool 0 x).

(** The correctly rounded value of the exact result [x]: it overflows to an
    infinity when the rounded magnitude reaches 2^1024. *)
Definition fl (x : Q) : pyfloat :=
  let y := RN x in
  if Qle_bool (pow2 1024) (Qabs y) then Inf (Qneg_bool x) else Fin y.

(** [a / b] on two [int]s (true division): correctly rounded quotient. *)
Definition int_truediv (a b : Z) : res pyfloat :=
  if b =? 0 then Raise ZeroDivisionError
  else
    match fl (inject_Z a / inject_Z b) with
    | Fin y => Ok (Fin y)
    | _ => Raise OverflowError
    end.

(** [float(c)] for an [int] [c]. *)
Definition float_of_int (c : Z) : res pyfloat :=
  match fl (inject_Z c) with
  | Fin y => Ok (Fin y)
  | _ => Raise OverflowError
  end.

(** IEEE 754 multiplication. *)
Definition fmul (a b : pyfloat) : pyfloat :=
  match a, b with
  | NaN, _ | _, NaN => NaN
  | Fin x, Fin y => fl (x * y)
  | Fin x, Inf s | Inf s, Fin x =>
      if Qeq_bool x 0 then NaN else Inf (xorb s (Qneg_bool x))
  | Inf s, Inf t => Inf (xorb s t)
  end.

(** [c * f] for an [int] [c] and a [float] [f]. *)
Definition int_mul_float (c : Z) (f : pyfloat) : res pyfloat :=
  x ← float_of_int c; Ok (fmul x f).

(** [round(f)] with one argument: an [int]. *)
Definition py_round (f : pyfloat) : res Z :=
  match f with
  | Fin x => Ok (round_half_even x)
  | Inf _ => Raise OverflowError
  | NaN => Raise ValueError
  end.

(** [math.ceil(f)]. *)
Definition py_ceil (f : pyfloat) : res Z :=
  match f with
  | Fin x => Ok (Qceiling x)
  | Inf _ => Raise OverflowError
  | NaN => Raise ValueError
  end.

End PyFloat.

(** ** Pillow rasters *)
Module Pillow.

Definition color : Type := (Z * Z * Z)%type.
Definition box : Type := (Z * Z * Z * Z)%type.

Definition black : color := (0, 0, 0).

(** An RGB image: its size and the color of every pixel. *)
Record raster : Type := mkRaster {
  width : Z;
  height : Z;
  pix : Z -> Z -> color
}.

Definition in_bounds (im : raster) (x y : Z) : bool :=
  (0 <=? x) && (x <? width im) && (0 <=? y) && (y <? height im).

(** A channel as Pillow stores it, clipped to a byte (its macro [CLIP8]). *)
Definition clip8 (v : Z) : Z :=
  if v <=? 0 then 0 else if v <? 256 then v else 255.

Definition clip_color (c : color) : color :=
  (clip8 c.1.1, clip8 c.1.2, clip8 c.2).

(** [Image.new("RGB", size, color)].  A negative dimension is a
    [ValueError], raised by the check of [Image.new] itself; a dimension of
    2^31 or more is an [OverflowError], raised when the size is passed to
    the C module as two C ints; and the allocation of the raster can fail
    (a [MemoryError]), which [cannot_allocate] tells for the machine at
    hand.  The color is stored clipped to bytes. *)
Definition Image_new (cannot_allocate : Z * Z -> option exn)
    (size : Z * Z) (c : color) : res raster :=
  let '(w, h) := size in
  if (w <? 0) || (h <? 0) then Raise ValueError
  else if (2 ^ 31 <=? w) || (2 ^ 31 <=? h) then Raise OverflowError
  else
    match cannot_allocate size with
    | Some e => Raise e
    | None => Ok (mkRaster w h (fun _ _ => clip_color c))
    end.

(** [im.getpixel((x, y))]. *)
Definition getpixel (im : raster) (xy : Z * Z) : res color :=
  let '(x, y) := xy in
  let x := if x <? 0 then width im + x else x in
  let y := if y <? 0 then height im + y else y in
  if in_bounds im x y then Ok (pix im x y) else Raise IndexError.

(** [pixels[x, y] = c] on [pixels = im.load()]: a negative index counts from
    the far edge, an index out of range is an [IndexError]. *)
Definition putpixel (im : raster) (xy : Z * Z) (c : color) : res raster :=
  let '(x, y) := xy in
  let x := if x <? 0 then width im + x else x in
  let y := if y <? 0 then height im + y else y in
  if in_bounds im x y then
    Ok (mkRaster (width im) (height im)
          (fun x' y' => if (x' =? x) && (y' =? y) then c else pix im x' y'))
  else Raise IndexError.

(** [im.crop((left, upper, right, lower))]; pixels outside [im] are black. *)
Definition crop (im : raster) (b : box) : raster :=
  let '(left_, upper, right_, lower) := b in
  mkRaster (right_ - left_) (lower - upper)
    (fun x y =>
       if in_bounds im (x + left_) (y + upper)
       then pix im (x + left_) (y + upper)
       else black).

(** [dst.paste(src, (x0, y0))]: the part of [src] that falls inside [dst]. *)
Definition paste (dst src : raster) (pos : Z * Z) : raster :=
  let '(x0, y0) := pos in
  mkRaster (width dst) (height dst)
    (fun x y =>
       if in_bounds src (x - x0) (y - y0) then pix src (x - x0) (y - y0)
       else pix dst x y).

End Pillow.

(** ** The process and its environment *)
Module Runtime.
Import Pillow.

(** What a path of the file system holds. *)
Inductive file : Type :=
  | PNG (im : raster)
  | Partial.

(** Lines written to standard output. *)
Inductive message : Type :=
  | SourceNotFound (src_path : string)
  | FailedToOpen (e : exn)
  | SourceInfo (src_path : string) (w h cols rows : Z) (out_dir : string)
  | SkippingEmptyCell (r c : Z)
  | SavedPreview (preview_path : string)
  | FailedToBuildPreview (e : exn)
  | MsgDone.

(** What the tools read from outside: the operating system, the clock, the
    random generator and Pillow's codecs and resampler. *)
Record env : Type := mkEnv {
  (** [os.path.isfile] *)
  isfile : string -> bool;
  (** [Image.open(path).convert("RGB")] *)
  open_rgb : string -> res raster;
  (** the pixels of [im.resize(size, resample=Image.BILINEAR)] *)
  resample_bilinear : raster -> Z * Z -> Z -> Z -> color;
  (** [os.path.expanduser("~")] *)
  home : string;
  (** [datetime.now().strftime("%Y%m%d_%H%M%S")] *)
  timestamp : string;
  (** the error [os.makedirs] meets on a path, if any *)
  makedirs_error : string -> option exn;
  (** the error [Image.save] meets on a path, if any, with what the failed
      call leaves at that path *)
  save_error : string -> raster -> option (exn * (option file -> option file));
  (** the error [Image.new] meets when it allocates a raster of a size, if
      any *)
  new_error : Z * Z -> option exn;
  (** the raw draws of the random generator *)
  entropy : nat -> Z
}.

Record world : Type := mkWorld {
  files : gmap string file;
  dirs : gset string;
  stdout : list message;
  draws : nat
}.

(** How a computation ends: with a value, with an exception of class
    [Exception], or with [sys.exit]. *)
Inductive completion (A : Type) : Type :=
  | Normal (a : A)
  | Throw (e : exn)
  | SysExit (code : Z).
Arguments Normal {A} a.
Arguments Throw {A} e.
Arguments SysExit {A} code.

Definition io (A : Type) : Type := world -> completion A * world.

Definition io_ret {A} (a : A) : io A := fun w => (Normal a, w).

Definition io_bind {A B} (m : io A) (k : A -> io B) : io B :=
  fun w =>
    match m w with
    | (Normal a, w') => k a w'
    | (Throw e, w') => (Throw e, w')
    | (SysExit c, w') => (SysExit c, w')
    end.

#[global] Instance io_mret : MRet io := @io_ret.
#[global] Instance io_mbind : MBind io := fun A B k m => io_bind m k.

(** A pure computation that may raise. *)
Definition lift {A} (r : res A) : io A :=
  fun w => match r with Ok a => (Normal a, w) | Raise e => (Throw e, w) end.

(** [sys.exit(code)]. *)
Definition sys_exit {A} (code : Z) : io A := fun w => (SysExit code, w).

(** [try: m  except Exception as e: handler e]. *)
Definition try_except {A} (m : io A) (handler : exn -> io A) : io A :=
  fun w =>
    match m w with
    | (Throw e, w') => handler e w'
    | r => r
    end.

Definition print (msg : message) : io unit :=
  fun w => (Normal (), mkWorld (files w) (dirs w) (stdout w ++ [msg]) (draws w)).

(** [for a in l: s = body a s]. *)
Fixpoint for_each {A S} (l : list A) (body : A -> S -> io S) (s : S) : io S :=
  match l with
  | [] => io_ret s
  | a :: l' => io_bind (body a s) (for_each l' body)
  end.

(** [range(n)] and [range(lo, hi)]. *)
Definition range (n : Z) : list Z := seqZ 0 n.
Definition range2 (lo hi : Z) : list Z := seqZ lo (hi - lo).

Definition len {A} (l : list A) : Z := Z.of_nat (length l).

(** [str(n)] on an [int]. *)
Definition str (n : Z) : string := pretty n.

Section WithEnv.
Variable E : env.

(** [os.makedirs(path, exist_ok=True)]: the folder [path] exists afterwards;
    the parent folders it may have to make are not recorded. *)
Definition makedirs (path : string) : io unit :=
  fun w =>
    match makedirs_error E path with
    | Some e => (Throw e, w)
    | None =>
        (Normal (), mkWorld (files w) ({[path]} ∪ dirs w) (stdout w) (draws w))
    end.

(** [im.save(path)]. *)
Definition save (im : raster) (path : string) : io unit :=
  fun w =>
    match save_error E path im with
    | Some (e, leftover) =>
        (Throw e,
         mkWorld (partial_alter leftover path (files w)) (dirs w)
           (stdout w) (draws w))
    | None =>
        (Normal (),
         mkWorld (<[path := PNG im]> (files w)) (dirs w) (stdout w) (draws w))
    end.

(** [random.randint(a, b)]. *)
Definition randint (a b : Z) : io Z :=
  fun w =>
    (Normal (a + entropy E (draws w) `mod` (b - a + 1)),
     mkWorld (files w) (dirs w) (stdout w) (S (draws w))).

(** [im.resize(size, resample=Image.BILINEAR)]. *)
Definition resize_bilinear (im : raster) (size : Z * Z) : raster :=
  mkRaster size.1 size.2 (resample_bilinear E im size).
End WithEnv.

(** The exit status of the process. *)
Inductive outcome : Type :=
  | Exited (code : Z)
  | Uncaught (e : exn).

Definition exit_code (o : outcome) : Z :=
  match o with
  | Exited c => c
  | Uncaught _ => 1
  end.

Definition run {A} (m : io A) (w : world) : outcome * world :=
  match m w with
  | (Normal _, w') => (Exited 0, w')
  | (SysExit c, w') => (Exited c, w')
  | (Throw e, w') => (Uncaught e, w')
  end.

End Runtime.

(** ** [src/generate_tiles.py] *)
Module GenerateTiles.
Import PyFloat Pillow Runtime.

(** The parsed command line. *)
Module args.
Record t : Type := mk {
  source : string;
  cols : Z;
  rows : Z;
  tile_size : Z;
  preview_cols : Z
}.
End args.

(** [a % b] on [int]s. *)
Definition py_mod (a b : Z) : res Z :=
  if b =? 0 then Raise ZeroDivisionError else Ok (a `mod` b).

Fixpoint ends_with_sep (s : string) : bool :=
  match s with
  | EmptyString => false
  | String a EmptyString => bool_decide (a = "/"%char)
  | String _ s' => ends_with_sep s'
  end.

(** [os.path.join(a, b)]. *)
Definition path_join (a b : string) : string :=
  if String.prefix "/" b then b
  else if bool_decide (a = "") || ends_with_sep a then a +:+ b
  else a +:+ "/" +:+ b.

(** [for x in l: s = f s x], stopping at the first exception. *)
Fixpoint fold_res {A S} (f : S -> A -> res S) (l : list A) (s : S) : res S :=
  match l with
  | [] => Ok s
  | a :: l' => rbind (f s a) (fold_res f l')
  end.

(** [enumerate(l)]. *)
Definition enumerate {A} (l : list A) : list (Z * A) :=
  zip (seqZ 0 (len l)) l.

Section WithEnv.
Variable E : env.

(** Return the average color (R, G, B) of a PIL Image. *)
Definition average_color (image : raster) : res color :=
  let small := resize_bilinear E image (1, 1) in
  getpixel small (0, 0).

(** Return a path to a new folder on the user's Desktop, creating it if
    necessary. *)
Definition ensure_desktop_folder (folder_name : string) : io string :=
  let desktop := path_join (home E) "Desktop" in
  let out_dir := path_join desktop folder_name in
  _ ← makedirs E out_dir;
  mret out_dir.

(** Create a new PIL Image of given size filled with color. *)
Definition make_solid_tile (c : color) (size : Z * Z) : res raster :=
  Image_new (new_error E) size c.

(** One turn of the placement loop of [build_preview]: the state is the
    preview and the cursor [(x, y)]. *)
Definition place_tile (cols tile_size padding : Z)
    (st : raster * Z * Z) (it : Z * raster) : res (raster * Z * Z) :=
  let '(preview, x, y) := st in
  let '(i, t) := it in
  let preview := paste preview t (x, y) in
  let x := x + (tile_size + padding) in
  m ← py_mod (i + 1) cols;
  if m =? 0 then Ok (preview, padding, y + (tile_size + padding))
  else Ok (preview, x, y).

(** The size of the contact sheet for [n] tiles. *)
Definition preview_size (n cols tile_size padding : Z) : res (Z * Z) :=
  q ← int_truediv n cols;
  rows ← py_ceil q;
  let w := cols * tile_size + (cols + 1) * padding in
  let h := rows * tile_size + (rows + 1) * padding in
  Ok (w, h).

(** Create a contact-sheet preview image from a list of tile images. *)
Definition build_preview (tiles : list raster) (cols tile_size : Z)
    (padding : Z) (bg : color) : res raster :=
  size ← preview_size (len tiles) cols tile_size padding;
  preview ← Image_new (new_error E) size bg;
  let x := padding in
  let y := padding in
  st ← fold_res (place_tile cols tile_size padding) (enumerate tiles)
         (preview, x, y);
  Ok st.1.1.

Definition default_padding : Z := 2.
Definition default_bg : color := (30, 30, 30).

(** The pixel bounds of grid cell [(r, c)], clamped to the image. *)
Definition cell_bounds (w h : Z) (cell_w cell_h : pyfloat) (r c : Z)
    : res box :=
  left_ ← (x ← int_mul_float c cell_w; py_round x);
  upper ← (y ← int_mul_float r cell_h; py_round y);
  right_ ← (x ← int_mul_float (c + 1) cell_w; py_round x);
  lower ← (y ← int_mul_float (r + 1) cell_h; py_round y);
  let right_ := Z.min right_ w in
  let lower := Z.min lower h in
  Ok (left_, upper, right_, lower).

(** The test that skips a cell. *)
Definition degenerate (b : box) : bool :=
  let '(left_, upper, right_, lower) := b in
  (right_ <=? left_) || (lower <=? upper).

Definition tile_name (r c : Z) : string :=
  "tile_r" +:+ str r +:+ "_c" +:+ str c +:+ ".png".

(** The body of the two grid loops of [main]. *)
Definition process_cell (a : args.t) (img : raster) (out_dir : string)
    (cell_w cell_h : pyfloat) (r c : Z) (tiles : list raster)
    : io (list raster) :=
  b ← lift (cell_bounds (width img) (height img) cell_w cell_h r c);
  if degenerate b then
    _ ← print (SkippingEmptyCell r c);
    mret tiles
  else
    let cell := crop img b in
    col ← lift (average_color cell);
    tile ← lift (make_solid_tile col (args.tile_size a, args.tile_size a));
    let fname := tile_name r c in
    let tile_path := path_join out_dir fname in
    _ ← save E tile tile_path;
    mret (tiles ++ [tile]).

(** Lines 78-98: check and load the source, create the output folder. *)
Definition load_source (a : args.t) : io raster :=
  let src_path := args.source a in
  _ ← (if negb (isfile E src_path) then
         _ ← print (SourceNotFound src_path);
         sys_exit 1
       else mret ());
  try_except (lift (open_rgb E src_path))
    (fun e => _ ← print (FailedToOpen e); sys_exit 1).

(** Lines 123-130: build and save the preview. *)
Definition save_preview (a : args.t) (out_dir : string)
    (tiles : list raster) : io unit :=
  try_except
    (preview ← lift (build_preview tiles (args.preview_cols a)
                       (args.tile_size a) default_padding default_bg);
     let preview_path := path_join out_dir "preview.png" in
     _ ← save E preview preview_path;
     print (SavedPreview preview_path))
    (fun e => print (FailedToBuildPreview e)).

(** Lines 89-121: the grid of tiles. *)
Definition save_tiles (a : args.t) (img : raster)
    : io (string * list raster) :=
  let cols := Z.max 1 (args.cols a) in
  let rows := Z.max 1 (args.rows a) in
  let w := width img in
  let h := height img in
  cell_w ← lift (int_truediv w cols);
  cell_h ← lift (int_truediv h rows);
  let folder_name := "image_tiles_" +:+ timestamp E in
  out_dir ← ensure_desktop_folder folder_name;
  let tiles := [] in
  _ ← print (SourceInfo (args.source a) w h cols rows out_dir);
  tiles ← for_each (range rows) (fun r =>
            for_each (range cols) (fun c =>
              process_cell a img out_dir cell_w cell_h r c)) tiles;
  mret (out_dir, tiles).

(** Lines 78-132 of [main]: the run once [p.parse_args()] has returned
    [a]. *)
Definition main (a : args.t) : io unit :=
  img ← load_source a;
  '(out_dir, tiles) ← save_tiles a img;
  _ ← save_preview a out_dir tiles;
  print MsgDone.

End WithEnv.

(** The candidate cells of the grid partition of a [w] x [h] image: the
    rectangles the two loops of [main] compute (lines 103-111), in the order
    they compute them, each with its grid position. *)
Definition grid_cells (w h cols rows : Z) : res (list (Z * Z * box)) :=
  cell_w ← int_truediv w cols;
  cell_h ← int_truediv h rows;
  fold_res (fun cells r =>
      fold_res (fun cells c =>
          b ← cell_bounds w h cell_w cell_h r c;
          Ok (cells ++ [(r, c, b)]))
        (range cols) cells)
    (range rows) [].

End GenerateTiles.

(** ** [src/img.py] *)
Module Img.
Import Pillow Runtime.
Import GenerateTiles(fold_res).

(** The parsed command line. *)
Module args.
Record t : Type := mk {
  width : Z;
  height : Z;
  block_size : Z;
  count : Z;
  out_prefix : string
}.
End args.

Section WithEnv.
Variable E : env.

Definition random_color : io color :=
  r ← randint E 0 255;
  g ← randint E 0 255;
  b ← randint E 0 255;
  mret (r, g, b).

(** Lines 26-30: the square of logical pixel [(bx, by)]. *)
Definition paint_block (img : raster) (bx by_ block_size : Z) (c : color)
    : res raster :=
  let x0 := bx * block_size in
  let x1 := (bx + 1) * block_size in
  let y0 := by_ * block_size in
  let y1 := (by_ + 1) * block_size in
  fold_res (fun img x =>
              fold_res (fun img y => putpixel img (x, y) c)
                (range2 y0 y1) img)
    (range2 x0 x1) img.

(** Generate an image where each logical pixel is drawn as a
    block_size x block_size square. *)
Definition generate_random_image (width height : Z) (filename : string)
    (block_size : Z) : io unit :=
  let img_w := width * block_size in
  let img_h := height * block_size in
  img ← lift (Image_new (new_error E) (img_w, img_h) black);
  img ← for_each (range width) (fun bx =>
          for_each (range height) (fun by_ img =>
            c ← random_color;
            lift (paint_block img bx by_ block_size c))) img;
  save E img filename.

(** Lines 52-54: the run once [_parse_args()] has returned [a]. *)
Definition main (a : args.t) : io unit :=
  _ ← for_each (range (args.count a)) (fun i (_ : unit) =>
        let filename := args.out_prefix a +:+ str (i + 1) +:+ ".png" in
        generate_random_image (args.width a) (args.height a) filename
          (args.block_size a)) ();
  mret ().

End WithEnv.
End Img.

(** * The vocabulary of the properties *)
Module Vocabulary.
Import PyFloat Pillow Runtime.

(** ** Binary64 *)

(** Unit roundoff of binary64. *)
Definition u : Q := pow2 (-53).

(** The Standard Library's specification of IEEE 754 ([SpecFloat]) at the
    binary64 format, to compare [RN] with: an integer as a float, and the
    value of a float. *)
Definition SF_of_Z (z : Z) : SpecFloat.spec_float :=
  SpecFloat.binary_normalize 53 1024 z 0 false.

Definition SF2Q (f : SpecFloat.spec_float) : option Q :=
  match f with
  | SpecFloat.S754_zero _ => Some 0%Q
  | SpecFloat.S754_finite s m e =>
      Some (inject_Z (if s then Z.neg m else Z.pos m) * pow2 e)%Q
  | _ => None
  end.

(** [c * (a / b)] as the tile tool computes it agrees with [SpecFloat]. *)
Definition agrees_with_SpecFloat (abc : Z * Z * Z) : bool :=
  let '(a, b, c) := abc in
  let q := SpecFloat.SFdiv 53 1024 (SF_of_Z a) (SF_of_Z b) in
  let p := SpecFloat.SFmul 53 1024 (SF_of_Z c) q in
  match int_truediv a b, SF2Q q with
  | Ok (Fin x), Some y =>
      Qeq_bool x y &&
      match int_mul_float c (Fin x), SF2Q p with
      | Ok (Fin x'), Some y' => Qeq_bool x' y'
      | _, _ => false
      end
  | _, _ => false
  end.

(** ** The grid *)

(** The step of an axis of [n] pixels cut in [k]: the float [n / k]. *)
Definition step (n k : Z) : Q := RN (inject_Z n / inject_Z k).

(** The rounded position of grid line [i] when the step is the float [q]. *)
Definition edge (q : Q) (i : Z) : Z :=
  round_half_even (RN (RN (inject_Z i) * q)).

(** The rectangle of cell [(r, c)] in terms of the grid lines. *)
Definition cell_box (w h cols rows r c : Z) : box :=
  (edge (step w cols) c, edge (step h rows) r,
   edge (step w cols) (c + 1), edge (step h rows) (r + 1)).

(** A pixel lies in a rectangle [(left, upper, right, lower)]. *)
Definition inside (b : box) (x y : Z) : Prop :=
  b.1.1.1 <= x < b.1.2 /\ b.1.1.2 <= y < b.2.

(** The cells of the grid, row by row. *)
Definition grid_list (w h cols rows : Z) : list (Z * Z * box) :=
  r ← range rows; c ← range cols; [(r, c, cell_box w h cols rows r c)].

(** ** The contact sheet *)

(** The exact value of ceil(n / cols). *)
Definition ceil_quotient (n cols : Z) : Z :=
  Qceiling (inject_Z n / inject_Z cols).

(** The size the spec gives the sheet. *)
Definition sheet_size (n cols tile_size padding : Z) : Z * Z :=
  let rows := ceil_quotient n cols in
  (cols * tile_size + (cols + 1) * padding,
   rows * tile_size + (rows + 1) * padding).

(** The position the spec gives tile [i]. *)
Definition tile_position (cols tile_size padding i : Z) : Z * Z :=
  (padding + (i `mod` cols) * (tile_size + padding),
   padding + (i `div` cols) * (tile_size + padding)).

(** Pasting every tile at the position of its index. *)
Definition paste_tiles (cols tile_size padding : Z) (preview : raster)
    (indexed : list (Z * raster)) : raster :=
  foldl (fun p it => paste p it.2 (tile_position cols tile_size padding it.1))
    preview indexed.

(** A pixel lies in the square of side [size] placed at [pos]. *)
Definition in_square (pos : Z * Z) (size x y : Z) : Prop :=
  pos.1 <= x < pos.1 + size /\ pos.2 <= y < pos.2 + size.

(** ** Rasters that [Image.new] makes *)

(** [Image.new] returns a raster of this size: the two dimensions are from 0
    to 2^31 - 1 and the allocation succeeds. *)
Definition can_allocate (E : env) (w h : Z) : Prop :=
  0 <= w < 2 ^ 31 /\ 0 <= h < 2 ^ 31 /\ new_error E (w, h) = None.

(** ** The run of the tile tool *)

(** The preview step raises [e]: in [build_preview] or in saving. *)
Definition preview_raises (E : env) (a : GenerateTiles.args.t)
    (out_dir : string) (tiles : list raster) (e : exn) : Prop :=
  GenerateTiles.build_preview E tiles (GenerateTiles.args.preview_cols a)
    (GenerateTiles.args.tile_size a)
    GenerateTiles.default_padding GenerateTiles.default_bg = Raise e \/
  exists preview leftover,
    GenerateTiles.build_preview E tiles (GenerateTiles.args.preview_cols a)
      (GenerateTiles.args.tile_size a)
      GenerateTiles.default_padding GenerateTiles.default_bg = Ok preview /\
    save_error E (GenerateTiles.path_join out_dir "preview.png") preview
    = Some (e, leftover).

(** A sample run: a 4 x 4 source cut in 2 x 2 tiles of one pixel. *)
Definition sample_image : raster := mkRaster 4 4 (fun x y => (x, y, 0)).

(** An environment where [a.png] is the only file and nothing fails. *)
Definition sample_env : env :=
  mkEnv (fun p => bool_decide (p = "a.png"))
    (fun p => if bool_decide (p = "a.png") then Ok sample_image
              else Raise OSError)
    (fun im _ _ _ => pix im 0 0)
    "/home/u" "20250101_000000"
    (fun _ => None)
    (fun _ _ => None)
    (fun _ => None)
    (fun n => Z.of_nat n * 37).

Definition empty_world : world := mkWorld ∅ ∅ [] 0.

Definition sample_args (source : string) (preview_cols : Z)
    : GenerateTiles.args.t :=
  GenerateTiles.args.mk source 2 2 1 preview_cols.

Definition sample_out_dir : string :=
  "/home/u/Desktop/image_tiles_20250101_000000".

(** The tiles of the sample run and the world once they are written. *)
Definition sample_tiles : list raster :=
  Eval vm_compute in
    match (GenerateTiles.save_tiles sample_env (sample_args "a.png" 8)
             sample_image empty_world).1 with
    | Normal (_, tiles) => tiles
    | _ => []
    end.

Definition sample_tiles_world : world :=
  Eval vm_compute in
    (GenerateTiles.save_tiles sample_env (sample_args "a.png" 8)
       sample_image empty_world).2.

(** ** The block generator *)

(** Pixel [(x, y)] is in the square of logical block [(bx, by_)]. *)
Definition in_block (block_size bx by_ x y : Z) : Prop :=
  bx * block_size <= x < (bx + 1) * block_size /\
  by_ * block_size <= y < (by_ + 1) * block_size.

(** The pixels [paint_block] assigns, in the order of its two loops. *)
Definition block_pixels (block_size bx by_ : Z) : list (Z * Z) :=
  x ← range2 (bx * block_size) ((bx + 1) * block_size);
  (fun y => (x, y)) <$> range2 (by_ * block_size) ((by_ + 1) * block_size).

(** The pixels the block loops of [generate_random_image] assign, in order. *)
Definition image_pixels (width height block_size : Z) : list (Z * Z) :=
  bx ← range width; by_ ← range height; block_pixels block_size bx by_.

(** The color [random_color] makes of the three draws from number [d]. *)
Definition color_drawn (E : env) (d : nat) : color :=
  (entropy E d `mod` 256,
   entropy E (S d) `mod` 256,
   entropy E (S (S d)) `mod` 256).

(** The number of the first draw of block [(bx, by_)] in an image whose
    first draw has number [d]: the blocks are drawn column by column. *)
Definition draw_of_block (height : Z) (d : nat) (bx by_ : Z) : nat :=
  (d + 3 * Z.to_nat (bx * height + by_))%nat.

(** The assignments [pixels[x, y] = c] of the two pixel loops of one block
    (lines 28-30), in order. *)
Definition block_assignments (block_size bx by_ : Z) (c : color)
    : list (Z * Z * color) :=
  (fun xy => (xy, c)) <$> block_pixels block_size bx by_.

(** The assignments that the block loops of [generate_random_image] make
    (lines 23-30), in order, when the draws of the image start at number
    [d]. *)
Definition assignments (E : env) (d : nat) (width height block_size : Z)
    : list (Z * Z * color) :=
  bx ← range width; by_ ← range height;
  block_assignments block_size bx by_
    (color_drawn E (draw_of_block height d bx by_)).

(** Those of the blocks of column [bx] above row [j]. *)
Definition column (E : env) (d : nat) (height block_size bx j : Z)
    : list (Z * Z * color) :=
  by_ ← range j;
  block_assignments block_size bx by_
    (color_drawn E (draw_of_block height d bx by_)).

(** All the pixels of a block have one color. *)
Definition uniform_block (block_size : Z) (img : raster) (bx by_ : Z) : Prop :=
  exists c, forall x y, in_block block_size bx by_ x y -> pix img x y = c.

(** Only the count of draws separates the two worlds. *)
Definition same_but_draws (w w' : world) : Prop :=
  files w' = files w /\ dirs w' = dirs w /\ stdout w' = stdout w.

(** The raster has the size of the grid of blocks. *)
Definition sized (width height block_size : Z) (img : raster) : Prop :=
  Pillow.width img = width * block_size /\
  Pillow.height img = height * block_size.

(** An image of the block tool: its size, and one color per block. *)
Definition block_image (width height block_size : Z) (img : raster) : Prop :=
  Pillow.width img = width * block_size /\
  Pillow.height img = height * block_size /\
  forall bx by_, 0 <= bx < width -> 0 <= by_ < height ->
    uniform_block block_size img bx by_.

(** The name of image [i]: [f"{prefix}{i}.png"]. *)
Definition image_name (prefix : string) (i : Z) : string :=
  prefix +:+ str i +:+ ".png".

(** A sample command line of the block tool. *)
Definition block_args : Img.args.t := Img.args.mk 4 4 10 1 "random_image_".

(** One block of side 2^31. *)
Definition large_block_args : Img.args.t :=
  Img.args.mk 1 1 (2 ^ 31) 1 "random_image_".

End Vocabulary.

(** * The vocabulary of the runs *)
Module RunVocabulary.
Import Pillow Runtime Vocabulary.

(** ** File names *)

(** The characters of a decimal numeral: the digits and the sign. *)
Definition numeral_char (a : ascii) : bool :=
  bool_decide (a ∈ ["0"; "1"; "2"; "3"; "4"; "5"; "6"; "7"; "8"; "9"; "-"]%char).

(** Every character of the string passes the test. *)
Fixpoint all_chars (P : ascii -> bool) (s : string) : bool :=
  match s with
  | EmptyString => true
  | String a s' => P a && all_chars P s'
  end.

(** ** The tile loop *)

(** The folder of a run: [~/Desktop/image_tiles_<timestamp>]. *)
Definition out_dir_of (E : env) : string :=
  GenerateTiles.path_join (GenerateTiles.path_join (home E) "Desktop")
    ("image_tiles_" +:+ timestamp E).

(** The path of the tile of grid position [(r, c)]. *)
Definition tile_path (out_dir : string) (r c : Z) : string :=
  GenerateTiles.path_join out_dir (GenerateTiles.tile_name r c).

(** The tile of a cell: a square of the color the sampler gives its crop. *)
Definition cell_tile (E : env) (tile_size : Z) (img : raster) (b : box)
    : raster :=
  mkRaster tile_size tile_size
    (fun _ _ => clip_color (resample_bilinear E (crop img b) (1, 1) 0 0)).

(** What one turn of the grid loops does to the list of tiles and to the
    world when nothing raises. *)
Definition cell_step (E : env) (tile_size : Z) (img : raster)
    (out_dir : string) (st : list raster * world) (x : Z * Z * box)
    : list raster * world :=
  let '(tiles, w) := st in
  let '(r, c, b) := x in
  if GenerateTiles.degenerate b then
    (tiles,
     mkWorld (files w) (dirs w) (stdout w ++ [SkippingEmptyCell r c]) (draws w))
  else
    let tile := cell_tile E tile_size img b in
    (tiles ++ [tile],
     mkWorld (<[tile_path out_dir r c := PNG tile]> (files w)) (dirs w)
       (stdout w) (draws w)).

(** The world when the grid loops start. *)
Definition loop_start (E : env) (a : GenerateTiles.args.t) (img : raster)
    (w : world) : world :=
  mkWorld (files w) ({[out_dir_of E]} ∪ dirs w)
    (stdout w ++
     [SourceInfo (GenerateTiles.args.source a) (width img) (height img)
        (Z.max 1 (GenerateTiles.args.cols a))
        (Z.max 1 (GenerateTiles.args.rows a)) (out_dir_of E)])
    (draws w).

(** The cells that are kept and those that are skipped. *)
Definition kept (cells : list (Z * Z * box)) : list (Z * Z * box) :=
  filter (fun x => GenerateTiles.degenerate x.2 = false) cells.

Definition skipped (cells : list (Z * Z * box)) : list (Z * Z * box) :=
  filter (fun x => GenerateTiles.degenerate x.2 = true) cells.

(** The source can be used: it is a file and it opens as [img]. *)
Definition readable (E : env) (a : GenerateTiles.args.t) (img : raster)
    : Prop :=
  isfile E (GenerateTiles.args.source a) = true /\
  open_rgb E (GenerateTiles.args.source a) = Ok img.

(** The image and the grid are in the range of the float computations. *)
Definition in_range (a : GenerateTiles.args.t) (img : raster) : Prop :=
  0 <= width img < 2 ^ 31 /\ 0 <= height img < 2 ^ 31 /\
  GenerateTiles.args.cols a <= 2 ^ 1022 /\
  GenerateTiles.args.rows a <= 2 ^ 1022.

(** One turn of the grid loops on a cell whose bounds are [b]. *)
Definition cell_turn (E : env) (tile_size : Z) (img : raster)
    (out_dir : string) (x : Z * Z * box) (tiles : list raster)
    : io (list raster) :=
  fun w =>
    let '(r, c, b) := x in
    if GenerateTiles.degenerate b then
      (Normal tiles,
       mkWorld (files w) (dirs w) (stdout w ++ [SkippingEmptyCell r c])
         (draws w))
    else
      match Image_new (new_error E) (tile_size, tile_size)
              (resample_bilinear E (crop img b) (1, 1) 0 0) with
      | Raise e => (Throw e, w)
      | Ok tile =>
          match save_error E (tile_path out_dir r c) tile with
          | Some (e, leftover) =>
              (Throw e,
               mkWorld
                 (partial_alter leftover (tile_path out_dir r c) (files w))
                 (dirs w) (stdout w) (draws w))
          | None =>
              (Normal (tiles ++ [tile]),
               mkWorld (<[tile_path out_dir r c := PNG tile]> (files w))
                 (dirs w) (stdout w) (draws w))
          end
      end.

(** The second world differs from the first by files of the folder
    [out_dir] at most (tiles and preview), by the folder itself and by
    lines added to the output. *)
Definition writes_within (out_dir : string) (w w' : world) : Prop :=
  (forall p,
     p <> GenerateTiles.path_join out_dir "preview.png" ->
     (forall r c, p <> tile_path out_dir r c) ->
     files w' !! p = files w !! p) /\
  dirs w ⊆ dirs w' /\ dirs w' ⊆ {[out_dir]} ∪ dirs w /\
  stdout w `prefix_of` stdout w' /\
  draws w' = draws w.

(** The sample environment with a Desktop that cannot be written. *)
Definition no_folder_env : env :=
  mkEnv (isfile sample_env) (open_rgb sample_env)
    (resample_bilinear sample_env) (home sample_env) (timestamp sample_env)
    (fun _ => Some OSError) (save_error sample_env) (new_error sample_env)
    (entropy sample_env).

(** ** The draws of the block generator *)

(** The blocks of the columns before [i], and those of column [i] before
    row [j], have the colors of their draws. *)
Definition painted (E : env) (height block_size : Z) (d : nat) (i j : Z)
    (img : raster) : Prop :=
  forall bx by_, 0 <= by_ < height ->
    0 <= bx < i \/ (bx = i /\ by_ < j) ->
    forall x y, in_block block_size bx by_ x y ->
      pix img x y = color_drawn E (draw_of_block height d bx by_).

(** The channels of a color fit in a byte. *)
Definition byte_color (c : color) : Prop :=
  0 <= c.1.1 <= 255 /\ 0 <= c.1.2 <= 255 /\ 0 <= c.2 <= 255.

(** The sample environment with a disk that fails on [path]. *)
Definition failing_save_env (path : string) : env :=
  mkEnv (isfile sample_env) (open_rgb sample_env)
    (resample_bilinear sample_env) (home sample_env) (timestamp sample_env)
    (makedirs_error sample_env)
    (fun p _ => if bool_decide (p = path)
                then Some (OSError, fun _ => Some Partial) else None)
    (new_error sample_env) (entropy sample_env).

(** The second world differs from the first by the images named
    [prefix ++ str i ++ ".png"] at most, and by the count of draws. *)
Definition writes_images (prefix : string) (w w' : world) : Prop :=
  (forall p, (forall i, p <> image_name prefix i) ->
     files w' !! p = files w !! p) /\
  dirs w' = dirs w /\ stdout w' = stdout w.

End RunVocabulary.

(** * Properties *)

(** ** Facts about binary64 rounding *)
Module PyFloatFacts.
Import PyFloat.
Import Vocabulary.
Local Open Scope Q_scope.

Lemma two_neq0 : ~ 2 == 0.
Proof. intros H; discriminate H. Qed.

Lemma pow2_pos e : 0 < pow2 e.
Proof. apply Qpower_0_lt. reflexivity. Qed.

Lemma pow2_add a b : pow2 (a + b) == pow2 a * pow2 b.
Proof. apply Qpower_plus, two_neq0. Qed.

Lemma pow2_sub a b : pow2 (a - b) == pow2 a / pow2 b.
Proof. apply Qpower_minus, two_neq0. Qed.

Lemma pow2_succ e : pow2 (e + 1) == 2 * pow2 e.
Proof. rewrite pow2_add. unfold pow2 at 2. rewrite Qpower_1_r. ring. Qed.

Lemma pow2_le a b : (a <= b)%Z -> pow2 a <= pow2 b.
Proof. intros. apply Qpower_le_compat_l; [assumption | discriminate]. Qed.

Lemma pow2_lt a b : (a < b)%Z -> pow2 a < pow2 b.
Proof. intros. apply Qpower_lt_compat_l; [assumption | reflexivity]. Qed.

Lemma pow2_lt_inv a b : pow2 a < pow2 b -> (a < b)%Z.
Proof. intros. eapply Qpower_lt_compat_l_inv; [eassumption | reflexivity]. Qed.

Lemma pow2_Z n : (0 <= n)%Z -> pow2 n == inject_Z (2 ^ n).
Proof. intros. unfold pow2. rewrite Zpower_Qpower by assumption. reflexivity. Qed.

Lemma Qmake_div n d : n # d == inject_Z n / inject_Z (Zpos d).
Proof. apply Qmake_Qdiv. Qed.

(** [ilog2] brackets a positive rational between two consecutive powers. *)
Lemma ilog2_spec x : 0 < x -> pow2 (ilog2 x) <= x /\ x < pow2 (ilog2 x + 1).
Proof.
  intros Hx. destruct x as [n d].
  assert (Hn : (0 < n)%Z).
  { unfold Qlt in Hx; simpl in Hx. lia. }
  unfold ilog2. cbn [Qnum Qden].
  set (a := Z.log2 n). set (b := Z.log2 (Z.pos d)).
  destruct (Z.log2_spec n Hn) as [Ha1 Ha2]. fold a in Ha1, Ha2.
  destruct (Z.log2_spec (Z.pos d) ltac:(lia)) as [Hb1 Hb2]. fold b in Hb1, Hb2.
  assert (Ha0 : (0 <= a)%Z) by apply Z.log2_nonneg.
  assert (Hb0 : (0 <= b)%Z) by apply Z.log2_nonneg.
  assert (HA1 : pow2 a <= inject_Z n).
  { rewrite pow2_Z by assumption. rewrite <- Zle_Qle. assumption. }
  assert (HA2 : inject_Z n < pow2 (a + 1)).
  { rewrite pow2_Z by lia. rewrite <- Zlt_Qlt. replace (a + 1)%Z with (Z.succ a) by lia. assumption. }
  assert (HB1 : pow2 b <= inject_Z (Z.pos d)).
  { rewrite pow2_Z by assumption. rewrite <- Zle_Qle. assumption. }
  assert (HB2 : inject_Z (Z.pos d) < pow2 (b + 1)).
  { rewrite pow2_Z by lia. rewrite <- Zlt_Qlt. replace (b + 1)%Z with (Z.succ b) by lia. assumption. }
  assert (Hxd : (n # d) * inject_Z (Z.pos d) == inject_Z n).
  { rewrite Qmake_div. field. intros H. unfold Qeq in H; simpl in H; lia. }
  set (x := n # d) in *.
  assert (Hlow : pow2 (a - b - 1) < x).
  { assert (E : pow2 (a - b - 1) * pow2 (b + 1) == pow2 a).
    { rewrite <- pow2_add. replace (a - b - 1 + (b + 1))%Z with a by lia. reflexivity. }
    pose proof (pow2_pos (a - b - 1)). pose proof (pow2_pos (b + 1)).
    destruct (Qlt_le_dec (pow2 (a - b - 1)) x) as [|Hc]; [assumption|exfalso].
    assert (x * inject_Z (Z.pos d) < pow2 (a - b - 1) * pow2 (b + 1)).
    { apply Qle_lt_trans with (pow2 (a - b - 1) * inject_Z (Z.pos d)).
      - apply Qmult_le_compat_r; [assumption|]. pose proof (pow2_pos b). lra.
      - apply Qmult_lt_l; assumption. }
    lra. }
  assert (Hhigh : x < pow2 (a - b + 1)).
  { assert (E : pow2 (a - b + 1) * pow2 b == pow2 (a + 1)).
    { rewrite <- pow2_add. replace (a - b + 1 + b)%Z with (a + 1)%Z by lia. reflexivity. }
    pose proof (pow2_pos (a - b + 1)). pose proof (pow2_pos b).
    destruct (Qlt_le_dec x (pow2 (a - b + 1))) as [|Hc]; [assumption|exfalso].
    assert (pow2 (a - b + 1) * pow2 b <= x * inject_Z (Z.pos d)).
    { apply Qle_trans with (x * pow2 b).
      - apply Qmult_le_compat_r; [assumption|]. lra.
      - apply Qmult_le_l; [lra | assumption]. }
    lra. }
  destruct (Qle_bool (pow2 (a - b)) x) eqn:E.
  - apply Qle_bool_iff in E. split; assumption.
  - assert (~ pow2 (a - b) <= x).
    { intros H. apply Qle_bool_iff in H. congruence. }
    replace (a - b - 1 + 1)%Z with (a - b)%Z by lia. split; lra.
Qed.

Lemma ilog2_unique x e : pow2 e <= x -> x < pow2 (e + 1) -> ilog2 x = e.
Proof.
  intros H1 H2.
  assert (Hx : 0 < x) by (pose proof (pow2_pos e); lra).
  destruct (ilog2_spec x Hx) as [H3 H4].
  assert (ilog2 x < e + 1)%Z by (apply pow2_lt_inv; lra).
  assert (e < ilog2 x + 1)%Z by (apply pow2_lt_inv; lra).
  lia.
Qed.

Lemma ilog2_comp x y : 0 < x -> x == y -> ilog2 x = ilog2 y.
Proof.
  intros Hx E. symmetry. destruct (ilog2_spec x Hx).
  apply ilog2_unique; rewrite <- E; assumption.
Qed.

Lemma ilog2_mono x y : 0 < x -> x <= y -> (ilog2 x <= ilog2 y)%Z.
Proof.
  intros Hx Hxy.
  destruct (ilog2_spec x Hx). destruct (ilog2_spec y ltac:(lra)).
  assert (ilog2 x < ilog2 y + 1)%Z by (apply pow2_lt_inv; lra).
  lia.
Qed.

(** *** Rounding to the nearest integer *)

Lemma round_half_even_cases x :
  (x - inject_Z (Qfloor x) < 1 # 2 /\ round_half_even x = Qfloor x) \/
  (1 # 2 < x - inject_Z (Qfloor x) /\ round_half_even x = (Qfloor x + 1)%Z) \/
  (x - inject_Z (Qfloor x) == 1 # 2 /\
   round_half_even x = (if Z.even (Qfloor x) then Qfloor x else Qfloor x + 1)%Z).
Proof.
  unfold round_half_even.
  destruct (Qcompare (x - inject_Z (Qfloor x)) (1 # 2)) eqn:E.
  - right; right. apply Qeq_alt in E. auto.
  - left. apply Qlt_alt in E. auto.
  - right; left. apply Qgt_alt in E. auto.
Qed.

Lemma Qfloor_bounds x : inject_Z (Qfloor x) <= x /\ x < inject_Z (Qfloor x) + 1.
Proof.
  split; [apply Qfloor_le|].
  pose proof (Qlt_floor x) as H. rewrite inject_Z_plus in H. exact H.
Qed.

Lemma round_half_even_near x :
  x - (1 # 2) <= inject_Z (round_half_even x) /\
  inject_Z (round_half_even x) <= x + (1 # 2).
Proof.
  destruct (Qfloor_bounds x) as [H1 H2].
  destruct (round_half_even_cases x) as [[H ->]|[[H ->]|[H ->]]];
    try destruct (Z.even (Qfloor x)); rewrite ?inject_Z_plus;
    change (inject_Z 1) with 1; split; lra.
Qed.

Lemma round_half_even_mono x y :
  x <= y -> (round_half_even x <= round_half_even y)%Z.
Proof.
  intros Hxy.
  pose proof (Qfloor_resp_le _ _ Hxy) as Hf.
  destruct (Qfloor_bounds x) as [Hx1 Hx2]. destruct (Qfloor_bounds y) as [Hy1 Hy2].
  destruct (Z.eq_dec (Qfloor x) (Qfloor y)) as [E|NE].
  - destruct (round_half_even_cases x) as [[H ->]|[[H ->]|[H ->]]];
    destruct (round_half_even_cases y) as [[H' ->]|[[H' ->]|[H' ->]]];
    rewrite <- ?E in *; try destruct (Z.even (Qfloor x)); try lia; exfalso; lra.
  - assert (Hlt : (Qfloor x + 1 <= Qfloor y)%Z) by lia.
    assert (round_half_even x <= Qfloor x + 1)%Z.
    { destruct (round_half_even_cases x) as [[H ->]|[[H ->]|[H ->]]];
        try destruct (Z.even (Qfloor x)); lia. }
    assert (Qfloor y <= round_half_even y)%Z.
    { destruct (round_half_even_cases y) as [[H' ->]|[[H' ->]|[H' ->]]];
        try destruct (Z.even (Qfloor y)); lia. }
    lia.
Qed.

Lemma round_half_even_Z z : round_half_even (inject_Z z) = z.
Proof.
  pose proof (Qfloor_Z z) as E.
  destruct (round_half_even_cases (inject_Z z)) as [[H ->]|[[H ->]|[H ->]]];
    rewrite ?E in *; try reflexivity; exfalso; lra.
Qed.

Lemma round_half_even_comp x y : x == y -> round_half_even x = round_half_even y.
Proof.
  intros E. apply Z.le_antisymm; apply round_half_even_mono; lra.
Qed.

(** A value strictly within 1/2 of an integer rounds to it. *)
Lemma round_half_even_within x z :
  inject_Z z - (1 # 2) < x -> x < inject_Z z + (1 # 2) -> round_half_even x = z.
Proof.
  intros H1 H2. destruct (round_half_even_near x) as [H3 H4].
  assert (Ha : inject_Z (round_half_even x) < inject_Z (z + 1)).
  { rewrite inject_Z_plus. change (inject_Z 1) with 1. lra. }
  assert (Hb : inject_Z (z - 1) < inject_Z (round_half_even x)).
  { unfold Z.sub. rewrite inject_Z_plus, inject_Z_opp. change (inject_Z 1) with 1. lra. }
  rewrite <- Zlt_Qlt in Ha, Hb. lia.
Qed.

(** *** Rounding to binary64 *)

Lemma Qabs_pos_lt x : ~ x == 0 -> 0 < Qabs x.
Proof. intros Hx. apply Qabs_case; intros; lra. Qed.

Lemma ulp_exp_comp x y : ~ x == 0 -> x == y -> ulp_exp x = ulp_exp y.
Proof.
  intros Hx E. unfold ulp_exp. f_equal. f_equal.
  apply ilog2_comp; [apply Qabs_pos_lt; assumption | rewrite E; reflexivity].
Qed.

Lemma RN_0 : RN 0 = 0.
Proof. reflexivity. Qed.

Lemma RN_unfold x :
  ~ x == 0 ->
  RN x == inject_Z (round_half_even (x / pow2 (ulp_exp x))) * pow2 (ulp_exp x).
Proof.
  intros Hx. unfold RN.
  destruct (Qeq_bool x 0) eqn:E.
  - apply Qeq_bool_iff in E. contradiction.
  - apply Qred_correct.
Qed.

Lemma RN_comp x y : x == y -> RN x = RN y.
Proof.
  intros E. unfold RN.
  destruct (Qeq_bool x 0) eqn:Ex; destruct (Qeq_bool y 0) eqn:Ey.
  - reflexivity.
  - apply Qeq_bool_iff in Ex. rewrite E in Ex. apply Qeq_bool_iff in Ex. congruence.
  - apply Qeq_bool_iff in Ey. rewrite <- E in Ey. apply Qeq_bool_iff in Ey. congruence.
  - assert (Hx : ~ x == 0) by (intros H; apply Qeq_bool_iff in H; congruence).
    apply Qred_complete.
    rewrite (ulp_exp_comp x y Hx E).
    rewrite (round_half_even_comp (x / pow2 (ulp_exp y)) (y / pow2 (ulp_exp y))).
    + reflexivity.
    + rewrite E. reflexivity.
Qed.

Lemma ulp_exp_pos x : 0 < x -> ulp_exp x = (Z.max (ilog2 x) (-1022) - 52)%Z.
Proof.
  intros Hx. unfold ulp_exp. f_equal. f_equal.
  apply ilog2_comp.
  - apply Qabs_pos_lt; lra.
  - apply Qabs_pos; lra.
Qed.

(** The rounding error is at most half a unit in the last place. *)
Lemma RN_error x :
  0 < x ->
  x - pow2 (ulp_exp x - 1) <= RN x /\ RN x <= x + pow2 (ulp_exp x - 1).
Proof.
  intros Hx. rewrite RN_unfold by lra.
  set (s := ulp_exp x).
  pose proof (pow2_pos s) as Hs.
  assert (Hh : pow2 s == 2 * pow2 (s - 1)).
  { rewrite <- pow2_succ. replace (s - 1 + 1)%Z with s by lia. reflexivity. }
  destruct (round_half_even_near (x / pow2 s)) as [H1 H2].
  assert (Hx' : x == x / pow2 s * pow2 s) by (field; lra).
  revert H1 H2 Hx'.
  generalize (inject_Z (round_half_even (x / pow2 s))) as m.
  generalize (x / pow2 s) as t.
  generalize dependent (pow2 s). generalize (pow2 (s - 1)).
  intros h p Hp Hh t m H1 H2 Hx'.
  assert ((t - (1 # 2)) * p <= m * p) by (apply Qmult_le_compat_r; lra).
  assert (m * p <= (t + (1 # 2)) * p) by (apply Qmult_le_compat_r; lra).
  split; lra.
Qed.

Lemma u_pos : 0 < u.
Proof. apply pow2_pos. Qed.

(** In the normal range the error is relative. *)
Lemma RN_rel_error x :
  pow2 (-1022) <= x ->
  x * (1 - u) <= RN x /\ RN x <= x * (1 + u).
Proof.
  intros Hx.
  assert (Hx0 : 0 < x) by (pose proof (pow2_pos (-1022)); lra).
  destruct (RN_error x Hx0) as [H1 H2].
  destruct (ilog2_spec x Hx0) as [H3 _].
  assert (He : (-1022 <= ilog2 x)%Z).
  { assert (-1022 < ilog2 x + 1)%Z; [|lia].
    apply pow2_lt_inv. destruct (ilog2_spec x Hx0). lra. }
  rewrite ulp_exp_pos in H1, H2 by assumption.
  replace (Z.max (ilog2 x) (-1022) - 52 - 1)%Z with (ilog2 x + -53)%Z in H1, H2 by lia.
  rewrite pow2_add in H1, H2. fold u in H1, H2.
  pose proof u_pos.
  assert (pow2 (ilog2 x) * u <= x * u) by (apply Qmult_le_compat_r; lra).
  split; lra.
Qed.

Lemma RN_nonneg x : 0 <= x -> 0 <= RN x.
Proof.
  intros Hx. destruct (Qeq_dec x 0) as [E|NE].
  - rewrite (RN_comp x 0 E). rewrite RN_0. lra.
  - rewrite RN_unfold by assumption.
    pose proof (pow2_pos (ulp_exp x)) as Hp.
    apply Qmult_le_0_compat; [|lra].
    change 0 with (inject_Z 0). rewrite <- Zle_Qle.
    rewrite <- (round_half_even_Z 0). apply round_half_even_mono.
    change (inject_Z 0) with 0.
    apply Qle_shift_div_l; [assumption | lra].
Qed.

(** Rounding is monotone. *)
Lemma RN_mono x y : 0 <= x -> x <= y -> RN x <= RN y.
Proof.
  intros Hx Hxy.
  destruct (Qeq_dec x 0) as [E|NE].
  { rewrite (RN_comp x 0 E), RN_0. apply RN_nonneg. lra. }
  assert (Hx0 : 0 < x) by lra. assert (Hy0 : 0 < y) by lra.
  rewrite (RN_unfold x), (RN_unfold y) by lra.
  rewrite !ulp_exp_pos by assumption.
  pose proof (ilog2_mono x y Hx0 Hxy) as He.
  destruct (ilog2_spec x Hx0) as [Hx1 Hx2]. destruct (ilog2_spec y Hy0) as [Hy1 Hy2].
  set (ex := ilog2 x) in *. set (ey := ilog2 y) in *.
  set (sx := (Z.max ex (-1022) - 52)%Z). set (sy := (Z.max ey (-1022) - 52)%Z).
  pose proof (pow2_pos sx) as Hpx. pose proof (pow2_pos sy) as Hpy.
  destruct (Z.eq_dec sx sy) as [Es|Ns].
  - rewrite <- Es. apply Qmult_le_compat_r; [|lra].
    rewrite <- Zle_Qle. apply round_half_even_mono.
    apply Qmult_le_compat_r; [assumption|]. apply Qlt_le_weak, Qinv_lt_0_compat. assumption.
  - assert (Hlt : (sx < sy)%Z) by lia.
    assert (Hey : (-1022 < ey)%Z) by lia.
    assert (Hexy : (ex < ey)%Z) by lia.
    (* RN x <= 2^(sx+53) <= 2^ey <= RN y *)
    apply Qle_trans with (pow2 ey).
    + apply Qle_trans with (pow2 (53 + sx)).
      * rewrite pow2_add. apply Qmult_le_compat_r; [|lra].
        rewrite (pow2_Z 53) by lia. rewrite <- Zle_Qle.
        rewrite <- (round_half_even_Z (2 ^ 53)). apply round_half_even_mono.
        rewrite <- (pow2_Z 53) by lia.
        apply Qle_shift_div_r; [assumption|]. rewrite <- pow2_add.
        apply Qle_trans with (pow2 (ex + 1)); [lra|]. apply pow2_le. lia.
      * apply pow2_le. lia.
    + replace ey with (52 + sy)%Z at 1 by lia.
      rewrite pow2_add. apply Qmult_le_compat_r; [|lra].
      rewrite (pow2_Z 52) by lia. rewrite <- Zle_Qle.
      rewrite <- (round_half_even_Z (2 ^ 52)). apply round_half_even_mono.
      rewrite <- (pow2_Z 52) by lia.
      apply Qle_shift_div_l; [assumption|]. rewrite <- pow2_add.
      replace (52 + sy)%Z with ey by lia. assumption.
Qed.

(** Integers of at most 53 bits are representable. *)
Lemma RN_int z : (0 <= z <= 2 ^ 53)%Z -> RN (inject_Z z) == inject_Z z.
Proof.
  intros Hz. destruct (Z.eq_dec z 0) as [->|NE]; [reflexivity|].
  assert (Hq : 0 < inject_Z z).
  { change 0 with (inject_Z 0). rewrite <- Zlt_Qlt. lia. }
  rewrite RN_unfold by lra. rewrite ulp_exp_pos by assumption.
  destruct (ilog2_spec _ Hq) as [H1 H2].
  set (e := ilog2 (inject_Z z)) in *.
  assert (He0 : (0 <= e)%Z).
  { assert (0 < e + 1)%Z; [|lia]. apply pow2_lt_inv.
    apply Qle_lt_trans with (inject_Z z); [|assumption].
    change (pow2 0) with (inject_Z 1). rewrite <- Zle_Qle. lia. }
  assert (He : (e <= 53)%Z).
  { assert (e < 53 + 1)%Z; [|lia]. apply pow2_lt_inv.
    apply Qle_lt_trans with (inject_Z z); [assumption|].
    apply Qle_lt_trans with (pow2 53); [|apply pow2_lt; lia].
    rewrite (pow2_Z 53) by lia. rewrite <- Zle_Qle. lia. }
  replace (Z.max e (-1022)) with e by lia.
  destruct (Z.eq_dec e 53) as [E53|N53].
  - (* z = 2^53 *)
    assert (z = 2 ^ 53)%Z.
    { rewrite E53 in H1. rewrite (pow2_Z 53) in H1 by lia. rewrite <- Zle_Qle in H1. lia. }
    subst z. rewrite E53. vm_compute. reflexivity.
  - set (k := (52 - e)%Z). assert (Hk : (0 <= k)%Z) by lia.
    replace (e - 52)%Z with (- k)%Z by lia.
    assert (Ek : pow2 (- k) == / pow2 k) by (apply Qpower_opp).
    pose proof (pow2_pos k) as Hpk.
    rewrite (round_half_even_comp _ (inject_Z (z * 2 ^ k))).
    + rewrite round_half_even_Z. rewrite inject_Z_mult, <- pow2_Z by lia.
      rewrite Ek. field. lra.
    + rewrite inject_Z_mult, <- pow2_Z by lia. rewrite Ek. field. lra.
Qed.

(** The model against the Standard Library's specification of IEEE 754:
    quotients and products of the shape the tile tool computes. *)
Example RN_agrees_with_SpecFloat :
  forallb agrees_with_SpecFloat
    [(1, 3, 2); (1, 4, 3); (100, 3, 2); (100, 8, 5); (3, 5, 4);
     (1920, 7, 6); (1080, 13, 11); (4, 8, 3); (1, 10, 7);
     (2 ^ 28 + 3, 2 ^ 28, 2 ^ 27); (2 ^ 28 + 3, 2 ^ 28, 2 ^ 27 + 1);
     (2 ^ 31 - 1, 3, 2); (2 ^ 31 - 1, 2 ^ 31 - 2, 2 ^ 30);
     (9007199254740991, 7, 5); (1, 2 ^ 52 + 1, 2 ^ 52)]%Z
  = true.
Proof. vm_compute. reflexivity. Qed.

End PyFloatFacts.

(** ** The grid lines of one axis *)
Module GridFacts.
Import PyFloat PyFloatFacts.
Import Vocabulary.
Local Open Scope Q_scope.

Lemma fl_finite x : 0 <= x -> RN x < pow2 1024 -> fl x = Fin (RN x).
Proof.
  intros Hx Hlt. unfold fl.
  destruct (Qle_bool (pow2 1024) (Qabs (RN x))) eqn:E; [|reflexivity].
  apply Qle_bool_iff in E. rewrite Qabs_pos in E by (apply RN_nonneg; assumption).
  lra.
Qed.

Lemma inject_Z_nonneg z : (0 <= z)%Z -> 0 <= inject_Z z.
Proof. intros. change 0 with (inject_Z 0). rewrite <- Zle_Qle. assumption. Qed.

Lemma inject_Z_pos z : (0 < z)%Z -> 0 < inject_Z z.
Proof. intros. change 0 with (inject_Z 0). rewrite <- Zlt_Qlt. assumption. Qed.

Lemma inject_Z_ge1 z : (1 <= z)%Z -> 1 <= inject_Z z.
Proof. intros. change 1 with (inject_Z 1). rewrite <- Zle_Qle. assumption. Qed.

Ltac unfold_u := change u with (1 # 9007199254740992) in *.

(** Any value at least 1 is in the normal range. *)
Lemma normal_of_ge x : (1 # 4) <= x -> pow2 (-1022) <= x.
Proof.
  intros. apply Qle_trans with (pow2 (-2)); [apply pow2_le; lia|].
  change (pow2 (-2)) with (1 # 4). assumption.
Qed.

(** [float(i)] is finite for an index of the grid. *)
Lemma RN_index_bound i :
  (0 <= i <= 2 ^ 1022)%Z ->
  0 <= RN (inject_Z i) /\ RN (inject_Z i) <= inject_Z i * (1 + u) /\
  inject_Z i * (1 - u) <= RN (inject_Z i) /\ RN (inject_Z i) < pow2 1024.
Proof.
  intros Hi.
  assert (H0 : 0 <= inject_Z i) by (apply inject_Z_nonneg; lia).
  destruct (Z.eq_dec i 0) as [->|NE].
  { change (inject_Z 0) with 0. rewrite RN_0. pose proof (pow2_pos 1024).
    split; [|split; [|split]]; lra. }
  assert (H1 : 1 <= inject_Z i) by (apply inject_Z_ge1; lia).
  destruct (RN_rel_error (inject_Z i)) as [Hlo Hhi]; [apply normal_of_ge; lra|].
  assert (Hub : inject_Z i <= pow2 1022).
  { rewrite (pow2_Z 1022) by lia. rewrite <- Zle_Qle. lia. }
  assert (pow2 1024 == 4 * pow2 1022).
  { change 1024%Z with (1022 + 1 + 1)%Z. rewrite !pow2_succ. ring. }
  pose proof (pow2_pos 1022).
  unfold_u. split; [|split; [|split]]; lra.
Qed.

Lemma float_of_int_index i :
  (0 <= i <= 2 ^ 1022)%Z -> float_of_int i = Ok (Fin (RN (inject_Z i))).
Proof.
  intros Hi. unfold float_of_int.
  destruct (RN_index_bound i Hi) as (_ & _ & _ & Hlt).
  rewrite fl_finite; [reflexivity | apply inject_Z_nonneg; lia | assumption].
Qed.

Lemma edge_mono q i j :
  0 <= q -> (0 <= i <= j)%Z -> (edge q i <= edge q j)%Z.
Proof.
  intros Hq Hij. unfold edge. apply round_half_even_mono.
  assert (Hi : 0 <= inject_Z i) by (apply inject_Z_nonneg; lia).
  assert (0 <= RN (inject_Z i)) by (apply RN_nonneg; assumption).
  assert (RN (inject_Z i) <= RN (inject_Z j)).
  { apply RN_mono; [assumption|]. rewrite <- Zle_Qle. lia. }
  apply RN_mono.
  - apply Qmult_le_0_compat; assumption.
  - apply Qmult_le_compat_r; assumption.
Qed.

Lemma edge_0 q : edge q 0 = 0%Z.
Proof.
  unfold edge. change (inject_Z 0) with 0. rewrite RN_0.
  rewrite (RN_comp (0 * q) 0) by ring. rewrite RN_0. reflexivity.
Qed.

Lemma edge_nonneg q i : 0 <= q -> (0 <= i)%Z -> (0 <= edge q i)%Z.
Proof.
  intros Hq Hi. rewrite <- (edge_0 q). apply edge_mono; [assumption | lia].
Qed.

Lemma step_nonneg n k : (0 <= n)%Z -> (1 <= k)%Z -> 0 <= step n k.
Proof.
  intros Hn Hk. apply RN_nonneg.
  pose proof (inject_Z_nonneg n Hn). pose proof (inject_Z_ge1 k Hk).
  apply Qle_shift_div_l; lra.
Qed.

Lemma step_0 k : (1 <= k)%Z -> step 0 k = 0.
Proof.
  intros Hk. unfold step. rewrite (RN_comp _ 0); [apply RN_0|].
  pose proof (inject_Z_ge1 k Hk). change (inject_Z 0) with 0. field. lra.
Qed.

Lemma edge_step_0 k i : (1 <= k)%Z -> edge (step 0 k) i = 0%Z.
Proof.
  intros Hk. rewrite step_0 by assumption. unfold edge.
  rewrite (RN_comp (_ * 0) 0) by ring. reflexivity.
Qed.

Section Axis.
Variables n k : Z.
Hypothesis Hn : (1 <= n < 2 ^ 31)%Z.
Hypothesis Hk : (1 <= k <= 2 ^ 1022)%Z.

Let N := inject_Z n.
Let K := inject_Z k.
Let q := step n k.

Lemma axis_N : 1 <= N /\ N <= 2147483647.
Proof.
  split; [apply inject_Z_ge1; lia|].
  change 2147483647 with (inject_Z 2147483647). unfold N. rewrite <- Zle_Qle. lia.
Qed.

Lemma axis_K : 1 <= K /\ K <= pow2 1022.
Proof.
  split; [apply inject_Z_ge1; lia|].
  rewrite (pow2_Z 1022) by lia. unfold K. rewrite <- Zle_Qle. lia.
Qed.

Lemma axis_step :
  0 <= q /\ (N / K) * (1 - u) <= q /\ q <= (N / K) * (1 + u).
Proof.
  destruct axis_N, axis_K as [HK1 HK2].
  split; [apply step_nonneg; lia|].
  apply RN_rel_error.
  apply Qle_shift_div_l; [lra|].
  apply Qle_trans with (pow2 (-1022) * pow2 1022).
  - apply Qmult_le_l; [apply pow2_pos | assumption].
  - rewrite <- pow2_add. change (pow2 (-1022 + 1022)) with 1. lra.
Qed.

(** The exact product for grid line [i] stays within three roundings of
    [n * i / k]. *)
Lemma axis_product_upper i :
  (0 <= i <= k)%Z ->
  0 <= RN (inject_Z i) * q /\ RN (RN (inject_Z i) * q) <= N + (1 # 4).
Proof.
  intros Hi. destruct axis_N as [HN1 HN2], axis_K as [HK1 HK2].
  destruct axis_step as (Hq0 & Hq1 & Hq2).
  destruct (RN_index_bound i ltac:(lia)) as (Ha0 & Ha1 & _ & _).
  assert (HiK : inject_Z i <= K) by (unfold K; rewrite <- Zle_Qle; lia).
  assert (HNK : N / K * K == N) by (field; lra).
  revert Hq0 Hq1 Hq2 Ha0 Ha1 HiK HNK. 
  generalize (RN (inject_Z i)) as a. generalize (inject_Z i) as I.
  generalize (N / K) as x. fold q. generalize q as p.
  intros p x I a Hq0 Hq1 Hq2 Ha0 Ha1 HiK HNK.
  assert (Hap0 : 0 <= a * p) by (apply Qmult_le_0_compat; assumption).
  split; [assumption|].
  assert (Hx0 : 0 <= x).
  { unfold_u. destruct (Qlt_le_dec x 0); [|assumption]. exfalso. lra. }
  assert (Hap : a * p <= N * ((1 + u) * (1 + u))).
  { apply Qle_trans with ((K * (1 + u)) * (x * (1 + u))).
    - apply Qle_trans with ((K * (1 + u)) * p).
      + apply Qmult_le_compat_r; [|assumption]. unfold_u. 
        apply Qle_trans with (I * (1 + (1 # 9007199254740992))); [assumption|].
        apply Qmult_le_compat_r; [assumption|lra].
      + apply Qmult_le_l; [unfold_u; lra | assumption].
    - rewrite <- HNK. ring_simplify. lra. }
  apply Qle_trans with (RN (N * ((1 + u) * (1 + u)))).
  - apply RN_mono; assumption.
  - destruct (RN_rel_error (N * ((1 + u) * (1 + u)))) as [_ H].
    + apply normal_of_ge. unfold_u. lra.
    + unfold_u. lra.
Qed.

Lemma axis_product_lower :
  N - (1 # 4) <= RN (RN K * q).
Proof.
  destruct axis_N as [HN1 HN2], axis_K as [HK1 HK2].
  destruct axis_step as (Hq0 & Hq1 & Hq2).
  destruct (RN_index_bound k ltac:(lia)) as (Ha0 & _ & Ha1 & _). fold K in Ha0, Ha1.
  assert (HNK : N / K * K == N) by (field; lra).
  revert Hq0 Hq1 Hq2 Ha0 Ha1 HNK.
  generalize (RN K) as a. generalize (N / K) as x. fold q. generalize q as p.
  intros p x a Hq0 Hq1 Hq2 Ha0 Ha1 HNK.
  assert (Hx0 : 0 <= x).
  { unfold_u. destruct (Qlt_le_dec x 0); [|assumption]. exfalso. lra. }
  assert (Hap : N * ((1 - u) * (1 - u)) <= a * p).
  { apply Qle_trans with ((K * (1 - u)) * (x * (1 - u))).
    - rewrite <- HNK. ring_simplify. lra.
    - apply Qle_trans with ((K * (1 - u)) * p).
      + apply Qmult_le_l; [unfold_u; lra | assumption].
      + apply Qmult_le_compat_r; assumption. }
  apply Qle_trans with (RN (N * ((1 - u) * (1 - u)))).
  - destruct (RN_rel_error (N * ((1 - u) * (1 - u)))) as [H _].
    + apply normal_of_ge. unfold_u. lra.
    + unfold_u. lra.
  - apply RN_mono; [unfold_u; lra | assumption].
Qed.

Lemma axis_edge_last : edge q k = n.
Proof.
  unfold edge. fold K.
  destruct (axis_product_upper k ltac:(lia)) as [_ Hup]. fold K in Hup.
  pose proof axis_product_lower as Hlo.
  apply round_half_even_within; fold N; lra.
Qed.

Lemma axis_edge_range i : (0 <= i <= k)%Z -> (0 <= edge q i <= n)%Z.
Proof.
  intros Hi. pose proof axis_step as (Hq0 & _).
  split; [apply edge_nonneg; [assumption | lia]|].
  pose proof axis_edge_last as Hl.
  assert (edge q i <= edge q k)%Z by (apply edge_mono; [assumption | lia]).
  lia.
Qed.

End Axis.

End GridFacts.

(** ** Loops that collect *)
Module LoopFacts.
Import GenerateTiles Runtime.

Lemma fold_res_app {A S} (f : S -> A -> res S) l1 l2 s :
  fold_res f (l1 ++ l2) s = rbind (fold_res f l1 s) (fold_res f l2).
Proof.
  revert s. induction l1 as [|a l1 IH]; intros s; simpl; [reflexivity|].
  destruct (f s a); simpl; [apply IH | reflexivity].
Qed.

(** A loop whose every turn appends one block of items yields the blocks in
    the order of the loop. *)
Lemma fold_res_blocks {A C} (inner : list C -> A -> res (list C))
    (F : A -> list C) (l : list A) (acc : list C) :
  (forall a acc', a ∈ l -> inner acc' a = Ok (acc' ++ F a)) ->
  fold_res inner l acc = Ok (acc ++ (l ≫= F)).
Proof.
  revert acc. induction l as [|a l IH]; intros acc H.
  - simpl. rewrite app_nil_r. reflexivity.
  - rewrite bind_cons. cbn [fold_res]. rewrite H by constructor. cbn [rbind]. rewrite IH.
    + rewrite <- app_assoc. reflexivity.
    + intros a' acc' Ha'. apply H. constructor. assumption.
Qed.

Lemma length_bind_const {A B} (F : A -> list B) (l : list A) (m : nat) :
  (forall a, a ∈ l -> length (F a) = m) ->
  length (l ≫= F) = (length l * m)%nat.
Proof.
  induction l as [|a l IH]; intros H; [reflexivity|].
  rewrite bind_cons, length_app, H by constructor. rewrite IH; [simpl; lia|].
  intros a' Ha'. apply H. constructor. assumption.
Qed.

Lemma lookup_bind_const {A B} (F : A -> list B) (l : list A) (m i j : nat) a :
  (forall a, a ∈ l -> length (F a) = m) ->
  l !! i = Some a -> (j < m)%nat ->
  (l ≫= F) !! (i * m + j)%nat = F a !! j.
Proof.
  revert i. induction l as [|a0 l IH]; intros i H Hi Hj; [discriminate|].
  rewrite bind_cons. destruct i as [|i]; simpl in Hi; simpl Nat.mul; simpl Nat.add.
  - injection Hi as ->. rewrite lookup_app_l; [reflexivity|].
    rewrite H by constructor. assumption.
  - rewrite lookup_app_r; rewrite H by constructor; [|lia].
    replace (m + i * m + j - m)%nat with (i * m + j)%nat by lia.
    apply IH; [|assumption|assumption].
    intros a' Ha'. apply H. constructor. assumption.
Qed.

(** Between the first and the last value of a monotone integer sequence every
    integer falls in exactly one step. *)
Lemma step_of_point (f : Z -> Z) (k x : Z) :
  0 <= k -> f 0 <= x < f k ->
  exists c, 0 <= c < k /\ f c <= x < f (c + 1).
Proof.
  intros Hk. revert x. pattern k. apply natlike_ind; [| |assumption].
  - intros x Hx. lia.
  - intros k' Hk' IH x Hx.
    destruct (Z_lt_le_dec x (f k')) as [Hlt|Hge].
    + destruct (IH x ltac:(lia)) as (c & Hc & Hx'). exists c. split; [lia | assumption].
    + exists k'. split; [lia|]. replace (k' + 1) with (Z.succ k') by lia. lia.
Qed.

End LoopFacts.

(** ** Rasters and loops of the runs *)
Module PillowFacts.
Import Pillow Runtime Vocabulary.

(** What [Image.new] returns, and when. *)
Lemma Image_new_Ok cannot_allocate w h c img :
  Image_new cannot_allocate (w, h) c = Ok img ->
  0 <= w < 2 ^ 31 /\ 0 <= h < 2 ^ 31 /\ cannot_allocate (w, h) = None /\
  img = mkRaster w h (fun _ _ => clip_color c).
Proof.
  unfold Image_new.
  destruct (Z.ltb_spec w 0) as [|Hw0]; [discriminate|].
  destruct (Z.ltb_spec h 0) as [|Hh0]; [discriminate|]. cbn [orb].
  destruct (Z.leb_spec (2 ^ 31) w) as [|Hw1]; [discriminate|].
  destruct (Z.leb_spec (2 ^ 31) h) as [|Hh1]; [discriminate|]. cbn [orb].
  destruct (cannot_allocate (w, h)) as [e|]; [discriminate|].
  intros [= <-]. split; [lia|]. split; [lia|]. split; reflexivity.
Qed.

Lemma Image_new_returns cannot_allocate w h c :
  0 <= w < 2 ^ 31 -> 0 <= h < 2 ^ 31 -> cannot_allocate (w, h) = None ->
  Image_new cannot_allocate (w, h) c
  = Ok (mkRaster w h (fun _ _ => clip_color c)).
Proof.
  intros Hw Hh Hnone. unfold Image_new.
  destruct (Z.ltb_spec w 0) as [|_]; [lia|].
  destruct (Z.ltb_spec h 0) as [|_]; [lia|]. cbn [orb].
  destruct (Z.leb_spec (2 ^ 31) w) as [|_]; [lia|].
  destruct (Z.leb_spec (2 ^ 31) h) as [|_]; [lia|]. cbn [orb].
  rewrite Hnone. reflexivity.
Qed.

Lemma Image_new_raises cannot_allocate w h c e :
  Image_new cannot_allocate (w, h) c = Raise e ->
  ((w < 0 \/ h < 0) /\ e = ValueError) \/
  ((2 ^ 31 <= w \/ 2 ^ 31 <= h) /\ e = OverflowError) \/
  cannot_allocate (w, h) = Some e.
Proof.
  unfold Image_new.
  destruct (Z.ltb_spec w 0) as [|Hw0]; cbn [orb].
  { intros [= <-]. left. split; [lia | reflexivity]. }
  destruct (Z.ltb_spec h 0) as [|Hh0]; cbn [orb].
  { intros [= <-]. left. split; [lia | reflexivity]. }
  destruct (Z.leb_spec (2 ^ 31) w) as [|Hw1]; cbn [orb].
  { intros [= <-]. right. left. split; [lia | reflexivity]. }
  destruct (Z.leb_spec (2 ^ 31) h) as [|Hh1]; cbn [orb].
  { intros [= <-]. right. left. split; [lia | reflexivity]. }
  destruct (cannot_allocate (w, h)) as [e'|]; [|discriminate].
  intros [= <-]. right. right. reflexivity.
Qed.

Lemma can_allocate_returns E w h c :
  can_allocate E w h ->
  Image_new (new_error E) (w, h) c
  = Ok (mkRaster w h (fun _ _ => clip_color c)).
Proof. intros (Hw & Hh & Hnone). apply Image_new_returns; assumption. Qed.

Lemma bind_normal {A B} (m : io A) (k : A -> io B) w a w' :
  m w = (Normal a, w') -> (m ≫= k) w = k a w'.
Proof. intros H. unfold mbind, io_mbind, io_bind. rewrite H. reflexivity. Qed.

Lemma bind_throw {A B} (m : io A) (k : A -> io B) w e w' :
  m w = (Throw e, w') -> (m ≫= k) w = (Throw e, w').
Proof. intros H. unfold mbind, io_mbind, io_bind. rewrite H. reflexivity. Qed.

Lemma bind_exit {A B} (m : io A) (k : A -> io B) w c w' :
  m w = (SysExit c, w') -> (m ≫= k) w = (SysExit c, w').
Proof. intros H. unfold mbind, io_mbind, io_bind. rewrite H. reflexivity. Qed.

(** A loop whose body always returns keeps an invariant indexed by the
    number of turns done. *)
Lemma for_each_invariant {A St} (l : list A) (body : A -> St -> io St) :
  forall (I : nat -> St -> world -> Prop),
  (forall i a s w, l !! i = Some a -> I i s w ->
     exists s' w', body a s w = (Normal s', w') /\ I (S i) s' w') ->
  forall s w, I 0%nat s w ->
  exists s' w', for_each l body s w = (Normal s', w') /\ I (length l) s' w'.
Proof.
  induction l as [|a l IH]; intros I Hstep s w H0.
  - exists s, w. split; [reflexivity | assumption].
  - destruct (Hstep 0%nat a s w eq_refl H0) as (s1 & w1 & Hb & H1).
    destruct (IH (fun i => I (S i))
                (fun i a' s' w' Hl Hi => Hstep (S i) a' s' w' Hl Hi) s1 w1 H1)
      as (s' & w' & Hf & Hend).
    exists s', w'. split; [|assumption].
    cbn [for_each]. unfold io_bind. rewrite Hb. assumption.
Qed.

End PillowFacts.

(** ** The grid partitioner *)
Module GridSpec.
Import PyFloat PyFloatFacts Pillow Runtime GenerateTiles GridFacts LoopFacts.
Import Vocabulary.

Lemma pow2_1024_large : (4294967296 < pow2 1024)%Q.
Proof. change 4294967296%Q with (pow2 32). apply pow2_lt. lia. Qed.

Lemma int_truediv_step n k :
  0 <= n < 2 ^ 31 -> 1 <= k <= 2 ^ 1022 ->
  int_truediv n k = Ok (Fin (step n k)).
Proof.
  intros Hn Hk. unfold int_truediv.
  destruct (Z.eqb_spec k 0) as [->|_]; [lia|].
  pose proof (inject_Z_nonneg n ltac:(lia)) as HN.
  pose proof (inject_Z_ge1 k ltac:(lia)) as HK.
  assert (Hq : (0 <= inject_Z n / inject_Z k)%Q) by (apply Qle_shift_div_l; lra).
  rewrite fl_finite; [reflexivity | assumption |].
  destruct (RN_index_bound n) as (_ & _ & _ & Hlt); [lia|].
  apply Qle_lt_trans with (RN (inject_Z n)); [|assumption].
  apply RN_mono; [assumption|].
  apply Qle_shift_div_r; [lra|].
  assert ((1 * inject_Z n <= inject_Z k * inject_Z n)%Q)
    by (apply Qmult_le_compat_r; assumption).
  lra.
Qed.

(** The rounded grid line [i]: no conversion or product leaves the floats. *)
Lemma grid_line_eval n k i :
  0 <= n < 2 ^ 31 -> 1 <= k <= 2 ^ 1022 -> 0 <= i <= k ->
  (x ← int_mul_float i (Fin (step n k)); py_round x) = Ok (edge (step n k) i).
Proof.
  intros Hn Hk Hi. unfold int_mul_float.
  rewrite float_of_int_index by lia. cbn [mbind res_bind rbind fmul].
  assert (Hfin : fl (RN (inject_Z i) * step n k) =
                 Fin (RN (RN (inject_Z i) * step n k))).
  { pose proof pow2_1024_large.
    destruct (Z.eq_dec n 0) as [->|NE].
    - rewrite step_0 by lia.
      rewrite (RN_comp (_ * 0) 0) by ring.
      unfold fl. rewrite (RN_comp (_ * 0) 0) by ring. reflexivity.
    - destruct (axis_product_upper n k ltac:(lia) Hk i Hi) as [H0 Hup].
      destruct (axis_N n ltac:(lia)) as [_ HN].
      apply fl_finite; [assumption | lra]. }
  rewrite Hfin. reflexivity.
Qed.

Lemma edge_last n k :
  0 <= n < 2 ^ 31 -> 1 <= k <= 2 ^ 1022 -> edge (step n k) k = n.
Proof.
  intros Hn Hk. destruct (Z.eq_dec n 0) as [->|NE].
  - apply edge_step_0. lia.
  - apply axis_edge_last; lia.
Qed.

Lemma edge_range n k i :
  0 <= n < 2 ^ 31 -> 1 <= k <= 2 ^ 1022 -> 0 <= i <= k ->
  0 <= edge (step n k) i <= n.
Proof.
  intros Hn Hk Hi. destruct (Z.eq_dec n 0) as [->|NE].
  - rewrite edge_step_0; lia.
  - apply axis_edge_range; lia.
Qed.

Lemma edge_step_mono n k i j :
  0 <= n -> 1 <= k -> 0 <= i <= j ->
  edge (step n k) i <= edge (step n k) j.
Proof. intros. apply edge_mono; [apply step_nonneg|]; assumption. Qed.

Lemma cell_bounds_eval w h cols rows r c :
  0 <= w < 2 ^ 31 -> 0 <= h < 2 ^ 31 ->
  1 <= cols <= 2 ^ 1022 -> 1 <= rows <= 2 ^ 1022 ->
  0 <= r < rows -> 0 <= c < cols ->
  cell_bounds w h (Fin (step w cols)) (Fin (step h rows)) r c
  = Ok (cell_box w h cols rows r c).
Proof.
  intros Hw Hh Hcols Hrows Hr Hc. unfold cell_bounds.
  rewrite !grid_line_eval by lia. cbn [mbind res_bind rbind].
  pose proof (edge_range w cols (c + 1) Hw Hcols ltac:(lia)).
  pose proof (edge_range h rows (r + 1) Hh Hrows ltac:(lia)).
  rewrite !Z.min_l by lia. reflexivity.
Qed.

Lemma grid_cells_eval w h cols rows :
  0 <= w < 2 ^ 31 -> 0 <= h < 2 ^ 31 ->
  1 <= cols <= 2 ^ 1022 -> 1 <= rows <= 2 ^ 1022 ->
  grid_cells w h cols rows = Ok (grid_list w h cols rows).
Proof.
  intros Hw Hh Hcols Hrows. unfold grid_cells.
  rewrite !int_truediv_step by assumption. cbn [mbind res_bind rbind].
  rewrite (fold_res_blocks _
             (fun r => c ← range cols; [(r, c, cell_box w h cols rows r c)])).
  { reflexivity. }
  intros r acc Hr. apply elem_of_seqZ in Hr.
  apply (fold_res_blocks _ (fun c => [(r, c, cell_box w h cols rows r c)])).
  intros c acc' Hc. apply elem_of_seqZ in Hc.
  rewrite cell_bounds_eval by lia. reflexivity.
Qed.

Lemma elem_of_grid_list w h cols rows r c b :
  (r, c, b) ∈ grid_list w h cols rows <->
  0 <= r < rows /\ 0 <= c < cols /\ b = cell_box w h cols rows r c.
Proof.
  unfold grid_list. rewrite list_elem_of_bind. split.
  - intros (r' & Hin & Hr'). apply list_elem_of_bind in Hin as (c' & Hin & Hc').
    apply list_elem_of_singleton in Hin. injection Hin as -> -> ->.
    apply elem_of_seqZ in Hr', Hc'. split; [lia | split; [lia | reflexivity]].
  - intros (Hr & Hc & ->). exists r. split; [|apply elem_of_seqZ; lia].
    apply list_elem_of_bind. exists c. split; [|apply elem_of_seqZ; lia].
    apply list_elem_of_singleton. reflexivity.
Qed.

Lemma grid_list_lookup w h cols rows r c :
  0 <= r < rows -> 0 <= c < cols ->
  grid_list w h cols rows !! Z.to_nat (r * cols + c)
  = Some (r, c, cell_box w h cols rows r c).
Proof.
  intros Hr Hc. unfold grid_list.
  replace (Z.to_nat (r * cols + c))
    with (Z.to_nat r * Z.to_nat cols + Z.to_nat c)%nat by nia.
  rewrite (lookup_bind_const _ _ (Z.to_nat cols) _ _ r).
  - replace (Z.to_nat c) with (Z.to_nat c * 1 + 0)%nat by lia.
    rewrite (lookup_bind_const _ _ 1%nat (Z.to_nat c) 0%nat c).
    + reflexivity.
    + reflexivity.
    + unfold range. apply lookup_seqZ. lia.
    + lia.
  - intros r' _. rewrite (length_bind_const _ _ 1%nat) by reflexivity.
    unfold range. rewrite length_seqZ. lia.
  - unfold range. apply lookup_seqZ. lia.
  - lia.
Qed.

Lemma grid_list_length w h cols rows :
  0 <= cols -> 0 <= rows -> len (grid_list w h cols rows) = cols * rows.
Proof.
  intros Hc Hr. unfold len, grid_list.
  rewrite (length_bind_const _ _ (Z.to_nat cols)).
  - unfold range. rewrite length_seqZ. nia.
  - intros r' _. rewrite (length_bind_const _ _ 1%nat) by reflexivity.
    unfold range. rewrite length_seqZ. lia.
Qed.

(** C1.  For an image of [w] x [h] pixels (Pillow sizes are below 2^31) and a
    grid of [cols] x [rows] cells with counts that convert to floats, the
    partitioner raises nothing and yields exactly [cols * rows] candidate
    cells; the cell of row [r] and column [c] is the one at position
    [r * cols + c] (row-major order); every candidate has its four bounds
    within [0, w] x [0, h]; and every pixel of the image lies in exactly one
    candidate cell, which is not degenerate: the cells that are kept tile the
    image with no gap and no overlap. *)
Theorem grid_partition (w h cols rows : Z) :
  0 <= w < 2 ^ 31 -> 0 <= h < 2 ^ 31 ->
  1 <= cols <= 2 ^ 1022 -> 1 <= rows <= 2 ^ 1022 ->
  exists cells,
    grid_cells w h cols rows = Ok cells /\
    len cells = cols * rows /\
    (forall r c, 0 <= r < rows -> 0 <= c < cols ->
       exists b, cells !! Z.to_nat (r * cols + c) = Some (r, c, b)) /\
    (forall r c left_ upper right_ lower,
       (r, c, (left_, upper, right_, lower)) ∈ cells ->
       0 <= left_ <= w /\ 0 <= right_ <= w /\
       0 <= upper <= h /\ 0 <= lower <= h) /\
    (forall x y, 0 <= x < w -> 0 <= y < h ->
       exists r c b,
         (r, c, b) ∈ cells /\ degenerate b = false /\ inside b x y /\
         forall r' c' b',
           (r', c', b') ∈ cells -> inside b' x y -> r' = r /\ c' = c).
Proof.
  intros Hw Hh Hcols Hrows. exists (grid_list w h cols rows).
  split; [apply grid_cells_eval; assumption|].
  split; [apply grid_list_length; lia|].
  split.
  { intros r c Hr Hc. eexists. apply grid_list_lookup; assumption. }
  split.
  { intros r c l u rt lo Hin.
    apply elem_of_grid_list in Hin as (Hr & Hc & Hb). injection Hb as -> -> -> ->.
    pose proof (edge_range w cols c Hw Hcols ltac:(lia)).
    pose proof (edge_range w cols (c + 1) Hw Hcols ltac:(lia)).
    pose proof (edge_range h rows r Hh Hrows ltac:(lia)).
    pose proof (edge_range h rows (r + 1) Hh Hrows ltac:(lia)).
    lia. }
  intros x y Hx Hy.
  destruct (step_of_point (edge (step w cols)) cols x) as (c & Hc & Hxc).
  { lia. }
  { rewrite edge_0, edge_last by assumption. lia. }
  destruct (step_of_point (edge (step h rows)) rows y) as (r & Hr & Hyr).
  { lia. }
  { rewrite edge_0, edge_last by assumption. lia. }
  exists r, c, (cell_box w h cols rows r c).
  split; [apply elem_of_grid_list; auto|].
  split.
  { unfold degenerate, cell_box. apply orb_false_intro; apply Z.leb_gt; lia. }
  split; [unfold inside, cell_box; simpl; lia|].
  intros r' c' b' Hin Hins.
  apply elem_of_grid_list in Hin as (Hr' & Hc' & ->).
  unfold inside, cell_box in Hins. simpl in Hins. destruct Hins as [Hx' Hy'].
  split.
  - destruct (Z.lt_trichotomy r' r) as [Hlt|[Heq|Hgt]]; [|assumption|]; exfalso.
    + pose proof (edge_step_mono h rows (r' + 1) r ltac:(lia) ltac:(lia) ltac:(lia)). lia.
    + pose proof (edge_step_mono h rows (r + 1) r' ltac:(lia) ltac:(lia) ltac:(lia)). lia.
  - destruct (Z.lt_trichotomy c' c) as [Hlt|[Heq|Hgt]]; [|assumption|]; exfalso.
    + pose proof (edge_step_mono w cols (c' + 1) c ltac:(lia) ltac:(lia) ltac:(lia)). lia.
    + pose proof (edge_step_mono w cols (c + 1) c' ltac:(lia) ltac:(lia) ltac:(lia)). lia.
Qed.

Lemma grid_partition_witness :
  exists cells,
    grid_cells 100 100 3 3 = Ok cells /\
    len cells = 3 * 3 /\
    (forall r c, 0 <= r < 3 -> 0 <= c < 3 ->
       exists b, cells !! Z.to_nat (r * 3 + c) = Some (r, c, b)) /\
    (forall r c left_ upper right_ lower,
       (r, c, (left_, upper, right_, lower)) ∈ cells ->
       0 <= left_ <= 100 /\ 0 <= right_ <= 100 /\
       0 <= upper <= 100 /\ 0 <= lower <= 100) /\
    (forall x y, 0 <= x < 100 -> 0 <= y < 100 ->
       exists r c b,
         (r, c, b) ∈ cells /\ degenerate b = false /\ inside b x y /\
         forall r' c' b',
           (r', c', b') ∈ cells -> inside b' x y -> r' = r /\ c' = c).
Proof. apply (grid_partition 100 100 3 3); lia. Defined.

Lemma fold_res_ok_elem {A St} (f : St -> A -> res St) (l : list A) :
  forall s s' a, fold_res f l s = Ok s' -> a ∈ l ->
  exists s1 s2, f s1 a = Ok s2.
Proof.
  induction l as [|a0 l IH]; intros s s' a Hf Hin; [inversion Hin|].
  cbn [fold_res] in Hf. destruct (f s a0) as [s1|e] eqn:Hs; [|discriminate].
  cbn [rbind] in Hf. apply elem_of_cons in Hin as [->|Hin].
  - exists s, s1. assumption.
  - apply (IH s1 s' a Hf Hin).
Qed.

(** When the partitioner returns, every cell of the grid was computed. *)
Lemma grid_cells_ok_cell w h cols rows cells r c :
  grid_cells w h cols rows = Ok cells ->
  0 <= r < rows -> 0 <= c < cols ->
  exists cell_w cell_h b,
    int_truediv w cols = Ok cell_w /\ int_truediv h rows = Ok cell_h /\
    cell_bounds w h cell_w cell_h r c = Ok b.
Proof.
  intros Hg Hr Hc. unfold grid_cells in Hg.
  destruct (int_truediv w cols) as [cell_w|e]; [|discriminate].
  destruct (int_truediv h rows) as [cell_h|e]; [|discriminate].
  cbn [mbind res_bind rbind] in Hg.
  exists cell_w, cell_h.
  destruct (fold_res_ok_elem _ _ _ _ r Hg) as (s1 & s2 & Hrow).
  { apply elem_of_seqZ. lia. }
  cbn beta in Hrow.
  destruct (fold_res_ok_elem _ _ _ _ c Hrow) as (s3 & s4 & Hcell).
  { apply elem_of_seqZ. lia. }
  cbn beta in Hcell.
  destruct (cell_bounds w h cell_w cell_h r c) as [b|e]; [|discriminate].
  exists b. split; [reflexivity|]. split; reflexivity.
Qed.

(** C1 as stated fails for a grid count beyond the floats: with 2^1024
    columns the product [c * cell_w] of the last column raises
    [OverflowError] (the index does not convert to a float), so the
    partitioner yields no list of cells. *)
Lemma grid_raises_beyond_float_range :
  ~ (forall w h cols rows,
       0 <= w -> 0 <= h -> 1 <= cols -> 1 <= rows ->
       exists cells,
         grid_cells w h cols rows = Ok cells /\ len cells = cols * rows).
Proof.
  intros H.
  destruct (H 1 1 (2 ^ 1024) 1) as (cells & Hg & _); try lia.
  destruct (grid_cells_ok_cell 1 1 (2 ^ 1024) 1 cells 0 (2 ^ 1024 - 1) Hg)
    as (cell_w & cell_h & b & Hw & Hh & Hb); try lia.
  assert (Hraise :
    (cell_w ← int_truediv 1 (2 ^ 1024);
     cell_h ← int_truediv 1 1;
     cell_bounds 1 1 cell_w cell_h 0 (2 ^ 1024 - 1)) = Raise OverflowError).
  { vm_compute. reflexivity. }
  rewrite Hw, Hh in Hraise. cbn [mbind res_bind rbind] in Hraise.
  rewrite Hb in Hraise. discriminate.
Qed.

End GridSpec.

(** ** Degenerate cells *)
Module DegenerateSpec.
Import PyFloat PyFloatFacts Pillow Runtime GenerateTiles GridFacts LoopFacts GridSpec.
Import Vocabulary.

Section Coarse.
Local Open Scope Q_scope.
Variables n k : Z.
Hypothesis Hn : (1 <= n < 2 ^ 31)%Z.
Hypothesis Hk : (1 <= k)%Z.
Hypothesis Hcoarse : (2 * k <= n)%Z.

Let N := inject_Z n.
Let K := inject_Z k.
Let q := step n k.

Lemma coarse_k : (1 <= k <= 2 ^ 1022)%Z.
Proof. split; [assumption|]. apply Z.le_trans with (2 ^ 31)%Z; [lia|]. apply Z.pow_le_mono_r; lia. Qed.

Lemma coarse_step : 2 <= q /\ q <= (N / K) * (1 + u).
Proof.
  destruct (axis_N n Hn) as [HN1 HN2]. destruct (axis_K k coarse_k) as [HK1 _].
  fold N in HN1, HN2. fold K in HK1.
  destruct (axis_step n k Hn coarse_k) as (_ & _ & Hup). fold q N K in Hup.
  split; [|assumption].
  assert (H2 : RN 2 == 2) by (apply (RN_int 2); lia).
  apply Qle_trans with (RN 2); [rewrite H2; discriminate|].
  apply RN_mono; [discriminate|].
  assert (H : inject_Z (2 * k) <= N) by (unfold N; rewrite <- Zle_Qle; assumption).
  rewrite inject_Z_mult in H. fold K in H. change (inject_Z 2) with 2 in H.
  clear Hup. unfold N, K in *. apply Qle_shift_div_l; lra.
Qed.

(** The product for an exact index, and how far its rounding can move it. *)
Lemma coarse_product i :
  (0 <= i <= k)%Z ->
  inject_Z i * q - (1 # 1048576) <= RN (RN (inject_Z i) * q) /\
  RN (RN (inject_Z i) * q) <= inject_Z i * q + (1 # 1048576).
Proof.
  intros Hi. destruct coarse_step as [Hq2 Hqu].
  destruct (axis_N n Hn) as [HN1 HN2]. destruct (axis_K k coarse_k) as [HK1 _].
  fold N in HN1, HN2. fold K in HK1.
  assert (HI : RN (inject_Z i) == inject_Z i).
  { apply RN_int. split; [lia|]. apply Z.le_trans with (2 ^ 31)%Z; [lia|].
    apply Z.pow_le_mono_r; lia. }
  rewrite (RN_comp (RN (inject_Z i) * q) (inject_Z i * q)) by (rewrite HI; reflexivity).
  destruct (Z.eq_dec i 0) as [->|NE].
  { change (inject_Z 0) with 0. rewrite (RN_comp (0 * q) 0) by ring. rewrite RN_0. lra. }
  assert (HI1 : 1 <= inject_Z i) by (apply inject_Z_ge1; lia).
  assert (HIK : inject_Z i <= K) by (unfold K; rewrite <- Zle_Qle; lia).
  assert (HNK : N / K * K == N) by (field; lra).
  revert Hq2 Hqu HI1 HIK HNK. generalize (inject_Z i) as I. generalize (N / K) as x.
  generalize q as p. intros p x I Hq2 Hqu HI1 HIK HNK.
  assert (Hlow : 2 <= I * p).
  { apply Qle_trans with (1 * p); [lra|]. apply Qmult_le_compat_r; lra. }
  assert (Hx0 : 0 <= x).
  { unfold_u. destruct (Qlt_le_dec x 0); [|assumption]. exfalso. lra. }
  assert (Hup : I * p <= N * (1 + u)).
  { apply Qle_trans with (K * (x * (1 + u))).
    - apply Qle_trans with (K * p).
      + apply Qmult_le_compat_r; lra.
      + apply Qmult_le_l; [lra | assumption].
    - rewrite <- HNK. ring_simplify. lra. }
  destruct (RN_rel_error (I * p)) as [H1 H2]; [apply normal_of_ge; lra|].
  revert H1 H2 Hlow Hup. generalize (RN (I * p)) as y. generalize (I * p) as z.
  intros z y H1 H2 Hlow Hup. unfold_u. split; lra.
Qed.

(** Consecutive grid lines are distinct. *)
Lemma coarse_edge_strict i :
  (0 <= i < k)%Z -> (edge q i < edge q (i + 1))%Z.
Proof.
  intros Hi. unfold edge.
  destruct (coarse_product i ltac:(lia)) as [_ Hup].
  destruct (coarse_product (i + 1) ltac:(lia)) as [Hlo _].
  destruct coarse_step as [Hq2 _].
  assert (EJ : inject_Z (i + 1) == inject_Z i + 1).
  { rewrite inject_Z_plus. reflexivity. }
  destruct (round_half_even_near (RN (RN (inject_Z i) * q))) as [_ Ha].
  destruct (round_half_even_near (RN (RN (inject_Z (i + 1)) * q))) as [Hb _].
  rewrite Zlt_Qlt.
  revert Hup Hlo Ha Hb EJ.
  generalize (inject_Z (round_half_even (RN (RN (inject_Z i) * q)))) as ra.
  generalize (inject_Z (round_half_even (RN (RN (inject_Z (i + 1)) * q)))) as rb.
  generalize (RN (RN (inject_Z i) * q)) as a.
  generalize (RN (RN (inject_Z (i + 1)) * q)) as b.
  generalize (inject_Z (i + 1)) as J.
  generalize (inject_Z i) as I. revert Hq2. generalize q as p.
  intros p Hq2 I J b a rb ra Hup Hlo Ha Hb EJ.
  assert (I * p + 2 <= J * p) by (rewrite EJ; ring_simplify; lra).
  lra.
Qed.

End Coarse.

(** C4 (as amended).  When every cell spans at least two pixels each way
    ([2 * cols <= w] and [2 * rows <= h]) no candidate cell is degenerate. *)
Theorem no_degenerate_cell_in_coarse_grid (w h cols rows : Z) :
  0 <= w < 2 ^ 31 -> 0 <= h < 2 ^ 31 -> 1 <= cols -> 1 <= rows ->
  2 * cols <= w -> 2 * rows <= h ->
  exists cells,
    grid_cells w h cols rows = Ok cells /\
    forall r c b, (r, c, b) ∈ cells -> degenerate b = false.
Proof.
  intros Hw Hh Hcols Hrows Hcw Hrh.
  assert (Hc1 : 1 <= cols <= 2 ^ 1022) by (apply (coarse_k w); lia).
  assert (Hr1 : 1 <= rows <= 2 ^ 1022) by (apply (coarse_k h); lia).
  exists (grid_list w h cols rows). split; [apply grid_cells_eval; assumption|].
  intros r c b Hin. apply elem_of_grid_list in Hin as (Hr & Hc & ->).
  pose proof (coarse_edge_strict w cols ltac:(lia) Hcols Hcw c Hc).
  pose proof (coarse_edge_strict h rows ltac:(lia) Hrows Hrh r Hr).
  unfold degenerate, cell_box. apply orb_false_intro; apply Z.leb_gt; assumption.
Qed.

Lemma no_degenerate_cell_in_coarse_grid_witness :
  exists cells,
    grid_cells 100 100 8 5 = Ok cells /\
    forall r c b, (r, c, b) ∈ cells -> degenerate b = false.
Proof. apply (no_degenerate_cell_in_coarse_grid 100 100 8 5); lia. Defined.

(** C4 as stated fails: on a 3 x 3 image cut in 5 x 5 the cell of row 1 and
    column 1 is degenerate, and it is not on a trailing edge. *)
Lemma degenerate_cell_at_interior_position :
  ~ (forall w h cols rows cells r c b,
       1 <= cols -> 1 <= rows ->
       grid_cells w h cols rows = Ok cells ->
       (r, c, b) ∈ cells -> degenerate b = true ->
       c = cols - 1 \/ r = rows - 1).
Proof.
  intros H.
  assert (Hcells : exists cells, grid_cells 3 3 5 5 = Ok cells /\
                     (1, 1, (1, 1, 1, 1)) ∈ cells).
  { eexists. split; [vm_compute; reflexivity|].
    do 6 apply list_elem_of_further. apply list_elem_of_here. }
  destruct Hcells as (cells & Hg & Hin).
  destruct (H 3 3 5 5 cells 1 1 (1, 1, 1, 1) ltac:(lia) ltac:(lia) Hg Hin eq_refl); lia.
Qed.

End DegenerateSpec.

(** ** The contact sheet *)
Module PreviewSpec.
Import PillowFacts.
Import PyFloat PyFloatFacts Pillow Runtime GenerateTiles GridFacts LoopFacts.
Import Vocabulary.

Lemma Qceiling_unique (x : Q) (m : Z) :
  (inject_Z (m - 1) < x)%Q -> (x <= inject_Z m)%Q -> Qceiling x = m.
Proof.
  intros H1 H2.
  pose proof (Qle_ceiling x) as H3. pose proof (Qceiling_lt x) as H4.
  assert (Ha : (inject_Z (m - 1) < inject_Z (Qceiling x))%Q) by lra.
  assert (Hb : (inject_Z (Qceiling x - 1) < inject_Z m)%Q) by lra.
  rewrite <- Zlt_Qlt in Ha, Hb. lia.
Qed.

(** The float quotient has the ceiling of the exact one as long as the
    dividend has at most 53 bits. *)
Lemma ceil_of_float_quotient n k :
  0 <= n < 2 ^ 53 -> 1 <= k <= 2 ^ 1022 ->
  Qceiling (RN (inject_Z n / inject_Z k)) = ceil_quotient n k.
Proof.
  intros Hn Hk. unfold ceil_quotient.
  set (x := (inject_Z n / inject_Z k)%Q). set (m := Qceiling x).
  pose proof (Qle_ceiling x) as Hup. pose proof (Qceiling_lt x) as Hlo. fold m in Hup, Hlo.
  pose proof (inject_Z_nonneg n ltac:(lia)) as HN.
  pose proof (inject_Z_ge1 k ltac:(lia)) as HK.
  assert (Hx0 : (0 <= x)%Q) by (apply Qle_shift_div_l; lra).
  assert (Hxk : (x * inject_Z k == inject_Z n)%Q) by (unfold x; field; lra).
  assert (Hm0 : 0 <= m).
  { rewrite Zle_Qle. change (inject_Z 0) with 0%Q. lra. }
  assert (Hmn : m <= n).
  { apply Z.le_trans with (Qceiling (inject_Z n)); [|rewrite Qceiling_Z; lia].
    apply Qceiling_resp_le. apply Qle_shift_div_r; [lra|].
    assert ((inject_Z n * 1 <= inject_Z n * inject_Z k)%Q); [|lra].
    rewrite !(Qmult_comm (inject_Z n)). apply Qmult_le_compat_r; assumption. }
  apply Qceiling_unique.
  - (* m - 1 < RN x *)
    destruct (Z.eq_dec n 0) as [->|NE].
    { (* x = 0 *)
      assert (E : (x == 0)%Q) by (unfold x; change (inject_Z 0) with 0%Q; field; lra).
      assert (m = 0) by (unfold m; rewrite (Qceiling_comp x 0 E); reflexivity).
      rewrite (RN_comp x 0 E), RN_0. rewrite H. reflexivity. }
    assert (HN1 : (1 <= inject_Z n)%Q) by (apply inject_Z_ge1; lia).
    (* the gap between x and m - 1 is at least 1 / k *)
    assert (Hgap : (inject_Z (m - 1) * inject_Z k + 1 <= inject_Z n)%Q).
    { assert (Hz : (m - 1) * k < n).
      { rewrite Zlt_Qlt, inject_Z_mult. rewrite <- Hxk.
        apply Qmult_lt_compat_r; lra. }
      assert (Hz' : (m - 1) * k + 1 <= n) by lia.
      rewrite Zle_Qle, inject_Z_plus, inject_Z_mult in Hz'. exact Hz'. }
    assert (Hnorm : (pow2 (-1022) <= x)%Q).
    { apply Qle_shift_div_l; [lra|].
      apply Qle_trans with (pow2 (-1022) * pow2 1022)%Q.
      - apply Qmult_le_l; [apply pow2_pos|].
        rewrite (pow2_Z 1022) by lia. rewrite <- Zle_Qle. lia.
      - rewrite <- pow2_add. change (pow2 (-1022 + 1022)) with 1%Q. lra. }
    destruct (RN_rel_error x Hnorm) as [Hrel _].
    assert (HNu : (inject_Z n <= 9007199254740991)%Q).
    { change 9007199254740991%Q with (inject_Z 9007199254740991).
      rewrite <- Zle_Qle. lia. }
    (* compare after scaling by k *)
    apply Qlt_le_trans with (x * (1 - u))%Q; [|assumption].
    assert (Hs : (inject_Z (m - 1) * inject_Z k < x * (1 - u) * inject_Z k)%Q).
    { assert (E2 : Qeq (x * (1 - u) * inject_Z k) (inject_Z n * (1 - u)))
        by (rewrite <- Hxk; ring).
      rewrite E2. unfold_u. lra. }
    destruct (Qlt_le_dec (inject_Z (m - 1)) (x * (1 - u))) as [|Hc]; [assumption|].
    exfalso. apply (Qmult_le_compat_r _ _ (inject_Z k)) in Hc; lra.
  - (* RN x <= m *)
    assert (E : (RN (inject_Z m) == inject_Z m)%Q) by (apply RN_int; lia).
    rewrite <- E. apply RN_mono; assumption.
Qed.

Lemma int_truediv_finite n k :
  0 <= n <= 2 ^ 1022 -> 1 <= k ->
  int_truediv n k = Ok (Fin (RN (inject_Z n / inject_Z k))).
Proof.
  intros Hn Hk. unfold int_truediv.
  destruct (Z.eqb_spec k 0) as [->|_]; [lia|].
  pose proof (inject_Z_nonneg n ltac:(lia)) as HN.
  pose proof (inject_Z_ge1 k ltac:(lia)) as HK.
  assert (Hq : (0 <= inject_Z n / inject_Z k)%Q) by (apply Qle_shift_div_l; lra).
  rewrite fl_finite; [reflexivity | assumption |].
  destruct (RN_index_bound n) as (_ & _ & _ & Hlt); [lia|].
  apply Qle_lt_trans with (RN (inject_Z n)); [|assumption].
  apply RN_mono; [assumption|].
  apply Qle_shift_div_r; [lra|].
  assert ((1 * inject_Z n <= inject_Z k * inject_Z n)%Q)
    by (apply Qmult_le_compat_r; assumption).
  lra.
Qed.

Lemma preview_size_eval n cols tile_size padding :
  0 <= n < 2 ^ 53 -> 1 <= cols <= 2 ^ 1022 ->
  preview_size n cols tile_size padding
  = Ok (sheet_size n cols tile_size padding).
Proof.
  intros Hn Hcols. unfold preview_size.
  rewrite int_truediv_finite; [|split; [lia|]|lia].
  - cbn [mbind res_bind rbind py_ceil].
    rewrite ceil_of_float_quotient by assumption. reflexivity.
  - apply Z.le_trans with (2 ^ 53); [lia|]. apply Z.pow_le_mono_r; lia.
Qed.

Lemma div_mod_succ cols i :
  1 <= cols -> 0 <= i ->
  ((i + 1) `mod` cols = 0 /\ (i + 1) `div` cols = i `div` cols + 1) \/
  ((i + 1) `mod` cols <> 0 /\ (i + 1) `mod` cols = i `mod` cols + 1 /\
   (i + 1) `div` cols = i `div` cols).
Proof.
  intros Hcols Hi.
  pose proof (Z.div_mod i cols ltac:(lia)) as E0.
  pose proof (Z.mod_pos_bound i cols ltac:(lia)) as B0.
  pose proof (Z.div_mod (i + 1) cols ltac:(lia)) as E1.
  pose proof (Z.mod_pos_bound (i + 1) cols ltac:(lia)) as B1.
  revert E0 B0 E1 B1.
  generalize (i `div` cols) as q0, (i `mod` cols) as r0.
  generalize ((i + 1) `div` cols) as q1, ((i + 1) `mod` cols) as r1.
  intros q1 r1 q0 r0 E0 B0 E1 B1.
  assert (Hq : q1 = q0 \/ q1 = q0 + 1).
  { destruct (Z_lt_le_dec q1 q0); [exfalso; nia|].
    destruct (Z_lt_le_dec (q0 + 1) q1); [exfalso; nia|]. lia. }
  destruct Hq as [-> | ->].
  - right. split; [|split]; lia.
  - left. split; [|reflexivity]. nia.
Qed.

Lemma tile_position_next cols tile_size padding i :
  1 <= cols -> 0 <= i ->
  tile_position cols tile_size padding (i + 1)
  = if (i + 1) `mod` cols =? 0
    then (padding,
          (tile_position cols tile_size padding i).2 + (tile_size + padding))
    else ((tile_position cols tile_size padding i).1 + (tile_size + padding),
          (tile_position cols tile_size padding i).2).
Proof.
  intros Hcols Hi. unfold tile_position. cbn [fst snd].
  destruct (div_mod_succ cols i Hcols Hi) as [[Hm Hd] | (Hm0 & Hm & Hd)].
  - rewrite Hm, Hd. cbn [Z.eqb]. f_equal; lia.
  - destruct (Z.eqb_spec ((i + 1) `mod` cols) 0) as [E|_]; [contradiction|].
    rewrite Hm, Hd. f_equal; lia.
Qed.

Lemma place_tile_eval cols tile_size padding preview i t :
  1 <= cols -> 0 <= i ->
  place_tile cols tile_size padding
    (preview, (tile_position cols tile_size padding i).1,
     (tile_position cols tile_size padding i).2) (i, t)
  = Ok (paste preview t (tile_position cols tile_size padding i),
        (tile_position cols tile_size padding (i + 1)).1,
        (tile_position cols tile_size padding (i + 1)).2).
Proof.
  intros Hcols Hi. unfold place_tile, py_mod.
  destruct (Z.eqb_spec cols 0) as [->|_]; [lia|].
  cbn [mbind res_bind rbind].
  rewrite tile_position_next by assumption.
  destruct (tile_position cols tile_size padding i) as [x y]. cbn [fst snd].
  destruct ((i + 1) `mod` cols =? 0); reflexivity.
Qed.

Lemma placement_from cols tile_size padding (tiles : list raster) :
  1 <= cols ->
  forall i preview, 0 <= i ->
  fold_res (place_tile cols tile_size padding) (zip (seqZ i (len tiles)) tiles)
    (preview, (tile_position cols tile_size padding i).1,
     (tile_position cols tile_size padding i).2)
  = Ok (paste_tiles cols tile_size padding preview
          (zip (seqZ i (len tiles)) tiles),
        (tile_position cols tile_size padding (i + len tiles)).1,
        (tile_position cols tile_size padding (i + len tiles)).2).
Proof.
  intros Hcols. induction tiles as [|t tiles IH]; intros i preview Hi.
  - unfold len. cbn [length Z.of_nat]. rewrite Z.add_0_r. reflexivity.
  - assert (Hlen : len (t :: tiles) = Z.succ (len tiles))
      by (unfold len; cbn [length]; lia).
    rewrite Hlen, seqZ_cons by (unfold len; lia). rewrite Z.pred_succ.
    cbn [zip zip_with fold_res]. rewrite place_tile_eval by assumption.
    cbn [rbind]. replace (Z.succ i) with (i + 1) by lia.
    rewrite IH by lia. unfold paste_tiles. cbn [foldl fst snd].
    replace (i + 1 + len tiles) with (i + Z.succ (len tiles)) by lia.
    reflexivity.
Qed.

Lemma paste_tiles_size cols tile_size padding preview indexed :
  width (paste_tiles cols tile_size padding preview indexed) = width preview /\
  height (paste_tiles cols tile_size padding preview indexed) = height preview.
Proof.
  revert preview. induction indexed as [|it l IH]; intros preview.
  - split; reflexivity.
  - unfold paste_tiles in *. cbn [foldl]. destruct (IH (paste preview it.2
      (tile_position cols tile_size padding it.1))) as [-> ->].
    unfold paste. destruct (tile_position _ _ _ _). split; reflexivity.
Qed.

(** [build_preview] in closed form: the size, the blank sheet, then every
    tile at the position of its index. *)
Lemma build_preview_closed_form E tiles cols tile_size padding bg :
  1 <= cols ->
  build_preview E tiles cols tile_size padding bg
  = (size ← preview_size (len tiles) cols tile_size padding;
     preview ← Image_new (new_error E) size bg;
     Ok (paste_tiles cols tile_size padding preview (enumerate tiles))).
Proof.
  intros Hcols. unfold build_preview.
  destruct (preview_size _ _ _ _) as [size|e]; [|reflexivity].
  cbn [mbind res_bind rbind].
  destruct (Image_new (new_error E) size bg) as [preview|e]; [|reflexivity].
  cbn [mbind res_bind rbind]. unfold enumerate.
  pose proof (placement_from cols tile_size padding tiles Hcols 0 preview ltac:(lia)) as H.
  unfold tile_position at 1 2 in H. rewrite Z.mod_0_l, Z.div_0_l in H by lia.
  cbn [fst snd] in H. rewrite !Z.mul_0_l, !Z.add_0_r in H.
  rewrite H. reflexivity.
Qed.

Lemma enumerate_lookup {A} (l : list A) (i : nat) (a : A) :
  l !! i = Some a -> enumerate l !! i = Some (Z.of_nat i, a).
Proof.
  intros Hl. unfold enumerate. apply lookup_zip_with_Some.
  exists (Z.of_nat i), a. split; [reflexivity|]. split; [|assumption].
  apply lookup_seqZ. split; [lia|].
  apply lookup_lt_Some in Hl. unfold len. lia.
Qed.

Lemma pow2_1022_large : 2 ^ 53 <= 2 ^ 1022 /\ 2 ^ 31 <= 2 ^ 1022.
Proof. split; apply Z.pow_le_mono_r; lia. Qed.

(** The row count that [build_preview] computes is the exact
    [ceil (n / cols)], but for a count of columns so large that the float
    quotient of a positive [n] underflows to 0. *)
Lemma float_rows n cols :
  0 <= n < 2 ^ 53 -> 1 <= cols ->
  Qceiling (RN (inject_Z n / inject_Z cols)) = ceil_quotient n cols \/
  (2 ^ 1022 < cols /\
   Qceiling (RN (inject_Z n / inject_Z cols)) = 0 /\
   ceil_quotient n cols = 1).
Proof.
  intros Hn Hcols. destruct pow2_1022_large as [H53 _].
  destruct (Z_le_gt_dec cols (2 ^ 1022)) as [Hle|Hgt].
  { left. apply ceil_of_float_quotient; lia. }
  pose proof (inject_Z_nonneg n ltac:(lia)) as HN.
  pose proof (inject_Z_ge1 cols Hcols) as HK.
  assert (HNK : (inject_Z n <= inject_Z cols)%Q) by (rewrite <- Zle_Qle; lia).
  set (x := (inject_Z n / inject_Z cols)%Q).
  assert (Hx0 : (0 <= x)%Q) by (apply Qle_shift_div_l; lra).
  assert (Hx1 : (x <= 1)%Q) by (apply Qle_shift_div_r; lra).
  assert (Hr0 : (0 <= RN x)%Q) by (apply RN_nonneg; assumption).
  assert (Hr1 : (RN x <= 1)%Q).
  { rewrite <- (RN_int 1) by lia. change (inject_Z 1) with 1%Q.
    apply RN_mono; assumption. }
  assert (Hc0 : 0 <= Qceiling (RN x)).
  { change 0 with (Qceiling 0). apply Qceiling_resp_le. assumption. }
  assert (Hc1 : Qceiling (RN x) <= 1).
  { change 1 with (Qceiling 1). apply Qceiling_resp_le. assumption. }
  destruct (Z.eq_dec n 0) as [->|NE].
  { left. unfold ceil_quotient. fold x.
    assert (E : (x == 0)%Q) by (unfold x; change (inject_Z 0) with 0%Q; field; lra).
    rewrite (RN_comp x 0 E), RN_0, (Qceiling_comp x 0 E). reflexivity. }
  assert (Hexact : ceil_quotient n cols = 1).
  { unfold ceil_quotient. fold x. apply Qceiling_unique.
    - change (inject_Z (1 - 1)) with 0%Q.
      assert (HN1 : (1 <= inject_Z n)%Q) by (apply inject_Z_ge1; lia).
      apply Qlt_shift_div_l; lra.
    - change (inject_Z 1) with 1%Q. assumption. }
  destruct (Z.eq_dec (Qceiling (RN x)) 1) as [E1|N1].
  - left. rewrite Hexact. assumption.
  - right. split; [lia|]. split; [lia | assumption].
Qed.

(** The size that [build_preview] asks of [Image.new]. *)
Lemma preview_size_float n cols tile_size padding :
  0 <= n < 2 ^ 53 -> 1 <= cols ->
  preview_size n cols tile_size padding
  = Ok (cols * tile_size + (cols + 1) * padding,
        Qceiling (RN (inject_Z n / inject_Z cols)) * tile_size
        + (Qceiling (RN (inject_Z n / inject_Z cols)) + 1) * padding).
Proof.
  intros Hn Hcols. unfold preview_size. destruct pow2_1022_large as [H53 _].
  rewrite int_truediv_finite by lia. reflexivity.
Qed.

(** A sheet of a size that [Image.new] accepts has the height of the exact
    row count. *)
Lemma sheet_height_exact n cols tile_size padding :
  0 <= n < 2 ^ 53 -> 1 <= cols ->
  let rf := Qceiling (RN (inject_Z n / inject_Z cols)) in
  let r := ceil_quotient n cols in
  -2 ^ 31 < cols * tile_size + (cols + 1) * padding < 2 ^ 31 ->
  -2 ^ 31 < rf * tile_size + (rf + 1) * padding < 2 ^ 31 \/
  -2 ^ 31 < r * tile_size + (r + 1) * padding < 2 ^ 31 ->
  rf * tile_size + (rf + 1) * padding = r * tile_size + (r + 1) * padding.
Proof.
  intros Hn Hcols rf r Hw Hh. destruct pow2_1022_large as [_ H31].
  destruct (float_rows n cols Hn Hcols) as [E|(Hbig & E0 & E1)].
  { unfold rf, r. rewrite E. reflexivity. }
  unfold rf, r in *. rewrite E0, E1 in *.
  assert (Hk : tile_size + padding = 0).
  { destruct (Z.eq_dec (tile_size + padding) 0) as [|NE]; [assumption|].
    exfalso. destruct Hh as [Hh|Hh]; nia. }
  nia.
Qed.

(** The sheet that [build_preview] returns has the size of the claim. *)
Lemma build_preview_size E tiles cols tile_size padding bg preview :
  len tiles < 2 ^ 53 -> 1 <= cols ->
  build_preview E tiles cols tile_size padding bg = Ok preview ->
  width preview = cols * tile_size + (cols + 1) * padding /\
  height preview
  = ceil_quotient (len tiles) cols * tile_size
    + (ceil_quotient (len tiles) cols + 1) * padding.
Proof.
  intros Hn Hcols Hb.
  assert (Hn0 : 0 <= len tiles < 2 ^ 53) by (unfold len in *; lia).
  rewrite build_preview_closed_form in Hb by lia.
  rewrite preview_size_float in Hb by assumption.
  cbn [mbind res_bind rbind] in Hb.
  destruct (Image_new _ _ _) as [blank|e] eqn:Enew; [|discriminate].
  cbn [rbind] in Hb. injection Hb as <-.
  apply Image_new_Ok in Enew as (Hw & Hh & _ & ->).
  destruct (paste_tiles_size cols tile_size padding
              (mkRaster (cols * tile_size + (cols + 1) * padding)
                 (Qceiling (RN (inject_Z (len tiles) / inject_Z cols)) * tile_size
                  + (Qceiling (RN (inject_Z (len tiles) / inject_Z cols)) + 1)
                    * padding)
                 (fun _ _ => clip_color bg)) (enumerate tiles)) as [-> ->].
  cbn [width height]. split; [reflexivity|].
  apply sheet_height_exact; try assumption; [lia | left; lia].
Qed.

(** When the sheet is built. *)
Lemma build_preview_returns E tiles cols tile_size padding bg :
  len tiles < 2 ^ 53 -> 1 <= cols ->
  let rows := ceil_quotient (len tiles) cols in
  let w := cols * tile_size + (cols + 1) * padding in
  let h := rows * tile_size + (rows + 1) * padding in
  0 <= w < 2 ^ 31 -> 0 <= h < 2 ^ 31 -> new_error E (w, h) = None ->
  exists preview,
    build_preview E tiles cols tile_size padding bg = Ok preview.
Proof.
  intros Hn Hcols rows w h Hw Hh Hnone.
  assert (Hn0 : 0 <= len tiles < 2 ^ 53) by (unfold len in *; lia).
  rewrite build_preview_closed_form by lia.
  rewrite preview_size_float by assumption.
  cbn [mbind res_bind rbind].
  rewrite (sheet_height_exact (len tiles) cols tile_size padding Hn0 Hcols)
    by (fold w; fold rows; fold h; try right; lia).
  fold rows. fold w. fold h.
  rewrite Image_new_returns by assumption. cbn [rbind]. eexists. reflexivity.
Qed.

(** C2.  For a list of tiles (fewer than 2^53: a list that a machine can
    hold) and every column count [cols >= 1], tile size and padding, the
    sheet that [build_preview] returns is exactly
    [cols * tile_size + (cols + 1) * padding] wide and
    [rows * tile_size + (rows + 1) * padding] high with
    [rows = ceil (n / cols)]; and it returns one whenever [Image.new]
    accepts this size: the two numbers are from 0 to 2^31 - 1 and the
    raster can be allocated. *)
Theorem preview_dimensions (E : env) (tiles : list raster)
    (cols tile_size padding : Z) (bg : color) :
  len tiles < 2 ^ 53 -> 1 <= cols ->
  let rows := ceil_quotient (len tiles) cols in
  let w := cols * tile_size + (cols + 1) * padding in
  let h := rows * tile_size + (rows + 1) * padding in
  (forall preview,
     build_preview E tiles cols tile_size padding bg = Ok preview ->
     width preview = w /\ height preview = h) /\
  (0 <= w < 2 ^ 31 -> 0 <= h < 2 ^ 31 -> new_error E (w, h) = None ->
   exists preview,
     build_preview E tiles cols tile_size padding bg = Ok preview).
Proof.
  intros Hn Hcols rows w h. split.
  - intros preview Hb.
    apply (build_preview_size E tiles cols tile_size padding bg); assumption.
  - intros Hw Hh Hnone.
    apply (build_preview_returns E tiles cols tile_size padding bg);
      assumption.
Qed.

Lemma preview_dimensions_witness :
  let tile := mkRaster 50 50 (fun _ _ => black) in
  let tiles := [tile; tile; tile; tile] in
  (forall preview,
     build_preview sample_env tiles 8 50 2 (30, 30, 30) = Ok preview ->
     width preview = 8 * 50 + (8 + 1) * 2 /\
     height preview =
       ceil_quotient (len tiles) 8 * 50 + (ceil_quotient (len tiles) 8 + 1) * 2) /\
  (0 <= 8 * 50 + (8 + 1) * 2 < 2 ^ 31 ->
   0 <= ceil_quotient (len tiles) 8 * 50
        + (ceil_quotient (len tiles) 8 + 1) * 2 < 2 ^ 31 ->
   new_error sample_env
     (8 * 50 + (8 + 1) * 2,
      ceil_quotient (len tiles) 8 * 50
      + (ceil_quotient (len tiles) 8 + 1) * 2) = None ->
   exists preview,
     build_preview sample_env tiles 8 50 2 (30, 30, 30) = Ok preview).
Proof.
  intros tile tiles.
  apply (preview_dimensions sample_env tiles 8 50 2 (30, 30, 30));
    [reflexivity | lia].
Defined.

Lemma squares_apart cols tile_size padding i j x y :
  1 <= cols -> 0 < padding -> 0 <= i -> 0 <= j -> i <> j ->
  ~ (in_square (tile_position cols tile_size padding i) tile_size x y /\
     in_square (tile_position cols tile_size padding j) tile_size x y).
Proof.
  intros Hcols Hpad Hi Hj Hij [[Hx1 Hy1] [Hx2 Hy2]].
  unfold tile_position in *. cbn [fst snd] in *.
  pose proof (Z.div_mod i cols ltac:(lia)) as Ei.
  pose proof (Z.div_mod j cols ltac:(lia)) as Ej.
  revert Hx1 Hy1 Hx2 Hy2 Ei Ej.
  generalize (i `div` cols) as qi, (i `mod` cols) as ri.
  generalize (j `div` cols) as qj, (j `mod` cols) as rj.
  intros qj rj qi ri Hx1 Hy1 Hx2 Hy2 Ei Ej.
  assert (Hts : 0 < tile_size) by lia.
  destruct (Z.lt_trichotomy qi qj) as [Hq|[Hq|Hq]]; [nia| |nia].
  destruct (Z.lt_trichotomy ri rj) as [Hr|[Hr|Hr]]; [nia| |nia].
  subst. lia.
Qed.

(** C3.  For [cols >= 1] and [padding > 0] the placement loop of
    [build_preview] pastes the tile of 0-based index [i] at
    [x = padding + (i mod cols) * (tile_size + padding)],
    [y = padding + (i div cols) * (tile_size + padding)]: the function is
    the size computation, the blank sheet, and these pastes in the order of
    the list; and the squares of side [tile_size] at the positions of two
    distinct indices share no pixel. *)
Theorem tiles_pasted_at_index_positions (E : env) (tiles : list raster)
    (cols tile_size padding : Z) (bg : color) :
  1 <= cols -> 0 < padding ->
  build_preview E tiles cols tile_size padding bg
  = (size ← preview_size (len tiles) cols tile_size padding;
     preview ← Image_new (new_error E) size bg;
     Ok (foldl (fun p it =>
                  paste p it.2
                    (padding + (it.1 `mod` cols) * (tile_size + padding),
                     padding + (it.1 `div` cols) * (tile_size + padding)))
           preview (enumerate tiles))) /\
  (forall (i : nat) t, tiles !! i = Some t ->
     enumerate tiles !! i = Some (Z.of_nat i, t)) /\
  (forall i j x y, 0 <= i -> 0 <= j -> i <> j ->
     ~ (in_square (tile_position cols tile_size padding i) tile_size x y /\
        in_square (tile_position cols tile_size padding j) tile_size x y)).
Proof.
  intros Hcols Hpad. split; [|split].
  - apply build_preview_closed_form. assumption.
  - intros i t. apply enumerate_lookup.
  - intros i j x y. apply squares_apart; assumption.
Qed.

Lemma tiles_pasted_at_index_positions_witness :
  let tile := mkRaster 4 4 (fun _ _ => black) in
  let tiles := [tile; tile; tile] in
  build_preview sample_env tiles 2 4 2 (30, 30, 30)
  = (size ← preview_size (len tiles) 2 4 2;
     preview ← Image_new (new_error sample_env) size (30, 30, 30);
     Ok (foldl (fun p it =>
                  paste p it.2
                    (2 + (it.1 `mod` 2) * (4 + 2),
                     2 + (it.1 `div` 2) * (4 + 2)))
           preview (enumerate tiles))) /\
  (forall (i : nat) t, tiles !! i = Some t ->
     enumerate tiles !! i = Some (Z.of_nat i, t)) /\
  (forall i j x y, 0 <= i -> 0 <= j -> i <> j ->
     ~ (in_square (tile_position 2 4 2 i) 4 x y /\
        in_square (tile_position 2 4 2 j) 4 x y)).
Proof.
  intros tile tiles.
  apply (tiles_pasted_at_index_positions sample_env tiles 2 4 2 (30, 30, 30));
    lia.
Defined.

End PreviewSpec.

(** ** The run of the tile tool *)
Module TileToolSpec.
Import PyFloat Pillow Runtime GenerateTiles.
Import Vocabulary.
Export PillowFacts.

(** What [load_source] does when the source cannot be used. *)
Lemma load_source_unreadable E a w :
  isfile E (args.source a) = false \/
  (exists e, open_rgb E (args.source a) = Raise e) ->
  exists msg,
    load_source E a w
    = (SysExit 1, mkWorld (files w) (dirs w) (stdout w ++ [msg]) (draws w)).
Proof.
  intros H. unfold load_source.
  destruct (isfile E (args.source a)) eqn:Ef; cbn [negb].
  - destruct H as [H | [e He]]; [discriminate|].
    exists (FailedToOpen e).
    unfold mbind, io_mbind, io_bind, mret, io_mret, io_ret, try_except, lift.
    rewrite He. reflexivity.
  - exists (SourceNotFound (args.source a)). reflexivity.
Qed.

(** C6.  When the source path is not a file, or opening and decoding it
    raises, the process prints one message and exits with code 1, and the
    file system is as it was: no directory and no file has been created. *)
Theorem unreadable_source_exits_before_output (E : env) (a : args.t)
    (w : world) :
  isfile E (args.source a) = false \/
  (exists e, open_rgb E (args.source a) = Raise e) ->
  exists msg,
    run (main E a) w
    = (Exited 1, mkWorld (files w) (dirs w) (stdout w ++ [msg]) (draws w)).
Proof.
  intros H. destruct (load_source_unreadable E a w H) as [msg Hl].
  exists msg. unfold run, main. rewrite (bind_exit _ _ _ _ _ Hl). reflexivity.
Qed.

(** The two tile names and the preview name never collide. *)
Lemma tile_path_not_preview out_dir r c :
  path_join out_dir (tile_name r c) <> path_join out_dir "preview.png".
Proof.
  unfold path_join, tile_name.
  change (String.prefix "/" ("tile_r" +:+ str r +:+ "_c" +:+ str c +:+ ".png"))
    with false.
  change (String.prefix "/" "preview.png") with false. cbv iota.
  destruct (bool_decide (out_dir = "") || ends_with_sep out_dir).
  - intros H. apply String.app_inj in H. discriminate H.
  - intros H. apply String.app_inj in H. discriminate H.
Qed.

Lemma save_preview_raises E a out_dir tiles e w :
  preview_raises E a out_dir tiles e ->
  exists fs,
    save_preview E a out_dir tiles w
    = (Normal (), mkWorld fs (dirs w)
                    (stdout w ++ [FailedToBuildPreview e]) (draws w)) /\
    forall p, p <> path_join out_dir "preview.png" -> fs !! p = files w !! p.
Proof.
  intros [Hb | (preview & leftover & Hb & Hs)]; unfold save_preview.
  - exists (files w). split; [|reflexivity].
    unfold try_except, mbind, io_mbind, io_bind, lift. rewrite Hb. reflexivity.
  - exists (partial_alter leftover (path_join out_dir "preview.png") (files w)).
    split.
    + unfold try_except, mbind, io_mbind, io_bind, lift, save. rewrite Hb, Hs.
      reflexivity.
    + intros p Hp. apply lookup_partial_alter_ne. congruence.
Qed.

(** C7.  In a run that reaches the preview step, when building or saving the
    preview raises [e], the error is caught and logged, the process ends
    with exit code 0, and every path other than that of the preview holds
    what it held when the tiles had been written; the tile files among
    them. *)
Theorem preview_failure_keeps_tiles (E : env) (a : args.t) (w w1 w2 : world)
    (img : raster) (out_dir : string) (tiles : list raster) (e : exn) :
  load_source E a w = (Normal img, w1) ->
  save_tiles E a img w1 = (Normal (out_dir, tiles), w2) ->
  preview_raises E a out_dir tiles e ->
  exists w3,
    run (main E a) w = (Exited 0, w3) /\
    stdout w3 = stdout w2 ++ [FailedToBuildPreview e; MsgDone] /\
    dirs w3 = dirs w2 /\
    (forall p, p <> path_join out_dir "preview.png" ->
       files w3 !! p = files w2 !! p) /\
    (forall r c,
       files w3 !! path_join out_dir (tile_name r c)
       = files w2 !! path_join out_dir (tile_name r c)).
Proof.
  intros Hl Ht Hp.
  destruct (save_preview_raises E a out_dir tiles e w2 Hp) as (fs & Hs & Hfs).
  eexists. unfold run, main.
  rewrite (bind_normal _ _ _ _ _ Hl), (bind_normal _ _ _ _ _ Ht).
  rewrite (bind_normal _ _ _ _ _ Hs). cbn [print].
  split; [reflexivity|]. cbn [stdout dirs files].
  split; [rewrite <- app_assoc; reflexivity|].
  split; [reflexivity|].
  split; [assumption|].
  intros r c. apply Hfs, tile_path_not_preview.
Qed.

(** C9.  [args.preview_cols] reaches [build_preview] as it is; in a run that
    reaches the preview step with [preview_cols = 0] the division raises
    [ZeroDivisionError], which is caught and logged: the process ends with
    exit code 0 and the file system is the one the tile loop left. *)
Theorem zero_preview_cols_is_caught (E : env) (a : args.t) (w w1 w2 : world)
    (img : raster) (out_dir : string) (tiles : list raster) :
  args.preview_cols a = 0 ->
  load_source E a w = (Normal img, w1) ->
  save_tiles E a img w1 = (Normal (out_dir, tiles), w2) ->
  build_preview E tiles (args.preview_cols a) (args.tile_size a)
    default_padding default_bg = Raise ZeroDivisionError /\
  run (main E a) w
  = (Exited 0,
     mkWorld (files w2) (dirs w2)
       (stdout w2 ++ [FailedToBuildPreview ZeroDivisionError; MsgDone])
       (draws w2)).
Proof.
  intros H0 Hl Ht.
  assert (Hb : build_preview E tiles (args.preview_cols a) (args.tile_size a)
                 default_padding default_bg = Raise ZeroDivisionError).
  { rewrite H0. reflexivity. }
  split; [assumption|].
  unfold run, main.
  rewrite (bind_normal _ _ _ _ _ Hl), (bind_normal _ _ _ _ _ Ht).
  assert (Hs : save_preview E a out_dir tiles w2
               = (Normal (), mkWorld (files w2) (dirs w2)
                    (stdout w2 ++ [FailedToBuildPreview ZeroDivisionError])
                    (draws w2))).
  { unfold save_preview, try_except, mbind, io_mbind, io_bind, lift.
    rewrite Hb. reflexivity. }
  rewrite (bind_normal _ _ _ _ _ Hs). cbn [print stdout dirs files draws].
  rewrite <- app_assoc. reflexivity.
Qed.

(** *** A sample run *)

Lemma unreadable_source_exits_before_output_witness :
  exists msg,
    run (main sample_env (sample_args "missing.png" 8)) empty_world
    = (Exited 1,
       mkWorld (files empty_world) (dirs empty_world)
         (stdout empty_world ++ [msg]) (draws empty_world)).
Proof.
  apply (unreadable_source_exits_before_output sample_env
           (sample_args "missing.png" 8) empty_world).
  left. vm_compute. reflexivity.
Defined.

Lemma preview_failure_keeps_tiles_witness :
  exists w3,
    run (main sample_env (sample_args "a.png" (-1))) empty_world
    = (Exited 0, w3) /\
    stdout w3
    = stdout sample_tiles_world ++ [FailedToBuildPreview ValueError; MsgDone] /\
    dirs w3 = dirs sample_tiles_world /\
    (forall p, p <> path_join sample_out_dir "preview.png" ->
       files w3 !! p = files sample_tiles_world !! p) /\
    (forall r c,
       files w3 !! path_join sample_out_dir (tile_name r c)
       = files sample_tiles_world !! path_join sample_out_dir (tile_name r c)).
Proof.
  apply (preview_failure_keeps_tiles sample_env (sample_args "a.png" (-1))
           empty_world empty_world sample_tiles_world sample_image
           sample_out_dir sample_tiles ValueError).
  - vm_compute. reflexivity.
  - vm_compute. reflexivity.
  - left. vm_compute. reflexivity.
Defined.

Lemma zero_preview_cols_is_caught_witness :
  build_preview sample_env sample_tiles (args.preview_cols (sample_args "a.png" 0))
    (args.tile_size (sample_args "a.png" 0)) default_padding default_bg
  = Raise ZeroDivisionError /\
  run (main sample_env (sample_args "a.png" 0)) empty_world
  = (Exited 0,
     mkWorld (files sample_tiles_world) (dirs sample_tiles_world)
       (stdout sample_tiles_world
        ++ [FailedToBuildPreview ZeroDivisionError; MsgDone])
       (draws sample_tiles_world)).
Proof.
  apply (zero_preview_cols_is_caught sample_env (sample_args "a.png" 0)
           empty_world empty_world sample_tiles_world sample_image
           sample_out_dir sample_tiles).
  - reflexivity.
  - vm_compute. reflexivity.
  - vm_compute. reflexivity.
Defined.

End TileToolSpec.

(** ** The block generator *)
Module BlockSpec.
Import Pillow Runtime Img LoopFacts PillowFacts.
Import GenerateTiles(fold_res).
Import Vocabulary.

Lemma fold_res_fmap {A B S} (f : S -> B -> res S) (g : A -> B) l s :
  fold_res f (g <$> l) s = fold_res (fun s a => f s (g a)) l s.
Proof.
  revert s. induction l as [|a l IH]; intros s; [reflexivity|].
  rewrite fmap_cons. cbn [fold_res]. destruct (f s (g a)); [apply IH | reflexivity].
Qed.

Lemma fold_res_bind {A B S} (f : S -> B -> res S) (F : A -> list B) l s :
  fold_res f (l ≫= F) s = fold_res (fun s a => fold_res f (F a) s) l s.
Proof.
  revert s. induction l as [|a l IH]; intros s; [reflexivity|].
  rewrite bind_cons, fold_res_app. cbn [fold_res].
  destruct (fold_res f (F a) s); [apply IH | reflexivity].
Qed.

Lemma fold_res_ext {A S} (f g : S -> A -> res S) l s :
  (forall s a, f s a = g s a) -> fold_res f l s = fold_res g l s.
Proof.
  intros H. revert s. induction l as [|a l IH]; intros s; [reflexivity|].
  cbn [fold_res]. rewrite H. destruct (g s a); [apply IH | reflexivity].
Qed.

(** [paint_block] is the sequence of assignments [pixels[x, y] = c] over
    [block_pixels]. *)
Lemma paint_block_assignments img bx by_ block_size c :
  paint_block img bx by_ block_size c
  = fold_res (fun im xy => putpixel im xy c)
      (block_pixels block_size bx by_) img.
Proof.
  unfold paint_block, block_pixels. rewrite fold_res_bind.
  apply fold_res_ext. intros im x. rewrite fold_res_fmap. reflexivity.
Qed.

Lemma elem_of_block_pixels block_size bx by_ x y :
  (x, y) ∈ block_pixels block_size bx by_ <-> in_block block_size bx by_ x y.
Proof.
  unfold block_pixels, in_block, range2. rewrite list_elem_of_bind. split.
  - intros (x' & Hin & Hx'). apply list_elem_of_fmap in Hin as (y' & [= -> ->] & Hy').
    apply elem_of_seqZ in Hx', Hy'. lia.
  - intros [Hx Hy]. exists x. split; [|apply elem_of_seqZ; lia].
    apply list_elem_of_fmap. exists y. split; [reflexivity|]. apply elem_of_seqZ; lia.
Qed.

Lemma NoDup_block_pixels block_size bx by_ :
  NoDup (block_pixels block_size bx by_).
Proof.
  unfold block_pixels. apply NoDup_bind.
  - intros x1 x2 [x y] _ _ H1 H2.
    apply list_elem_of_fmap in H1 as (y1 & [= -> ->] & _).
    apply list_elem_of_fmap in H2 as (y2 & [= -> ->] & _). reflexivity.
  - intros x _. apply NoDup_fmap_2; [|apply NoDup_seqZ].
    intros y1 y2 [= ->]. reflexivity.
  - apply NoDup_seqZ.
Qed.

(** A pixel with non-negative coordinates is in the square of one block. *)
Lemma in_block_unique block_size bx by_ x y :
  1 <= block_size ->
  in_block block_size bx by_ x y <->
  bx = x `div` block_size /\ by_ = y `div` block_size.
Proof.
  intros Hbs. unfold in_block.
  pose proof (Z.div_mod x block_size ltac:(lia)) as Ex.
  pose proof (Z.mod_pos_bound x block_size ltac:(lia)) as Bx.
  pose proof (Z.div_mod y block_size ltac:(lia)) as Ey.
  pose proof (Z.mod_pos_bound y block_size ltac:(lia)) as By.
  revert Ex Bx Ey By.
  generalize (x `div` block_size) as qx, (x `mod` block_size) as rx.
  generalize (y `div` block_size) as qy, (y `mod` block_size) as ry.
  intros qy ry qx rx Ex Bx Ey By. split.
  - intros [Hx Hy]. split.
    + destruct (Z.lt_trichotomy bx qx) as [H|[H|H]]; [exfalso; nia|assumption|exfalso; nia].
    + destruct (Z.lt_trichotomy by_ qy) as [H|[H|H]]; [exfalso; nia|assumption|exfalso; nia].
  - intros [-> ->]. nia.
Qed.

Lemma elem_of_image_pixels width height block_size x y :
  1 <= block_size ->
  (x, y) ∈ image_pixels width height block_size <->
  0 <= x < width * block_size /\ 0 <= y < height * block_size.
Proof.
  intros Hbs. unfold image_pixels. rewrite list_elem_of_bind. split.
  - intros (bx & Hin & Hbx). apply list_elem_of_bind in Hin as (by_ & Hin & Hby).
    apply elem_of_block_pixels in Hin as [Hx Hy].
    apply elem_of_seqZ in Hbx, Hby. nia.
  - intros [Hx Hy].
    pose proof (proj2 (in_block_unique block_size _ _ x y Hbs) (conj eq_refl eq_refl))
      as [Hbx Hby].
    exists (x `div` block_size). split.
    + apply list_elem_of_bind. exists (y `div` block_size). split.
      * apply elem_of_block_pixels. split; assumption.
      * apply elem_of_seqZ. split; [apply Z.div_pos; lia|].
        apply Z.div_lt_upper_bound; lia.
    + apply elem_of_seqZ. split; [apply Z.div_pos; lia|].
      apply Z.div_lt_upper_bound; lia.
Qed.

Lemma NoDup_image_pixels width height block_size :
  1 <= block_size -> NoDup (image_pixels width height block_size).
Proof.
  intros Hbs. unfold image_pixels. apply NoDup_bind.
  - intros bx1 bx2 [x y] _ _ H1 H2.
    apply list_elem_of_bind in H1 as (by1 & H1 & _).
    apply list_elem_of_bind in H2 as (by2 & H2 & _).
    apply elem_of_block_pixels, in_block_unique in H1, H2; try assumption. lia.
  - intros bx _. apply NoDup_bind.
    + intros by1 by2 [x y] _ _ H1 H2.
      apply elem_of_block_pixels, in_block_unique in H1, H2; try assumption. lia.
    + intros by_ _. apply NoDup_block_pixels.
    + apply NoDup_seqZ.
  - apply NoDup_seqZ.
Qed.

(** What a run of assignments of one color does to an image. *)
Lemma putpixels_result (c : color) (l : list (Z * Z)) :
  forall img img',
  (forall x y, (x, y) ∈ l -> 0 <= x /\ 0 <= y) ->
  fold_res (fun im xy => putpixel im xy c) l img = Ok img' ->
  width img' = width img /\ height img' = height img /\
  (forall x y, (x, y) ∈ l -> pix img' x y = c) /\
  (forall x y, (x, y) ∉ l -> pix img' x y = pix img x y).
Proof.
  induction l as [|[x0 y0] l IH]; intros img img' Hpos Hf.
  - cbn [fold_res] in Hf. injection Hf as <-.
    split; [reflexivity|]. split; [reflexivity|]. split; [|reflexivity].
    intros x y H. inversion H.
  - cbn [fold_res] in Hf. cbn beta in Hf.
    destruct (Hpos x0 y0 ltac:(constructor)) as [Hx0 Hy0].
    destruct (putpixel img (x0, y0) c) as [img1|e] eqn:Hp;
      cbn [rbind] in Hf; [|discriminate].
    unfold putpixel in Hp.
    destruct (Z.ltb_spec x0 0) as [|_]; [lia|].
    destruct (Z.ltb_spec y0 0) as [|_]; [lia|].
    destruct (in_bounds img x0 y0); [|discriminate]. injection Hp as <-.
    apply IH in Hf as (Hw & Hh & Hin & Hout).
    2:{ intros x y H. apply Hpos. constructor. assumption. }
    cbn [width height pix] in *.
    split; [assumption|]. split; [assumption|]. split.
    + intros x y H. destruct (decide ((x, y) ∈ l)) as [Hl|Hl]; [apply Hin, Hl|].
      rewrite Hout by assumption.
      apply elem_of_cons in H as [[= -> ->]|H]; [|contradiction].
      rewrite !Z.eqb_refl. reflexivity.
    + intros x y H. apply not_elem_of_cons in H as [Hne Hl].
      rewrite Hout by assumption.
      destruct (Z.eqb_spec x x0) as [->|]; [|reflexivity].
      destruct (Z.eqb_spec y y0) as [->|]; [|reflexivity].
      contradiction.
Qed.

Lemma putpixels_succeed (c : color) (l : list (Z * Z)) :
  forall img,
  (forall x y, (x, y) ∈ l -> 0 <= x < width img /\ 0 <= y < height img) ->
  exists img', fold_res (fun im xy => putpixel im xy c) l img = Ok img'.
Proof.
  induction l as [|[x0 y0] l IH]; intros img Hin.
  - eexists. reflexivity.
  - cbn [fold_res]. cbn beta.
    destruct (Hin x0 y0 ltac:(constructor)) as [Hx0 Hy0].
    assert (Hp : putpixel img (x0, y0) c
                 = Ok (mkRaster (width img) (height img)
                         (fun x' y' => if (x' =? x0) && (y' =? y0) then c
                                       else pix img x' y'))).
    { unfold putpixel.
      destruct (Z.ltb_spec x0 0) as [|_]; [lia|].
      destruct (Z.ltb_spec y0 0) as [|_]; [lia|].
      assert (Hb : in_bounds img x0 y0 = true).
      { unfold in_bounds. rewrite !andb_true_iff, !Z.leb_le, !Z.ltb_lt. lia. }
      rewrite Hb. reflexivity. }
    rewrite Hp. cbn [rbind]. apply IH. cbn [width height].
    intros x y H. apply Hin. constructor. assumption.
Qed.

(** Painting a block that lies in the image. *)
Lemma paint_block_result img bx by_ block_size c :
  1 <= block_size -> 0 <= bx -> 0 <= by_ ->
  (bx + 1) * block_size <= width img -> (by_ + 1) * block_size <= height img ->
  exists img',
    paint_block img bx by_ block_size c = Ok img' /\
    width img' = width img /\ height img' = height img /\
    (forall x y, in_block block_size bx by_ x y -> pix img' x y = c) /\
    (forall x y, ~ in_block block_size bx by_ x y -> pix img' x y = pix img x y).
Proof.
  intros Hbs Hbx Hby Hw Hh. rewrite paint_block_assignments.
  destruct (putpixels_succeed c (block_pixels block_size bx by_) img) as [img' Hf].
  { intros x y H. apply elem_of_block_pixels in H as [Hx Hy]. nia. }
  exists img'. split; [assumption|].
  apply putpixels_result in Hf as (Hw' & Hh' & Hin & Hout).
  2:{ intros x y H. apply elem_of_block_pixels in H as [Hx Hy]. nia. }
  split; [assumption|]. split; [assumption|]. split.
  - intros x y H. apply Hin, elem_of_block_pixels, H.
  - intros x y H. apply Hout. rewrite elem_of_block_pixels. assumption.
Qed.

Lemma range_snoc n : 0 <= n -> range (n + 1) = range n ++ [n].
Proof.
  intros Hn. unfold range. rewrite seqZ_app by lia. reflexivity.
Qed.

Lemma random_color_eval E w :
  random_color E w
  = (Normal (color_drawn E (draws w)),
     mkWorld (files w) (dirs w) (stdout w) (S (S (S (draws w))))).
Proof. reflexivity. Qed.

(** The pixel loops of a block make its assignments. *)
Lemma paint_block_block_assignments img bx by_ block_size c :
  paint_block img bx by_ block_size c
  = fold_res (fun im a => putpixel im a.1 a.2)
      (block_assignments block_size bx by_ c) img.
Proof.
  rewrite paint_block_assignments. unfold block_assignments.
  rewrite fold_res_fmap. reflexivity.
Qed.

Lemma fmap_bind {A B C} (f : B -> C) (g : A -> list B) (l : list A) :
  f <$> (l ≫= g) = l ≫= (fun a => f <$> g a).
Proof.
  induction l as [|a l IH]; [reflexivity|].
  rewrite !bind_cons, fmap_app, IH. reflexivity.
Qed.

(** The pixels that [assignments] lists are those of [image_pixels]. *)
Lemma assignments_pixels E d width height block_size :
  (assignments E d width height block_size).*1
  = image_pixels width height block_size.
Proof.
  unfold assignments, image_pixels. rewrite fmap_bind.
  apply list_bind_ext; [|reflexivity]. intros bx. cbn beta.
  rewrite fmap_bind. apply list_bind_ext; [|reflexivity]. intros by_.
  cbn beta. unfold block_assignments. rewrite <- list_fmap_compose.
  apply list_fmap_id.
Qed.

Section Assignments.
Variable E : env.
Variables width height block_size : Z.
Hypothesis Hbs : 1 <= block_size.
Hypothesis Hwidth : 0 <= width.
Hypothesis Hheight : 0 <= height.

Local Notation column d bx j :=
  (Vocabulary.column E d height block_size bx j).

Lemma assignments_snoc d i :
  0 <= i ->
  assignments E d (i + 1) height block_size
  = assignments E d i height block_size ++ column d i height.
Proof.
  intros Hi. unfold assignments, Vocabulary.column.
  rewrite range_snoc by assumption.
  rewrite bind_app, bind_singleton. reflexivity.
Qed.

Lemma column_snoc d i j :
  0 <= j ->
  column d i (j + 1)
  = column d i j
    ++ block_assignments block_size i j
         (color_drawn E (draw_of_block height d i j)).
Proof.
  intros Hj. unfold Vocabulary.column. rewrite range_snoc by assumption.
  rewrite bind_app, bind_singleton. reflexivity.
Qed.

(** The block loops of [generate_random_image] make the assignments of
    [assignments], in order, and take three draws a block. *)
Lemma block_loops_assign blank w :
  sized width height block_size blank ->
  exists img,
    fold_res (fun im a => putpixel im a.1 a.2)
      (assignments E (draws w) width height block_size) blank = Ok img /\
    sized width height block_size img /\
    for_each (range width) (fun bx =>
      for_each (range height) (fun by_ img =>
        c ← random_color E;
        lift (paint_block img bx by_ block_size c))) blank w
    = (Normal img,
       mkWorld (files w) (dirs w) (stdout w)
         (draws w + 3 * Z.to_nat (width * height))).
Proof.
  intros Hs. set (d := draws w).
  destruct (for_each_invariant (range width)
    (fun bx => for_each (range height) (fun by_ img =>
        c ← random_color E; lift (paint_block img bx by_ block_size c)))
    (fun i img' w' =>
       same_but_draws w w' /\
       draws w' = (d + 3 * Z.to_nat (Z.of_nat i * height))%nat /\
       sized width height block_size img' /\
       fold_res (fun im a => putpixel im a.1 a.2)
         (assignments E d (Z.of_nat i) height block_size) blank = Ok img'))
    with (s := blank) (w := w)
    as (img' & w' & Hf & Hsame & Hd & Hsz & Hall).
  - (* the outer turn *)
    intros i bx img1 w1 Hl (Hsame1 & Hd1 & Hs1 & Hall1).
    apply lookup_seqZ in Hl as [-> Hi]. rewrite Z.add_0_l.
    destruct (for_each_invariant (range height)
      (fun by_ img => c ← random_color E;
         lift (paint_block img (Z.of_nat i) by_ block_size c))
      (fun j img' w' =>
         same_but_draws w w' /\
         draws w'
         = (d + 3 * Z.to_nat (Z.of_nat i * height + Z.of_nat j))%nat /\
         sized width height block_size img' /\
         fold_res (fun im a => putpixel im a.1 a.2)
           (assignments E d (Z.of_nat i) height block_size
            ++ column d (Z.of_nat i) (Z.of_nat j)) blank = Ok img'))
      with (s := img1) (w := w1)
      as (img2 & w2 & Hf2 & Hsame2 & Hd2 & Hs2 & Hall2).
    + (* the inner turn *)
      intros j by_ img3 w3 Hl (Hsame3 & Hd3 & Hs3 & Hall3).
      apply lookup_seqZ in Hl as [-> Hj]. rewrite Z.add_0_l.
      destruct Hs3 as [Ew Eh].
      destruct (paint_block_result img3 (Z.of_nat i) (Z.of_nat j) block_size
                  (color_drawn E (draws w3)))
        as (img4 & Hp & Hw' & Hh' & _ & _); try lia; try nia.
      eexists img4, _. split.
      { rewrite (bind_normal _ _ _ _ _ (random_color_eval E w3)).
        unfold lift. rewrite Hp. reflexivity. }
      split.
      { destruct Hsame3 as (? & ? & ?). split; [|split]; assumption. }
      split.
      { cbn [draws]. rewrite Hd3.
        replace (Z.of_nat i * height + Z.of_nat (S j))
          with (Z.of_nat i * height + Z.of_nat j + 1) by lia.
        rewrite (Z2Nat.inj_add _ 1) by nia. change (Z.to_nat 1) with 1%nat. lia. }
      split; [split; congruence|].
      replace (Z.of_nat (S j)) with (Z.of_nat j + 1) by lia.
      rewrite column_snoc by lia. rewrite app_assoc, fold_res_app, Hall3.
      cbn [rbind]. rewrite <- paint_block_block_assignments.
      unfold draw_of_block. rewrite <- Hd3. exact Hp.
    + split; [assumption|].
      split; [change (Z.of_nat 0) with 0; rewrite Z.add_0_r; exact Hd1|].
      split; [assumption|].
      change (column d (Z.of_nat i) (Z.of_nat 0)) with (@nil (Z * Z * color)).
      rewrite app_nil_r. exact Hall1.
    + exists img2, w2. split; [assumption|]. split; [assumption|].
      unfold range in Hd2, Hall2. rewrite length_seqZ in Hd2, Hall2.
      rewrite Z2Nat.id in Hd2, Hall2 by lia.
      split.
      { replace (Z.of_nat (S i) * height)
          with (Z.of_nat i * height + height) by lia.
        exact Hd2. }
      split; [assumption|].
      replace (Z.of_nat (S i)) with (Z.of_nat i + 1) by lia.
      rewrite assignments_snoc by lia. exact Hall2.
  - split; [split; [|split]; reflexivity|].
    split; [cbn; lia|]. split; [assumption|]. reflexivity.
  - exists img'. unfold range in Hd, Hall. rewrite length_seqZ in Hd, Hall.
    rewrite Z2Nat.id in Hd, Hall by lia.
    split; [exact Hall|]. split; [assumption|].
    rewrite Hf. destruct Hsame as (Hfi & Hdi & Ho). destruct w' as [f dd o dr].
    cbn [files dirs stdout draws] in *. subst. reflexivity.
Qed.

End Assignments.

(** The raster [generate_random_image] starts from. *)
Lemma blank_image E width height block_size :
  can_allocate E (width * block_size) (height * block_size) ->
  Image_new (new_error E) (width * block_size, height * block_size) black
  = Ok (mkRaster (width * block_size) (height * block_size)
          (fun _ _ => black)).
Proof. intros H. apply (can_allocate_returns E _ _ black H). Qed.

(** [generate_random_image] makes the assignments of [assignments] on a
    black raster and saves the result. *)
Lemma generate_random_image_assigns E width height filename block_size w :
  0 <= width -> 0 <= height -> 1 <= block_size ->
  can_allocate E (width * block_size) (height * block_size) ->
  exists img,
    fold_res (fun im a => putpixel im a.1 a.2)
      (assignments E (draws w) width height block_size)
      (mkRaster (width * block_size) (height * block_size)
         (fun _ _ => black)) = Ok img /\
    sized width height block_size img /\
    generate_random_image E width height filename block_size w
    = save E img filename
        (mkWorld (files w) (dirs w) (stdout w)
           (draws w + 3 * Z.to_nat (width * height))).
Proof.
  intros Hw Hh Hbs Hnew.
  destruct (block_loops_assign E width height block_size Hbs Hw Hh
              (mkRaster (width * block_size) (height * block_size)
                 (fun _ _ => black)) w)
    as (img & Hfold & Hsz & Hloop); [split; reflexivity|].
  exists img. split; [exact Hfold|]. split; [exact Hsz|].
  unfold generate_random_image.
  erewrite bind_normal;
    [|unfold lift; rewrite (blank_image E _ _ _ Hnew); reflexivity].
  erewrite bind_normal; [|exact Hloop]. reflexivity.
Qed.

(** C10.  In an image of [width] x [height] blocks of side [block_size]
    (all at least 1): painting block [(bx, by_)] succeeds, sets every pixel
    of its half-open square to the color and leaves every other pixel as
    it was; every pixel of the raster is in the square of exactly one block
    (the squares are pairwise disjoint and cover the raster); and when
    [Image.new] returns the raster, what [generate_random_image] saves is
    the black raster after the assignments [pixels[x, y] = color] of its
    block loops, made in their order, in which no pixel occurs twice and the
    pixels that occur are exactly those of the raster: every pixel of the
    output image is assigned a color exactly once. *)
Theorem blocks_partition_the_raster (E : env) (width height block_size : Z) :
  1 <= width -> 1 <= height -> 1 <= block_size ->
  (forall img bx by_ c,
     Pillow.width img = width * block_size ->
     Pillow.height img = height * block_size ->
     0 <= bx < width -> 0 <= by_ < height ->
     exists img',
       paint_block img bx by_ block_size c = Ok img' /\
       Pillow.width img' = Pillow.width img /\
       Pillow.height img' = Pillow.height img /\
       (forall x y, in_block block_size bx by_ x y -> pix img' x y = c) /\
       (forall x y, ~ in_block block_size bx by_ x y ->
          pix img' x y = pix img x y)) /\
  (forall x y,
     0 <= x < width * block_size -> 0 <= y < height * block_size ->
     exists bx by_,
       0 <= bx < width /\ 0 <= by_ < height /\
       in_block block_size bx by_ x y /\
       forall bx' by', in_block block_size bx' by' x y ->
         bx' = bx /\ by' = by_) /\
  (forall filename w,
     width * block_size < 2 ^ 31 -> height * block_size < 2 ^ 31 ->
     new_error E (width * block_size, height * block_size) = None ->
     exists img,
       fold_res (fun im a => putpixel im a.1 a.2)
         (assignments E (draws w) width height block_size)
         (mkRaster (width * block_size) (height * block_size)
            (fun _ _ => black)) = Ok img /\
       generate_random_image E width height filename block_size w
       = save E img filename
           (mkWorld (files w) (dirs w) (stdout w)
              (draws w + 3 * Z.to_nat (width * height)))) /\
  (forall d,
     NoDup (assignments E d width height block_size).*1 /\
     forall x y,
       (x, y) ∈ (assignments E d width height block_size).*1 <->
       0 <= x < width * block_size /\ 0 <= y < height * block_size).
Proof.
  intros Hw Hh Hbs. split; [|split; [|split]].
  - intros img bx by_ c Ew Eh Hbx Hby.
    apply paint_block_result; try lia; nia.
  - intros x y Hx Hy.
    pose proof (proj2 (in_block_unique block_size _ _ x y Hbs)
                  (conj eq_refl eq_refl)) as Hin.
    exists (x `div` block_size), (y `div` block_size).
    split; [split; [apply Z.div_pos; lia | apply Z.div_lt_upper_bound; lia]|].
    split; [split; [apply Z.div_pos; lia | apply Z.div_lt_upper_bound; lia]|].
    split; [assumption|].
    intros bx' by' H. apply in_block_unique in H; assumption.
  - intros filename w Hbw Hbh Hnone.
    destruct (generate_random_image_assigns E width height filename
                block_size w) as (img & Hfold & _ & Hrun); try lia.
    { split; [nia|]. split; [nia | assumption]. }
    exists img. split; assumption.
  - intros d. rewrite assignments_pixels. split.
    + apply NoDup_image_pixels. assumption.
    + intros x y. apply elem_of_image_pixels. assumption.
Qed.

Lemma blocks_partition_the_raster_witness :
  (forall img bx by_ c,
     Pillow.width img = 4 * 10 ->
     Pillow.height img = 4 * 10 ->
     0 <= bx < 4 -> 0 <= by_ < 4 ->
     exists img',
       paint_block img bx by_ 10 c = Ok img' /\
       Pillow.width img' = Pillow.width img /\
       Pillow.height img' = Pillow.height img /\
       (forall x y, in_block 10 bx by_ x y -> pix img' x y = c) /\
       (forall x y, ~ in_block 10 bx by_ x y -> pix img' x y = pix img x y)) /\
  (forall x y,
     0 <= x < 4 * 10 -> 0 <= y < 4 * 10 ->
     exists bx by_,
       0 <= bx < 4 /\ 0 <= by_ < 4 /\
       in_block 10 bx by_ x y /\
       forall bx' by', in_block 10 bx' by' x y -> bx' = bx /\ by' = by_) /\
  (forall filename w,
     4 * 10 < 2 ^ 31 -> 4 * 10 < 2 ^ 31 ->
     new_error sample_env (4 * 10, 4 * 10) = None ->
     exists img,
       fold_res (fun im a => putpixel im a.1 a.2)
         (assignments sample_env (draws w) 4 4 10)
         (mkRaster (4 * 10) (4 * 10) (fun _ _ => black)) = Ok img /\
       generate_random_image sample_env 4 4 filename 10 w
       = save sample_env img filename
           (mkWorld (files w) (dirs w) (stdout w)
              (draws w + 3 * Z.to_nat (4 * 4)))) /\
  (forall d,
     NoDup (assignments sample_env d 4 4 10).*1 /\
     forall x y,
       (x, y) ∈ (assignments sample_env d 4 4 10).*1 <->
       0 <= x < 4 * 10 /\ 0 <= y < 4 * 10).
Proof. apply (blocks_partition_the_raster sample_env 4 4 10); lia. Defined.

End BlockSpec.

(** ** The run of the block tool *)
Module BlockToolSpec.
Import Pillow Runtime Img LoopFacts BlockSpec TileToolSpec.
Import Vocabulary.

Lemma random_color_run E w :
  exists c w', random_color E w = (Normal c, w') /\ same_but_draws w w'.
Proof.
  eexists _, _. split; [reflexivity|]. split; [|split]; reflexivity.
Qed.

Section Blocks.
Variable E : env.
Variables width height block_size : Z.
Hypothesis Hbs : 1 <= block_size.

Local Notation sized := (Vocabulary.sized width height block_size).

(** One turn of the inner loop. *)
Lemma paint_turn img w bx by_ :
  sized img -> 0 <= bx < width -> 0 <= by_ < height ->
  exists img' w',
    (c ← random_color E; lift (paint_block img bx by_ block_size c)) w
    = (Normal img', w') /\
    same_but_draws w w' /\ sized img' /\
    uniform_block block_size img' bx by_ /\
    (forall x y, ~ in_block block_size bx by_ x y ->
       pix img' x y = pix img x y).
Proof.
  intros [Ew Eh] Hbx Hby.
  destruct (random_color_run E w) as (c & w' & Hc & Hsame).
  destruct (paint_block_result img bx by_ block_size c)
    as (img' & Hp & Hw' & Hh' & Hin & Hout); try lia; try nia.
  exists img', w'. split.
  - rewrite (bind_normal _ _ _ _ _ Hc). unfold lift. rewrite Hp. reflexivity.
  - split; [assumption|]. split; [split; congruence|].
    split; [exists c; assumption | assumption].
Qed.

Lemma uniform_block_kept img img' bx by_ bx' by' :
  (forall x y, ~ in_block block_size bx by_ x y -> pix img' x y = pix img x y) ->
  (bx', by') <> (bx, by_) ->
  uniform_block block_size img bx' by' -> uniform_block block_size img' bx' by'.
Proof.
  intros Hout Hne [c Hc]. exists c. intros x y Hin.
  rewrite Hout; [apply Hc, Hin|].
  intros Hin'. apply Hne.
  apply in_block_unique in Hin, Hin'; try assumption.
  destruct Hin as [-> ->], Hin' as [-> ->]. reflexivity.
Qed.

(** The two block loops: every block of the grid ends up uniform. *)
Lemma block_loops img w :
  0 <= width -> 0 <= height -> sized img ->
  exists img' w',
    for_each (range width) (fun bx =>
      for_each (range height) (fun by_ img =>
        c ← random_color E;
        lift (paint_block img bx by_ block_size c))) img w
    = (Normal img', w') /\
    same_but_draws w w' /\ sized img' /\
    forall bx by_, 0 <= bx < width -> 0 <= by_ < height ->
      uniform_block block_size img' bx by_.
Proof.
  intros Hw Hh Hs.
  destruct (for_each_invariant (range width)
    (fun bx => for_each (range height) (fun by_ img =>
        c ← random_color E; lift (paint_block img bx by_ block_size c)))
    (fun i img' w' =>
       same_but_draws w w' /\ sized img' /\
       forall bx by_, 0 <= bx < Z.of_nat i -> 0 <= by_ < height ->
         uniform_block block_size img' bx by_)) with (s := img) (w := w)
    as (img' & w' & Hf & Hsame & Hsz & Hall).
  - (* the outer turn *)
    intros i bx img1 w1 Hl (Hsame1 & Hs1 & Hall1).
    apply lookup_seqZ in Hl as [-> Hi]. rewrite Z.add_0_l.
    destruct (for_each_invariant (range height)
      (fun by_ img => c ← random_color E;
         lift (paint_block img (Z.of_nat i) by_ block_size c))
      (fun j img' w' =>
         same_but_draws w w' /\ sized img' /\
         forall bx by_,
           (0 <= bx < Z.of_nat i /\ 0 <= by_ < height) \/
           (bx = Z.of_nat i /\ 0 <= by_ < Z.of_nat j) ->
           uniform_block block_size img' bx by_)) with (s := img1) (w := w1)
      as (img2 & w2 & Hf2 & Hsame2 & Hs2 & Hall2).
    + (* the inner turn *)
      intros j by_ img3 w3 Hl (Hsame3 & Hs3 & Hall3).
      apply lookup_seqZ in Hl as [-> Hj]. rewrite Z.add_0_l.
      destruct (paint_turn img3 w3 (Z.of_nat i) (Z.of_nat j) Hs3)
        as (img4 & w4 & Hb & Hsame4 & Hs4 & Hu & Hout); try lia.
      exists img4, w4. split; [assumption|].
      split.
      { destruct Hsame3 as (? & ? & ?), Hsame4 as (? & ? & ?).
        split; [|split]; congruence. }
      split; [assumption|].
      intros bx by_ Hcase.
      destruct (decide ((bx, by_) = (Z.of_nat i, Z.of_nat j))) as [[= -> ->]|Hne].
      * assumption.
      * apply (uniform_block_kept img3 img4 (Z.of_nat i) (Z.of_nat j));
          [assumption | assumption |].
        apply Hall3. destruct Hcase as [?|[-> ?]]; [left; assumption|].
        right. split; [reflexivity|].
        assert (by_ <> Z.of_nat j) by congruence. lia.
    + split; [assumption|]. split; [assumption|].
      intros bx by_ [?|[_ ?]]; [apply Hall1; lia | exfalso; lia].
    + exists img2, w2. split; [assumption|].
      split; [assumption|]. split; [assumption|].
      intros bx by_ Hbx Hby. apply Hall2.
      unfold range. rewrite length_seqZ.
      destruct (decide (bx = Z.of_nat i)) as [->|]; [right|left]; lia.
  - split; [split; [|split]; reflexivity|]. split; [assumption|].
    intros bx by_ ? ?. exfalso. lia.
  - exists img', w'. split; [assumption|]. split; [assumption|].
    split; [assumption|].
    intros bx by_ Hbx Hby.
    apply Hall; [unfold range; rewrite length_seqZ; lia | assumption].
Qed.

End Blocks.

Lemma generate_random_image_run E width height filename block_size w :
  0 <= width -> 0 <= height -> 1 <= block_size ->
  can_allocate E (width * block_size) (height * block_size) ->
  (forall im, save_error E filename im = None) ->
  exists img d,
    generate_random_image E width height filename block_size w
    = (Normal (),
       mkWorld (<[filename := PNG img]> (files w)) (dirs w) (stdout w) d) /\
    block_image width height block_size img.
Proof.
  intros Hw Hh Hbs Halloc Hsave. unfold generate_random_image.
  pose proof (blank_image E width height block_size Halloc) as Hnew.
  destruct (block_loops E width height block_size Hbs
              (mkRaster (width * block_size) (height * block_size)
                 (fun _ _ => black)) w Hw Hh)
    as (img & w' & Hloop & (Hf & Hd & Ho) & [Ew Eh] & Hall).
  { split; reflexivity. }
  exists img, (draws w'). split.
  - erewrite bind_normal; [|unfold lift; rewrite Hnew; reflexivity].
    erewrite bind_normal; [|exact Hloop].
    unfold save. rewrite Hsave, Hf, Hd, Ho. reflexivity.
  - split; [assumption|]. split; assumption.
Qed.

Lemma string_length_app (s t : string) :
  String.length (s +:+ t) = (String.length s + String.length t)%nat.
Proof.
  induction s as [|a s IH]; [reflexivity|].
  change (String a s +:+ t) with (String a (s +:+ t)).
  cbn [String.length]. rewrite IH. reflexivity.
Qed.

Lemma string_app_inj_r (s1 s2 t : string) : s1 +:+ t = s2 +:+ t -> s1 = s2.
Proof.
  revert s2. induction s1 as [|a s1 IH]; intros [|b s2] H.
  - reflexivity.
  - apply (f_equal String.length) in H.
    change ("" +:+ t) with t in H.
    rewrite string_length_app in H. cbn [String.length] in H. lia.
  - apply (f_equal String.length) in H.
    change ("" +:+ t) with t in H.
    rewrite string_length_app in H. cbn [String.length] in H. lia.
  - change (String a s1 +:+ t) with (String a (s1 +:+ t)) in H.
    change (String b s2 +:+ t) with (String b (s2 +:+ t)) in H.
    injection H as -> H. f_equal. apply IH. assumption.
Qed.

Lemma image_name_inj prefix i j :
  image_name prefix i = image_name prefix j -> i = j.
Proof.
  unfold image_name, str. intros H.
  apply String.app_inj, string_app_inj_r in H.
  apply pretty_Z_inj in H. assumption.
Qed.

(** C8 (as amended).  For [width], [height], [block_size] at least 1 with
    [width * block_size] and [height * block_size] below 2^31, and [count]
    at least 0, when the raster can be allocated and no save fails the
    block tool ends with exit code 0 having written exactly [count] images:
    for each index [i] from 1 to [count] the file
    [prefix ++ str i ++ ".png"] holds a raster of [width * block_size] by
    [height * block_size] pixels in which each of the [width * height]
    blocks has a single color; these names are pairwise distinct, and every
    other path holds what it held. *)
Theorem block_tool_writes_count_images (E : env) (a : args.t) (w : world) :
  1 <= args.width a -> 1 <= args.height a -> 1 <= args.block_size a ->
  0 <= args.count a ->
  args.width a * args.block_size a < 2 ^ 31 ->
  args.height a * args.block_size a < 2 ^ 31 ->
  new_error E (args.width a * args.block_size a,
               args.height a * args.block_size a) = None ->
  (forall i im, 1 <= i <= args.count a ->
     save_error E (image_name (args.out_prefix a) i) im = None) ->
  exists w',
    run (main E a) w = (Exited 0, w') /\
    (forall i, 1 <= i <= args.count a ->
       exists img,
         files w' !! (args.out_prefix a +:+ str i +:+ ".png") = Some (PNG img) /\
         Pillow.width img = args.width a * args.block_size a /\
         Pillow.height img = args.height a * args.block_size a /\
         forall bx by_, 0 <= bx < args.width a -> 0 <= by_ < args.height a ->
           exists c, forall x y,
             bx * args.block_size a <= x < (bx + 1) * args.block_size a ->
             by_ * args.block_size a <= y < (by_ + 1) * args.block_size a ->
             pix img x y = c) /\
    (forall i j, image_name (args.out_prefix a) i
                 = image_name (args.out_prefix a) j -> i = j) /\
    (forall p,
       (forall i, 1 <= i <= args.count a ->
          p <> image_name (args.out_prefix a) i) ->
       files w' !! p = files w !! p) /\
    dirs w' = dirs w /\ stdout w' = stdout w.
Proof.
  intros Hw Hh Hbs Hcount Hbw Hbh Hnone Hsave.
  assert (Halloc : can_allocate E (args.width a * args.block_size a)
                     (args.height a * args.block_size a)).
  { split; [nia|]. split; [nia | assumption]. }
  set (prefix := args.out_prefix a) in *.
  destruct (for_each_invariant (range (args.count a))
    (fun i (_ : unit) =>
       let filename := args.out_prefix a +:+ str (i + 1) +:+ ".png" in
       generate_random_image E (args.width a) (args.height a) filename
         (args.block_size a))
    (fun k (_ : unit) w' =>
       (forall i, 1 <= i <= Z.of_nat k ->
          exists img, files w' !! image_name prefix i = Some (PNG img) /\
            block_image (args.width a) (args.height a) (args.block_size a) img) /\
       (forall p, (forall i, 1 <= i <= Z.of_nat k -> p <> image_name prefix i) ->
          files w' !! p = files w !! p) /\
       dirs w' = dirs w /\ stdout w' = stdout w)) with (s := ()) (w := w)
    as (u & w' & Hf & Himgs & Hframe & Hd & Ho).
  - intros k i [] w1 Hl (Himgs & Hframe & Hd & Ho).
    apply lookup_seqZ in Hl as [-> Hk]. rewrite Z.add_0_l. cbv zeta.
    destruct (generate_random_image_run E (args.width a) (args.height a)
                (args.out_prefix a +:+ str (Z.of_nat k + 1) +:+ ".png")
                (args.block_size a) w1) as (img & d & Hg & Hgood);
      try lia; try assumption.
    { intros im. apply (Hsave (Z.of_nat k + 1)). lia. }
    eexists (), _. split; [exact Hg|]. cbn [files dirs stdout].
    split; [|split; [|split; assumption]].
    + intros i Hi. destruct (decide (i = Z.of_nat k + 1)) as [->|Hne].
      * exists img. split; [|assumption]. apply lookup_insert_eq.
      * destruct (Himgs i ltac:(lia)) as (img' & Hl & Hg').
        exists img'. split; [|assumption].
        rewrite lookup_insert_ne; [assumption|].
        intros Heq. apply (image_name_inj prefix) in Heq. lia.
    + intros p Hp. rewrite lookup_insert_ne.
      * apply Hframe. intros i Hi. apply Hp. lia.
      * intros Heq. apply (Hp (Z.of_nat k + 1)); [lia|]. symmetry. exact Heq.
  - split; [intros i Hi; exfalso; lia|]. split; [|split]; reflexivity.
  - unfold range in *. rewrite length_seqZ in Himgs, Hframe.
    exists w'. split.
    { unfold run, main. erewrite bind_normal; [|exact Hf]. reflexivity. }
    split.
    { intros i Hi. destruct (Himgs i ltac:(lia)) as (img & Hl & Ew & Eh & Hall).
      exists img. split; [exact Hl|]. split; [assumption|]. split; [assumption|].
      intros bx by_ Hbx Hby. destruct (Hall bx by_ Hbx Hby) as [c Hc].
      exists c. intros x y Hx Hy. apply Hc. split; assumption. }
    split; [intros i j; apply image_name_inj|].
    split; [|split; assumption].
    intros p Hp. apply Hframe. intros i Hi. apply Hp. lia.
Qed.

Lemma block_tool_writes_count_images_witness :
  exists w',
    run (main sample_env block_args) empty_world = (Exited 0, w') /\
    (forall i, 1 <= i <= args.count block_args ->
       exists img,
         files w' !! (args.out_prefix block_args +:+ str i +:+ ".png")
         = Some (PNG img) /\
         Pillow.width img = args.width block_args * args.block_size block_args /\
         Pillow.height img = args.height block_args * args.block_size block_args /\
         forall bx by_,
           0 <= bx < args.width block_args ->
           0 <= by_ < args.height block_args ->
           exists c, forall x y,
             bx * args.block_size block_args <= x
               < (bx + 1) * args.block_size block_args ->
             by_ * args.block_size block_args <= y
               < (by_ + 1) * args.block_size block_args ->
             pix img x y = c) /\
    (forall i j, image_name (args.out_prefix block_args) i
                 = image_name (args.out_prefix block_args) j -> i = j) /\
    (forall p,
       (forall i, 1 <= i <= args.count block_args ->
          p <> image_name (args.out_prefix block_args) i) ->
       files w' !! p = files empty_world !! p) /\
    dirs w' = dirs empty_world /\ stdout w' = stdout empty_world.
Proof.
  apply (block_tool_writes_count_images sample_env block_args empty_world).
  - vm_compute. discriminate.
  - vm_compute. discriminate.
  - vm_compute. discriminate.
  - vm_compute. discriminate.
  - vm_compute. reflexivity.
  - vm_compute. reflexivity.
  - reflexivity.
  - intros i im Hi. reflexivity.
Defined.

(** C8 as the specification states it fails: with [width = height = 1],
    [block_size = 2^31] and [count = 1], all at least 1, where no save
    fails, [Image.new] raises [OverflowError] on the size, nothing catches
    it, and the run ends without the file [random_image_1.png]. *)
Lemma block_tool_stops_on_a_large_block :
  1 <= args.width large_block_args /\ 1 <= args.height large_block_args /\
  1 <= args.block_size large_block_args /\ 0 <= args.count large_block_args /\
  (forall i im,
     save_error sample_env
       (image_name (args.out_prefix large_block_args) i) im = None) /\
  run (main sample_env large_block_args) empty_world
  = (Uncaught OverflowError, empty_world) /\
  files empty_world !! image_name (args.out_prefix large_block_args) 1 = None /\
  ~ exists w',
      run (main sample_env large_block_args) empty_world = (Exited 0, w').
Proof.
  split; [vm_compute; discriminate|].
  split; [vm_compute; discriminate|]. split; [vm_compute; discriminate|].
  split; [vm_compute; discriminate|]. split; [reflexivity|].
  assert (Hrun : run (main sample_env large_block_args) empty_world
                 = (Uncaught OverflowError, empty_world))
    by (vm_compute; reflexivity).
  split; [exact Hrun|]. split; [reflexivity|].
  intros [w' Hw']. rewrite Hrun in Hw'. discriminate Hw'.
Qed.

End BlockToolSpec.

(** * Further properties of the two tools *)

(** ** The names of the tile files *)
Module TileNames.
Import Pillow Runtime GenerateTiles.
Import RunVocabulary.

Lemma all_chars_app P s t :
  all_chars P (s +:+ t) = all_chars P s && all_chars P t.
Proof.
  induction s as [|a s IH]; [reflexivity|].
  change (String a s +:+ t) with (String a (s +:+ t)).
  cbn [all_chars]. rewrite IH, andb_assoc. reflexivity.
Qed.

Lemma numeral_pretty_N_char x : numeral_char (pretty_N_char x) = true.
Proof.
  unfold pretty_N_char. repeat case_match; reflexivity.
Qed.

Lemma numeral_pretty_N_go x : forall s,
  all_chars numeral_char s = true ->
  all_chars numeral_char (pretty_N_go x s) = true.
Proof.
  induction (N.lt_wf_0 x) as [x _ IH]. intros s Hs.
  destruct (decide (x = 0)%N) as [->|Hx]; [rewrite pretty_N_go_0; assumption|].
  rewrite pretty_N_go_step by lia. apply IH.
  - apply N.div_lt; lia.
  - cbn [all_chars]. rewrite numeral_pretty_N_char, Hs. reflexivity.
Qed.

Lemma numeral_pretty_N (x : N) : all_chars numeral_char (pretty x) = true.
Proof.
  unfold pretty, pretty_N. case_decide; [reflexivity|].
  apply numeral_pretty_N_go. reflexivity.
Qed.

(** [str n] is made of digits and at most a sign. *)
Lemma numeral_str n : all_chars numeral_char (str n) = true.
Proof.
  unfold str, pretty, pretty_Z. destruct n as [|p|p].
  - reflexivity.
  - apply (numeral_pretty_N (N.pos p)).
  - change ("-" +:+ pretty p) with (String "-" (pretty p)).
    cbn [all_chars]. apply andb_true_iff. split; [reflexivity|].
    apply (numeral_pretty_N (N.pos p)).
Qed.

(** Two numerals followed by a character that is no digit: the numerals and
    the rests are equal. *)
Lemma numeral_prefix_inj (a : ascii) s1 s2 t1 t2 :
  numeral_char a = false ->
  all_chars numeral_char s1 = true -> all_chars numeral_char s2 = true ->
  s1 +:+ String a t1 = s2 +:+ String a t2 -> s1 = s2 /\ t1 = t2.
Proof.
  intros Ha. revert s2. induction s1 as [|b s1 IH]; intros [|c s2] H1 H2 H.
  - change ("" +:+ String a t1) with (String a t1) in H.
    change ("" +:+ String a t2) with (String a t2) in H.
    injection H as ->. split; reflexivity.
  - change ("" +:+ String a t1) with (String a t1) in H.
    change (String c s2 +:+ String a t2) with (String c (s2 +:+ String a t2)) in H.
    injection H as <- _. cbn [all_chars] in H2. rewrite Ha in H2. discriminate.
  - change ("" +:+ String a t2) with (String a t2) in H.
    change (String b s1 +:+ String a t1) with (String b (s1 +:+ String a t1)) in H.
    injection H as -> _. cbn [all_chars] in H1. rewrite Ha in H1. discriminate.
  - change (String b s1 +:+ String a t1) with (String b (s1 +:+ String a t1)) in H.
    change (String c s2 +:+ String a t2) with (String c (s2 +:+ String a t2)) in H.
    injection H as -> H. cbn [all_chars] in H1, H2.
    apply andb_true_iff in H1 as [_ H1]. apply andb_true_iff in H2 as [_ H2].
    destruct (IH s2 H1 H2 H) as [-> ->]. split; reflexivity.
Qed.

Lemma tile_name_inj r c r' c' :
  tile_name r c = tile_name r' c' -> r = r' /\ c = c'.
Proof.
  unfold tile_name. intros H.
  apply String.app_inj in H.
  change ("_c" +:+ str c +:+ ".png") with (String "_" ("c" +:+ str c +:+ ".png")) in H.
  change ("_c" +:+ str c' +:+ ".png") with (String "_" ("c" +:+ str c' +:+ ".png")) in H.
  apply numeral_prefix_inj in H as [Hr H];
    [|reflexivity|apply numeral_str|apply numeral_str].
  apply String.app_inj in H.
  change (".png") with (String "." "png") in H.
  apply numeral_prefix_inj in H as [Hc _];
    [|reflexivity|apply numeral_str|apply numeral_str].
  unfold str in *. apply pretty_Z_inj in Hr, Hc. split; assumption.
Qed.

Lemma tile_name_relative r c : String.prefix "/" (tile_name r c) = false.
Proof. reflexivity. Qed.

(** Joining to one directory keeps relative names apart. *)
Lemma path_join_inj out_dir n1 n2 :
  String.prefix "/" n1 = false -> String.prefix "/" n2 = false ->
  path_join out_dir n1 = path_join out_dir n2 -> n1 = n2.
Proof.
  intros H1 H2. unfold path_join. rewrite H1, H2.
  destruct (bool_decide (out_dir = "") || ends_with_sep out_dir); intros H.
  - apply String.app_inj in H. assumption.
  - apply String.app_inj in H. apply String.app_inj in H. assumption.
Qed.

(** X1.  The file names of two grid positions are equal only when the
    positions are: [tile_r{r}_c{c}.png] determines [r] and [c], also once
    joined to the output folder, so no tile of a run is written over
    another. *)
Theorem tile_files_are_distinct (out_dir : string) (r c r' c' : Z) :
  (tile_name r c = tile_name r' c' -> r = r' /\ c = c') /\
  (path_join out_dir (tile_name r c) = path_join out_dir (tile_name r' c') ->
   r = r' /\ c = c').
Proof.
  split; [apply tile_name_inj|].
  intros H. apply path_join_inj in H; [|apply tile_name_relative..].
  apply tile_name_inj. assumption.
Qed.

End TileNames.

(** ** Loops in the [io] monad *)
Module IoFacts.
Import Runtime.
Import RunVocabulary.

Lemma for_each_app {A St} (l1 l2 : list A) (body : A -> St -> io St) s w :
  for_each (l1 ++ l2) body s w
  = io_bind (for_each l1 body s) (for_each l2 body) w.
Proof.
  revert s w. induction l1 as [|a l1 IH]; intros s w; [reflexivity|].
  cbn [app for_each]. unfold io_bind.
  destruct (body a s w) as [[s1|e|code] w1]; [|reflexivity..].
  rewrite IH. reflexivity.
Qed.

Lemma for_each_fmap {A B St} (g : A -> B) (l : list A)
    (body : B -> St -> io St) s w :
  for_each (g <$> l) body s w = for_each l (fun a => body (g a)) s w.
Proof.
  revert s w. induction l as [|a l IH]; intros s w; [reflexivity|].
  rewrite fmap_cons. cbn [for_each]. unfold io_bind.
  destruct (body (g a) s w) as [[s1|e|code] w1]; [apply IH|reflexivity..].
Qed.

(** Two nested loops are one loop over the pairs, in the order of the
    turns. *)
Lemma for_each_nested {A B C St} (l : list A) (F : A -> list B)
    (g : A -> B -> C) (body : C -> St -> io St) s w :
  for_each l (fun a => for_each (F a) (fun b => body (g a b))) s w
  = for_each (a ← l; g a <$> F a) body s w.
Proof.
  revert s w. induction l as [|a l IH]; intros s w; [reflexivity|].
  rewrite bind_cons, for_each_app. cbn [for_each]. unfold io_bind.
  rewrite for_each_fmap.
  destruct (for_each (F a) _ s w) as [[s1|e|code] w1]; [apply IH|reflexivity..].
Qed.

Lemma for_each_ext {A St} (l : list A) (body body' : A -> St -> io St) s w :
  (forall a s w, a ∈ l -> body a s w = body' a s w) ->
  for_each l body s w = for_each l body' s w.
Proof.
  revert s w. induction l as [|a l IH]; intros s w H; [reflexivity|].
  cbn [for_each]. unfold io_bind. rewrite (H a s w) by constructor.
  destruct (body' a s w) as [[s1|e|code] w1]; [|reflexivity..].
  apply IH. intros a' s' w' Hin. apply H. constructor. assumption.
Qed.

(** A loop whose turns all return is a fold. *)
Lemma for_each_pure {A St} (l : list A) (body : A -> St -> io St)
    (f : St * world -> A -> St * world) s w :
  (forall a s w, a ∈ l ->
     body a s w = (Normal (f (s, w) a).1, (f (s, w) a).2)) ->
  for_each l body s w
  = (Normal (foldl f (s, w) l).1, (foldl f (s, w) l).2).
Proof.
  revert s w. induction l as [|a l IH]; intros s w H; [reflexivity|].
  cbn [for_each foldl]. unfold io_bind. rewrite (H a s w) by constructor.
  rewrite IH.
  - destruct (f (s, w) a). reflexivity.
  - intros a' s' w' Hin. apply H. constructor. assumption.
Qed.

(** A relation between worlds that every turn keeps is kept by the loop,
    however it ends. *)
Lemma for_each_preserves {A St} (R : world -> world -> Prop) (l : list A)
    (body : A -> St -> io St) :
  (forall w, R w w) -> (forall w1 w2 w3, R w1 w2 -> R w2 w3 -> R w1 w3) ->
  (forall a s w, a ∈ l -> R w (body a s w).2) ->
  forall s w, R w (for_each l body s w).2.
Proof.
  intros Hrefl Htrans. induction l as [|a l IH]; intros Hb s w; [apply Hrefl|].
  cbn [for_each]. unfold io_bind.
  pose proof (Hb a s w ltac:(constructor)) as Ha.
  destruct (body a s w) as [[s1|e|code] w1]; cbn [snd] in *; try assumption.
  apply Htrans with w1; [assumption|].
  apply IH. intros a' s' w' Hin. apply Hb. constructor. assumption.
Qed.

(** How a loop can end when each turn returns, or raises within [P]. *)
Lemma for_each_raises {A St} (P : exn -> Prop) (l : list A)
    (body : A -> St -> io St) :
  (forall a s w, a ∈ l ->
     match (body a s w).1 with
     | Normal _ => True
     | Throw e => P e
     | SysExit _ => False
     end) ->
  forall s w,
    match (for_each l body s w).1 with
    | Normal _ => True
    | Throw e => P e
    | SysExit _ => False
    end.
Proof.
  induction l as [|a l IH]; intros Hb s w; [exact I|].
  cbn [for_each]. unfold io_bind.
  pose proof (Hb a s w ltac:(constructor)) as Ha.
  destruct (body a s w) as [[s1|e|code] w1]; cbn [fst] in *; try assumption.
  apply IH. intros a' s' w' Hin. apply Hb. constructor. assumption.
Qed.

End IoFacts.

(** ** The grid loops of the tile tool *)
Module TileRunFacts.
Import PyFloat Pillow Runtime GenerateTiles GridSpec TileToolSpec.
Import Vocabulary IoFacts TileNames.
Import RunVocabulary.

Lemma average_color_eval E cell :
  average_color E cell = Ok (resample_bilinear E cell (1, 1) 0 0).
Proof. reflexivity. Qed.

Lemma make_solid_tile_eval E c size :
  can_allocate E size size ->
  make_solid_tile E c (size, size)
  = Ok (mkRaster size size (fun _ _ => clip_color c)).
Proof. intros H. apply can_allocate_returns. assumption. Qed.

Lemma make_solid_tile_negative E c size :
  size < 0 -> make_solid_tile E c (size, size) = Raise ValueError.
Proof.
  intros H. unfold make_solid_tile, Image_new.
  destruct (Z.ltb_spec size 0) as [_|]; [reflexivity | lia].
Qed.

Lemma make_solid_tile_large E c size :
  2 ^ 31 <= size -> make_solid_tile E c (size, size) = Raise OverflowError.
Proof.
  intros H. unfold make_solid_tile, Image_new.
  destruct (Z.ltb_spec size 0) as [|_]; [lia|]. cbn [orb].
  destruct (Z.leb_spec (2 ^ 31) size) as [_|]; [reflexivity | lia].
Qed.

Lemma process_cell_eval E a img out_dir cell_w cell_h r c b tiles w :
  cell_bounds (width img) (height img) cell_w cell_h r c = Ok b ->
  process_cell E a img out_dir cell_w cell_h r c tiles w
  = cell_turn E (args.tile_size a) img out_dir (r, c, b) tiles w.
Proof.
  intros Hb. unfold process_cell, cell_turn.
  unfold mbind, io_mbind, io_bind, lift at 1. rewrite Hb.
  destruct (degenerate b); [reflexivity|].
  rewrite average_color_eval. unfold lift at 1.
  unfold make_solid_tile, lift at 1.
  destruct (Image_new _ _ _) as [tile|e]; [|reflexivity].
  unfold save, tile_path.
  destruct (save_error E _ _) as [[e leftover]|]; reflexivity.
Qed.

Lemma bind_singleton_fmap {A B} (g : A -> B) (l : list A) :
  (a ← l; [g a]) = g <$> l.
Proof.
  induction l as [|a l IH]; [reflexivity|].
  rewrite bind_cons, fmap_cons, IH. reflexivity.
Qed.

(** The two grid loops run [cell_turn] over the cells of the grid. *)
Lemma grid_loops_eval E a img out_dir cols rows tiles w :
  0 <= width img < 2 ^ 31 -> 0 <= height img < 2 ^ 31 ->
  1 <= cols <= 2 ^ 1022 -> 1 <= rows <= 2 ^ 1022 ->
  for_each (range rows) (fun r =>
    for_each (range cols) (fun c =>
      process_cell E a img out_dir (Fin (step (width img) cols))
        (Fin (step (height img) rows)) r c)) tiles w
  = for_each (grid_list (width img) (height img) cols rows)
      (cell_turn E (args.tile_size a) img out_dir) tiles w.
Proof.
  intros Hw Hh Hcols Hrows. unfold grid_list.
  rewrite (list_bind_ext _
             (fun r => (fun c => (r, c, cell_box (width img) (height img)
                                          cols rows r c)) <$> range cols)
             _ (range rows) (fun r => bind_singleton_fmap _ _) eq_refl).
  rewrite <- (for_each_nested (range rows) (fun _ => range cols)
                (fun r c => (r, c, cell_box (width img) (height img) cols rows r c))).
  apply for_each_ext. intros r s1 w1 Hr. apply elem_of_seqZ in Hr.
  apply for_each_ext. intros c s2 w2 Hc. apply elem_of_seqZ in Hc.
  apply process_cell_eval. apply cell_bounds_eval; lia.
Qed.

End TileRunFacts.

Module TileLoopFacts.
Import PyFloat Pillow Runtime GenerateTiles GridSpec TileToolSpec.
Import Vocabulary IoFacts TileNames TileRunFacts.
Import RunVocabulary.

Lemma pow2_1022_ge1 : 1 <= 2 ^ 1022.
Proof. apply (Z.pow_le_mono_r 2 0 1022); lia. Qed.

Lemma clamp_range n : n <= 2 ^ 1022 -> 1 <= Z.max 1 n <= 2 ^ 1022.
Proof. pose proof pow2_1022_ge1. lia. Qed.

(** [save_tiles] when the sizes are in range: the folder, the information
    line, the loops. *)
Lemma save_tiles_eval E a img w :
  in_range a img ->
  save_tiles E a img w
  = match makedirs_error E (out_dir_of E) with
    | Some e => (Throw e, w)
    | None =>
        match for_each
                (grid_list (width img) (height img)
                   (Z.max 1 (args.cols a)) (Z.max 1 (args.rows a)))
                (cell_turn E (args.tile_size a) img (out_dir_of E)) []
                (loop_start E a img w) with
        | (Normal tiles, w') => (Normal (out_dir_of E, tiles), w')
        | (Throw e, w') => (Throw e, w')
        | (SysExit code, w') => (SysExit code, w')
        end
    end.
Proof.
  intros (Hw & Hh & Hc & Hr). unfold save_tiles.
  rewrite !int_truediv_step by (try assumption; apply clamp_range; assumption).
  unfold mbind, io_mbind, lift at 1 2, io_bind at 1 2.
  unfold ensure_desktop_folder, mbind, io_mbind, io_bind at 1 2, makedirs.
  fold (out_dir_of E).
  destruct (makedirs_error E (out_dir_of E)) as [e|]; [reflexivity|].
  unfold mret, io_mret, io_ret, print, io_bind at 1.
  unfold io_bind.
  rewrite grid_loops_eval by (try assumption; apply clamp_range; assumption).
  reflexivity.
Qed.

(** [main] once the source is loaded. *)
Lemma main_eval E a img w :
  readable E a img ->
  main E a w
  = match save_tiles E a img w with
    | (Normal (out_dir, tiles), w') =>
        (_ ← save_preview E a out_dir tiles; print MsgDone) w'
    | (Throw e, w') => (Throw e, w')
    | (SysExit code, w') => (SysExit code, w')
    end.
Proof.
  intros [Hf Ho]. unfold main, load_source.
  unfold mbind, io_mbind, io_bind at 1 2 3. rewrite Hf. cbn [negb].
  unfold mret, io_mret, io_ret, try_except, lift. rewrite Ho.
  unfold io_bind.
  destruct (save_tiles E a img w) as [[[out_dir tiles]|e|code] w']; reflexivity.
Qed.

Section Cells.
Variable E : env.
Variable tile_size : Z.
Variable img : raster.
Variable out_dir : string.

Local Notation step_ := (cell_step E tile_size img out_dir).

Lemma cell_turn_benign x tiles w :
  can_allocate E tile_size tile_size ->
  (forall r c tile, save_error E (tile_path out_dir r c) tile = None) ->
  cell_turn E tile_size img out_dir x tiles w
  = (Normal (step_ (tiles, w) x).1, (step_ (tiles, w) x).2).
Proof.
  intros Hts Hsave. destruct x as [[r c] b]. unfold cell_turn, cell_step.
  destruct (degenerate b); [reflexivity|].
  rewrite (can_allocate_returns E _ _ _ Hts).
  rewrite Hsave. reflexivity.
Qed.

Lemma kept_snoc cells x :
  kept (cells ++ [x])
  = kept cells ++ (if degenerate x.2 then [] else [x]).
Proof.
  unfold kept. rewrite filter_app. f_equal.
  rewrite filter_cons, filter_nil. destruct (degenerate x.2).
  - rewrite decide_False by discriminate. reflexivity.
  - rewrite decide_True by reflexivity. reflexivity.
Qed.

Lemma skipped_snoc cells x :
  skipped (cells ++ [x])
  = skipped cells ++ (if degenerate x.2 then [x] else []).
Proof.
  unfold skipped. rewrite filter_app. f_equal.
  rewrite filter_cons, filter_nil. destruct (degenerate x.2).
  - rewrite decide_True by reflexivity. reflexivity.
  - rewrite decide_False by discriminate. reflexivity.
Qed.

Lemma elem_of_kept cells x :
  x ∈ kept cells <-> x ∈ cells /\ degenerate x.2 = false.
Proof. unfold kept. rewrite list_elem_of_filter. tauto. Qed.

(** The loops as a fold: the tiles, the log and the files they leave. *)
Lemma run_cells cells tiles w :
  (forall r c b b', (r, c, b) ∈ cells -> (r, c, b') ∈ cells -> b = b') ->
  let st := foldl step_ (tiles, w) cells in
  st.1 = tiles ++ ((fun x => cell_tile E tile_size img x.2) <$> kept cells) /\
  stdout st.2
  = stdout w ++ ((fun x => SkippingEmptyCell x.1.1 x.1.2) <$> skipped cells) /\
  dirs st.2 = dirs w /\ draws st.2 = draws w /\
  (forall r c b, (r, c, b) ∈ kept cells ->
     files st.2 !! tile_path out_dir r c
     = Some (PNG (cell_tile E tile_size img b))) /\
  (forall p, (forall r c b, (r, c, b) ∈ kept cells ->
                p <> tile_path out_dir r c) ->
     files st.2 !! p = files w !! p).
Proof.
  induction cells as [|x cells IH] using rev_ind; intros Hfun.
  - cbn [foldl fst snd]. unfold kept, skipped. rewrite !filter_nil, !fmap_nil, !app_nil_r.
    split; [reflexivity|]. split; [reflexivity|]. split; [reflexivity|].
    split; [reflexivity|]. split; [|reflexivity].
    intros r c b H. inversion H.
  - rewrite foldl_app. cbn [foldl].
    destruct IH as (Ht & Ho & Hd & Hdr & Hin & Hout).
    { intros r c b b' H1 H2. apply (Hfun r c); apply elem_of_app; left; assumption. }
    destruct (foldl step_ (tiles, w) cells) as [tiles1 w1]. cbn [fst snd] in *.
    rewrite kept_snoc, skipped_snoc.
    destruct x as [[rx cx] bx]. unfold cell_step. cbn [fst snd].
    destruct (degenerate bx) eqn:Edeg; cbn [fst snd stdout dirs draws files].
    + rewrite !app_nil_r, fmap_app, app_assoc, Ho, Ht.
      split; [reflexivity|]. split; [reflexivity|]. split; [assumption|].
      split; [assumption|]. split; assumption.
    + rewrite !app_nil_r, fmap_app, app_assoc, Ho, Ht.
      split; [reflexivity|]. split; [reflexivity|]. split; [assumption|].
      split; [assumption|]. split.
      * intros r c b Hk. apply elem_of_app in Hk as [Hk|Hk].
        -- destruct (decide (tile_path out_dir rx cx = tile_path out_dir r c))
             as [Heq|Hne].
           ++ apply path_join_inj in Heq; [|apply tile_name_relative..].
              apply tile_name_inj in Heq as [-> ->].
              apply elem_of_kept in Hk as [Hk _].
              rewrite (Hfun r c b bx); [apply lookup_insert_eq| |].
              ** apply elem_of_app. left. assumption.
              ** apply elem_of_app. right. constructor.
           ++ rewrite lookup_insert_ne by assumption. apply Hin. assumption.
        -- apply list_elem_of_singleton in Hk. injection Hk as -> -> ->.
           apply lookup_insert_eq.
      * intros p Hp. rewrite lookup_insert_ne.
        -- apply Hout. intros r c b Hk. apply (Hp r c b).
           apply elem_of_app. left. assumption.
        -- intros Heq. apply (Hp rx cx bx); [|symmetry; assumption].
           apply elem_of_app. right. constructor.
Qed.

End Cells.

Lemma kept_skipped_length cells :
  (length (kept cells) + length (skipped cells) = length cells)%nat.
Proof.
  unfold kept, skipped. induction cells as [|x cells IH]; [reflexivity|].
  rewrite !filter_cons. destruct (degenerate x.2).
  - rewrite decide_False by discriminate. rewrite decide_True by reflexivity.
    cbn [length]. lia.
  - rewrite decide_True by reflexivity. rewrite decide_False by discriminate.
    cbn [length]. lia.
Qed.

(** The positions of [grid_list] determine the bounds. *)
Lemma grid_list_functional w h cols rows r c b b' :
  (r, c, b) ∈ grid_list w h cols rows -> (r, c, b') ∈ grid_list w h cols rows ->
  b = b'.
Proof.
  intros H1 H2. apply elem_of_grid_list in H1 as (_ & _ & ->).
  apply elem_of_grid_list in H2 as (_ & _ & ->). reflexivity.
Qed.

(** The tile loop when the folder can be made and every save succeeds. *)
Lemma save_tiles_benign E a img w :
  in_range a img -> can_allocate E (args.tile_size a) (args.tile_size a) ->
  makedirs_error E (out_dir_of E) = None ->
  (forall r c tile, save_error E (tile_path (out_dir_of E) r c) tile = None) ->
  let cells := grid_list (width img) (height img)
                 (Z.max 1 (args.cols a)) (Z.max 1 (args.rows a)) in
  let st := foldl (cell_step E (args.tile_size a) img (out_dir_of E))
              ([], loop_start E a img w) cells in
  save_tiles E a img w = (Normal (out_dir_of E, st.1), st.2).
Proof.
  intros Hrange Hts Hmk Hsave cells st.
  rewrite save_tiles_eval by assumption. rewrite Hmk.
  rewrite (for_each_pure _ _ (cell_step E (args.tile_size a) img (out_dir_of E))).
  - reflexivity.
  - intros x s w' _. apply cell_turn_benign; assumption.
Qed.

End TileLoopFacts.

(** ** What the tile loop writes *)
Module TileLoopSpec.
Import PyFloat Pillow Runtime GenerateTiles GridSpec TileToolSpec.
Import Vocabulary IoFacts TileNames TileRunFacts TileLoopFacts.
Import RunVocabulary.

Lemma cell_tile_made E tile_size img b :
  can_allocate E tile_size tile_size ->
  exists col,
    average_color E (crop img b) = Ok col /\
    make_solid_tile E col (tile_size, tile_size)
    = Ok (cell_tile E tile_size img b).
Proof.
  intros Hts. eexists. split; [apply average_color_eval|].
  rewrite make_solid_tile_eval by assumption. reflexivity.
Qed.

(** X2.  When the sizes are in range, the tile size is from 1 to 2^31 - 1
    and a tile can be allocated, the folder can be made and no save of a
    tile fails, the tile loop returns:
    its tiles are, in the order of the grid, those of the cells that are not
    degenerate, each made by [make_solid_tile] from the [average_color] of
    the crop of its cell; the file [tile_r{r}_c{c}.png] of each such cell
    holds its tile; and every other path holds what it held. *)
Theorem tile_loop_writes_kept_cells (E : env) (a : args.t) (img : raster)
    (w : world) :
  in_range a img -> 1 <= args.tile_size a ->
  can_allocate E (args.tile_size a) (args.tile_size a) ->
  makedirs_error E (out_dir_of E) = None ->
  (forall r c tile, save_error E (tile_path (out_dir_of E) r c) tile = None) ->
  exists cells tiles w',
    grid_cells (width img) (height img)
      (Z.max 1 (args.cols a)) (Z.max 1 (args.rows a)) = Ok cells /\
    save_tiles E a img w = (Normal (out_dir_of E, tiles), w') /\
    Forall2 (fun x tile =>
               exists col,
                 average_color E (crop img x.2) = Ok col /\
                 make_solid_tile E col (args.tile_size a, args.tile_size a)
                 = Ok tile)
      (kept cells) tiles /\
    (forall r c b, (r, c, b) ∈ cells -> degenerate b = false ->
       exists col tile,
         average_color E (crop img b) = Ok col /\
         make_solid_tile E col (args.tile_size a, args.tile_size a) = Ok tile /\
         files w' !! path_join (out_dir_of E) (tile_name r c)
         = Some (PNG tile)) /\
    (forall p,
       (forall r c b, (r, c, b) ∈ cells -> degenerate b = false ->
          p <> path_join (out_dir_of E) (tile_name r c)) ->
       files w' !! p = files w !! p).
Proof.
  intros Hrange Hts1 Hts Hmk Hsave.
  pose proof (save_tiles_benign E a img w Hrange Hts Hmk Hsave) as Hrun.
  cbv zeta in Hrun.
  destruct Hrange as (Hw & Hh & Hc & Hr).
  set (cells := grid_list (width img) (height img)
                  (Z.max 1 (args.cols a)) (Z.max 1 (args.rows a))) in *.
  destruct (run_cells E (args.tile_size a) img (out_dir_of E) cells []
              (loop_start E a img w))
    as (Ht & _ & _ & _ & Hin & Hout).
  { apply grid_list_functional. }
  destruct (foldl _ _ cells) as [tiles w']. cbn [fst snd] in *.
  exists cells, tiles, w'.
  split; [apply grid_cells_eval; try assumption; apply clamp_range; assumption|].
  split; [assumption|].
  split.
  { rewrite Ht. cbn [app]. apply Forall2_fmap_r, Forall_Forall2_diag.
    apply Forall_forall. intros x _. apply cell_tile_made. assumption. }
  split.
  { intros r c b Hcell Hdeg.
    destruct (cell_tile_made E (args.tile_size a) img b Hts) as (col & Hav & Hmake).
    exists col, (cell_tile E (args.tile_size a) img b).
    split; [assumption|]. split; [assumption|].
    apply (Hin r c b). apply elem_of_kept. split; assumption. }
  intros p Hp. apply Hout. intros r c b Hk.
  apply elem_of_kept in Hk as [Hcell Hdeg]. apply (Hp r c b); assumption.
Qed.

Lemma tile_loop_writes_kept_cells_witness :
  exists cells tiles w',
    grid_cells (width sample_image) (height sample_image)
      (Z.max 1 (args.cols (sample_args "a.png" 8)))
      (Z.max 1 (args.rows (sample_args "a.png" 8))) = Ok cells /\
    save_tiles sample_env (sample_args "a.png" 8) sample_image empty_world
    = (Normal (out_dir_of sample_env, tiles), w') /\
    Forall2 (fun x tile =>
               exists col,
                 average_color sample_env (crop sample_image x.2) = Ok col /\
                 make_solid_tile sample_env col
                   (args.tile_size (sample_args "a.png" 8),
                    args.tile_size (sample_args "a.png" 8))
                 = Ok tile)
      (kept cells) tiles /\
    (forall r c b, (r, c, b) ∈ cells -> degenerate b = false ->
       exists col tile,
         average_color sample_env (crop sample_image b) = Ok col /\
         make_solid_tile sample_env col
           (args.tile_size (sample_args "a.png" 8),
            args.tile_size (sample_args "a.png" 8)) = Ok tile /\
         files w' !! path_join (out_dir_of sample_env) (tile_name r c)
         = Some (PNG tile)) /\
    (forall p,
       (forall r c b, (r, c, b) ∈ cells -> degenerate b = false ->
          p <> path_join (out_dir_of sample_env) (tile_name r c)) ->
       files w' !! p = files empty_world !! p).
Proof.
  apply (tile_loop_writes_kept_cells sample_env (sample_args "a.png" 8)
           sample_image empty_world).
  - unfold in_range. cbn [width height sample_image args.cols args.rows sample_args].
    lia.
  - cbn [args.tile_size sample_args]. lia.
  - split; [|split]; [vm_compute; intuition discriminate..|reflexivity].
  - reflexivity.
  - intros r c tile. reflexivity.
Defined.

(** X3.  In the same runs the folder exists when the loop ends and no
    directory has been removed; the loop prints the line of the source,
    then one line [Skipping empty cell] for each degenerate cell, in the
    order of the grid, and nothing else; and the tiles and the skipped
    cells are together as many as the cells of the grid. *)
Theorem tile_loop_log (E : env) (a : args.t) (img : raster) (w : world) :
  in_range a img -> 1 <= args.tile_size a ->
  can_allocate E (args.tile_size a) (args.tile_size a) ->
  makedirs_error E (out_dir_of E) = None ->
  (forall r c tile, save_error E (tile_path (out_dir_of E) r c) tile = None) ->
  exists cells tiles w',
    grid_cells (width img) (height img)
      (Z.max 1 (args.cols a)) (Z.max 1 (args.rows a)) = Ok cells /\
    save_tiles E a img w = (Normal (out_dir_of E, tiles), w') /\
    stdout w'
    = stdout w
      ++ [SourceInfo (args.source a) (width img) (height img)
            (Z.max 1 (args.cols a)) (Z.max 1 (args.rows a)) (out_dir_of E)]
      ++ ((fun x => SkippingEmptyCell x.1.1 x.1.2) <$> skipped cells) /\
    out_dir_of E ∈ dirs w' /\ dirs w ⊆ dirs w' /\
    len tiles + len (skipped cells)
    = Z.max 1 (args.cols a) * Z.max 1 (args.rows a).
Proof.
  intros Hrange Hts1 Hts Hmk Hsave.
  pose proof (save_tiles_benign E a img w Hrange Hts Hmk Hsave) as Hrun.
  cbv zeta in Hrun.
  destruct Hrange as (Hw & Hh & Hc & Hr).
  set (cells := grid_list (width img) (height img)
                  (Z.max 1 (args.cols a)) (Z.max 1 (args.rows a))) in *.
  destruct (run_cells E (args.tile_size a) img (out_dir_of E) cells []
              (loop_start E a img w))
    as (Ht & Ho & Hd & _ & _ & _).
  { apply grid_list_functional. }
  destruct (foldl _ _ cells) as [tiles w']. cbn [fst snd] in *.
  exists cells, tiles, w'.
  split; [apply grid_cells_eval; try assumption; apply clamp_range; assumption|].
  split; [assumption|].
  split; [rewrite Ho; cbn [loop_start stdout]; rewrite <- app_assoc; reflexivity|].
  split.
  { rewrite Hd. cbn [loop_start dirs]. apply elem_of_union. left.
    apply elem_of_singleton. reflexivity. }
  split; [rewrite Hd; cbn [loop_start dirs]; apply union_subseteq_r|].
  rewrite Ht. cbn [app]. unfold len. rewrite length_fmap.
  pose proof (grid_list_length (width img) (height img)
                (Z.max 1 (args.cols a)) (Z.max 1 (args.rows a))
                ltac:(lia) ltac:(lia)) as Hlen.
  fold cells in Hlen. unfold len in Hlen. rewrite <- Hlen.
  pose proof (kept_skipped_length cells). lia.
Qed.

Lemma tile_loop_log_witness :
  exists cells tiles w',
    grid_cells (width sample_image) (height sample_image)
      (Z.max 1 (args.cols (sample_args "a.png" 8)))
      (Z.max 1 (args.rows (sample_args "a.png" 8))) = Ok cells /\
    save_tiles sample_env (sample_args "a.png" 8) sample_image empty_world
    = (Normal (out_dir_of sample_env, tiles), w') /\
    stdout w'
    = stdout empty_world
      ++ [SourceInfo (args.source (sample_args "a.png" 8))
            (width sample_image) (height sample_image)
            (Z.max 1 (args.cols (sample_args "a.png" 8)))
            (Z.max 1 (args.rows (sample_args "a.png" 8)))
            (out_dir_of sample_env)]
      ++ ((fun x => SkippingEmptyCell x.1.1 x.1.2) <$> skipped cells) /\
    out_dir_of sample_env ∈ dirs w' /\ dirs empty_world ⊆ dirs w' /\
    len tiles + len (skipped cells)
    = Z.max 1 (args.cols (sample_args "a.png" 8))
      * Z.max 1 (args.rows (sample_args "a.png" 8)).
Proof.
  apply (tile_loop_log sample_env (sample_args "a.png" 8)
           sample_image empty_world).
  - unfold in_range. cbn [width height sample_image args.cols args.rows sample_args].
    lia.
  - cbn [args.tile_size sample_args]. lia.
  - split; [|split]; [vm_compute; intuition discriminate..|reflexivity].
  - reflexivity.
  - intros r c tile. reflexivity.
Defined.

End TileLoopSpec.

(** ** What the tile tool leaves alone *)
Module TileFrameSpec.
Import PyFloat Pillow Runtime GenerateTiles GridSpec TileToolSpec.
Import Vocabulary IoFacts TileNames TileRunFacts TileLoopFacts.
Import RunVocabulary.

Lemma union_keeps (out_dir : string) (d : gset string) :
  d ⊆ {[out_dir]} ∪ d.
Proof. apply union_subseteq_r. Qed.

Lemma writes_within_refl out_dir w : writes_within out_dir w w.
Proof.
  split; [reflexivity|]. split; [reflexivity|].
  split; [apply union_keeps|]. split; reflexivity.
Qed.

Lemma writes_within_trans out_dir w1 w2 w3 :
  writes_within out_dir w1 w2 -> writes_within out_dir w2 w3 ->
  writes_within out_dir w1 w3.
Proof.
  intros (Hf1 & Hd1 & He1 & Ho1 & Hr1) (Hf2 & Hd2 & He2 & Ho2 & Hr2).
  split.
  { intros p Hp Ht. rewrite Hf2, Hf1 by assumption. reflexivity. }
  split; [etrans; eassumption|].
  split.
  { intros p Hp. apply He2 in Hp. apply elem_of_union in Hp as [Hp|Hp].
    - apply elem_of_union. left. assumption.
    - apply He1. assumption. }
  split; [etrans; eassumption | congruence].
Qed.

Lemma bind_keeps {A B} (R : world -> world -> Prop) (m : io A)
    (k : A -> io B) w :
  (forall w1 w2 w3, R w1 w2 -> R w2 w3 -> R w1 w3) ->
  R w (m w).2 ->
  (forall a w1, m w = (Normal a, w1) -> R w1 (k a w1).2) ->
  R w ((m ≫= k) w).2.
Proof.
  intros Htrans Hm Hk. unfold mbind, io_mbind, io_bind.
  destruct (m w) as [[a|e|code] w1]; cbn [snd] in *; try assumption.
  apply Htrans with w1; [assumption | apply Hk; reflexivity].
Qed.

Lemma writes_within_print out_dir msg w :
  writes_within out_dir w (print msg w).2.
Proof.
  split; [reflexivity|]. split; [reflexivity|]. split; [apply union_keeps|].
  split; [apply prefix_app_r; reflexivity | reflexivity].
Qed.

Lemma writes_within_lift {A} out_dir (r : res A) w :
  writes_within out_dir w (lift r w).2.
Proof. unfold lift. destruct r; apply writes_within_refl. Qed.

Lemma writes_within_save_tile E out_dir tile r c w :
  writes_within out_dir w (save E tile (tile_path out_dir r c) w).2.
Proof.
  unfold save. destruct (save_error E _ tile) as [[e leftover]|]; cbn [snd].
  - split.
    { intros p _ Hp. cbn [files]. apply lookup_partial_alter_ne. apply not_eq_sym, Hp. }
    split; [reflexivity|]. split; [apply union_keeps|]. split; reflexivity.
  - split.
    { intros p _ Hp. cbn [files]. apply lookup_insert_ne. apply not_eq_sym, Hp. }
    split; [reflexivity|]. split; [apply union_keeps|]. split; reflexivity.
Qed.

Lemma writes_within_save_preview_file E out_dir preview w :
  writes_within out_dir w
    (save E preview (path_join out_dir "preview.png") w).2.
Proof.
  unfold save. destruct (save_error E _ preview) as [[e leftover]|]; cbn [snd].
  - split.
    { intros p Hp _. cbn [files]. apply lookup_partial_alter_ne. apply not_eq_sym, Hp. }
    split; [reflexivity|]. split; [apply union_keeps|]. split; reflexivity.
  - split.
    { intros p Hp _. cbn [files]. apply lookup_insert_ne. apply not_eq_sym, Hp. }
    split; [reflexivity|]. split; [apply union_keeps|]. split; reflexivity.
Qed.

Lemma writes_within_process_cell E a img out_dir cell_w cell_h r c tiles w :
  writes_within out_dir w
    (process_cell E a img out_dir cell_w cell_h r c tiles w).2.
Proof.
  unfold process_cell.
  apply bind_keeps; [apply writes_within_trans | apply writes_within_lift|].
  intros b w1 _. destruct (degenerate b).
  - apply bind_keeps; [apply writes_within_trans | apply writes_within_print|].
    intros _ w2 _. apply writes_within_refl.
  - apply bind_keeps; [apply writes_within_trans | apply writes_within_lift|].
    intros col w2 _.
    apply bind_keeps; [apply writes_within_trans | apply writes_within_lift|].
    intros tile w3 _.
    apply bind_keeps; [apply writes_within_trans | apply writes_within_save_tile|].
    intros _ w4 _. apply writes_within_refl.
Qed.

Lemma writes_within_load_source E a out_dir w :
  writes_within out_dir w (load_source E a w).2.
Proof.
  unfold load_source.
  apply bind_keeps; [apply writes_within_trans| |].
  - destruct (negb (isfile E (args.source a))).
    + apply bind_keeps; [apply writes_within_trans | apply writes_within_print|].
      intros _ w1 _. apply writes_within_refl.
    + apply writes_within_refl.
  - intros _ w1 _. unfold try_except, lift.
    destruct (open_rgb E (args.source a)) as [img|e]; [apply writes_within_refl|].
    apply bind_keeps; [apply writes_within_trans | apply writes_within_print|].
    intros _ w2 _. apply writes_within_refl.
Qed.

Lemma writes_within_save_tiles E a img w :
  writes_within (out_dir_of E) w (save_tiles E a img w).2.
Proof.
  unfold save_tiles.
  apply bind_keeps; [apply writes_within_trans | apply writes_within_lift|].
  intros cell_w w1 _.
  apply bind_keeps; [apply writes_within_trans | apply writes_within_lift|].
  intros cell_h w2 _.
  apply bind_keeps; [apply writes_within_trans| |].
  - unfold ensure_desktop_folder. fold (out_dir_of E).
    apply bind_keeps; [apply writes_within_trans| |].
    + unfold makedirs. destruct (makedirs_error E (out_dir_of E));
        [apply writes_within_refl|].
      split; [reflexivity|]. split; [apply union_keeps|].
      split; [reflexivity|]. split; reflexivity.
    + intros _ w3 _. apply writes_within_refl.
  - intros out_dir w3 Hdir.
    assert (out_dir = out_dir_of E) as ->.
    { unfold ensure_desktop_folder, mbind, io_mbind, io_bind, makedirs in Hdir.
      fold (out_dir_of E) in Hdir.
      destruct (makedirs_error E (out_dir_of E)); [discriminate|].
      injection Hdir as <- _. reflexivity. }
    apply bind_keeps; [apply writes_within_trans | apply writes_within_print|].
    intros _ w4 _.
    apply bind_keeps; [apply writes_within_trans| |].
    + apply for_each_preserves;
        [apply writes_within_refl | apply writes_within_trans|].
      intros r tiles w5 _.
      apply for_each_preserves;
        [apply writes_within_refl | apply writes_within_trans|].
      intros c tiles' w6 _. apply writes_within_process_cell.
    + intros tiles w5 _. apply writes_within_refl.
Qed.

Lemma writes_within_save_preview E a out_dir tiles w :
  writes_within out_dir w (save_preview E a out_dir tiles w).2.
Proof.
  unfold save_preview, try_except, mbind, io_mbind, io_bind, lift.
  destruct (build_preview _ _ _ _ _ _) as [preview|e];
    [|apply writes_within_print].
  pose proof (writes_within_save_preview_file E out_dir preview w) as Hs.
  destruct (save E preview (path_join out_dir "preview.png") w)
    as [[[]|e|code] w1] eqn:Es; cbn [snd] in Hs.
  - apply writes_within_trans with w1; [assumption | apply writes_within_print].
  - apply writes_within_trans with w1; [assumption | apply writes_within_print].
  - assumption.
Qed.

(** X4.  Whatever the arguments, the environment and the way the run ends,
    the tile tool changes no file but the tiles and the preview of its own
    folder [~/Desktop/image_tiles_<timestamp>], removes no directory, only
    adds lines to the output, and draws no random number. *)
Theorem tile_tool_writes_only_its_folder (E : env) (a : args.t) (w : world) :
  let w' := (run (main E a) w).2 in
  (forall p,
     p <> path_join (out_dir_of E) "preview.png" ->
     (forall r c, p <> path_join (out_dir_of E) (tile_name r c)) ->
     files w' !! p = files w !! p) /\
  dirs w ⊆ dirs w' /\
  stdout w `prefix_of` stdout w' /\
  draws w' = draws w.
Proof.
  cbv zeta.
  assert (H : writes_within (out_dir_of E) w (main E a w).2).
  { unfold main.
    apply bind_keeps; [apply writes_within_trans | apply writes_within_load_source|].
    intros img w1 _.
    apply bind_keeps; [apply writes_within_trans | apply writes_within_save_tiles|].
    intros [out_dir tiles] w2 Ht.
    assert (out_dir = out_dir_of E) as ->.
    { unfold save_tiles, mbind, io_mbind, io_bind, lift in Ht.
      destruct (int_truediv _ _); [|discriminate].
      destruct (int_truediv _ _); [|discriminate].
      unfold ensure_desktop_folder, mbind, io_mbind, io_bind, makedirs in Ht.
      fold (out_dir_of E) in Ht.
      destruct (makedirs_error E (out_dir_of E)); [discriminate|].
      cbn [mret io_mret io_ret print] in Ht.
      destruct (for_each _ _ _ _) as [[tiles'|e|code] w3]; try discriminate.
      injection Ht as <- _ _. reflexivity. }
    apply bind_keeps; [apply writes_within_trans | apply writes_within_save_preview|].
    intros _ w3 _. apply writes_within_print. }
  assert (H' : (run (main E a) w).2 = (main E a w).2).
  { unfold run. destruct (main E a w) as [[[]|e|code] w']; reflexivity. }
  rewrite H'. destruct H as (Hf & Hd & _ & Ho & Hr).
  split; [exact Hf|]. split; [exact Hd|]. split; [exact Ho | exact Hr].
Qed.

End TileFrameSpec.

(** ** How the tile tool can fail *)
Module TileFailureSpec.
Import PyFloat Pillow Runtime GenerateTiles GridFacts LoopFacts GridSpec TileToolSpec.
Import Vocabulary IoFacts TileNames TileRunFacts TileLoopFacts.
Import RunVocabulary.

Lemma save_preview_returns E a out_dir tiles w :
  exists w', save_preview E a out_dir tiles w = (Normal (), w').
Proof.
  unfold save_preview, try_except, mbind, io_mbind, io_bind, lift, save, print.
  destruct (build_preview _ _ _ _ _ _) as [preview|e]; [|eexists; reflexivity].
  destruct (save_error E _ preview) as [[e leftover]|]; eexists; reflexivity.
Qed.

(** Once the tiles are written the run ends with exit code 0. *)
Lemma main_after_tiles E a img w out_dir tiles w1 :
  readable E a img ->
  save_tiles E a img w = (Normal (out_dir, tiles), w1) ->
  exists w2, run (main E a) w = (Exited 0, w2).
Proof.
  intros Hread Ht. unfold run. rewrite (main_eval E a img w Hread), Ht.
  destruct (save_preview_returns E a out_dir tiles w1) as [w2 Hs].
  rewrite (bind_normal _ _ _ _ _ Hs). eexists. reflexivity.
Qed.

(** X5.  With a readable source and sizes in range, a run of the tile tool
    that ends on an uncaught exception ends on the error of making the
    folder, on the [ValueError] of a negative tile size, on the
    [OverflowError] of a tile size of 2^31 or more, on the error of
    allocating a tile, or on the error of saving a tile: the preview step
    never ends a run this way. *)
Theorem uncaught_errors_of_the_tile_tool (E : env) (a : args.t)
    (img : raster) (w w' : world) (e : exn) :
  readable E a img -> in_range a img ->
  run (main E a) w = (Uncaught e, w') ->
  makedirs_error E (out_dir_of E) = Some e \/
  (args.tile_size a < 0 /\ e = ValueError) \/
  (2 ^ 31 <= args.tile_size a /\ e = OverflowError) \/
  new_error E (args.tile_size a, args.tile_size a) = Some e \/
  (exists r c tile leftover,
     save_error E (path_join (out_dir_of E) (tile_name r c)) tile
     = Some (e, leftover)).
Proof.
  intros Hread Hrange Hrun.
  destruct (save_tiles E a img w) as [[[out_dir tiles]|e1|code] w1] eqn:Ht.
  - destruct (main_after_tiles E a img w out_dir tiles w1 Hread Ht) as [w2 H2].
    rewrite H2 in Hrun. discriminate.
  - assert (e1 = e) as ->.
    { unfold run in Hrun. rewrite (main_eval E a img w Hread), Ht in Hrun.
      injection Hrun as -> _. reflexivity. }
    rewrite save_tiles_eval in Ht by assumption.
    destruct (makedirs_error E (out_dir_of E)) as [e2|].
    { left. injection Ht as -> _. reflexivity. }
    right.
    pose proof (for_each_raises
      (fun e => (args.tile_size a < 0 /\ e = ValueError) \/
                (2 ^ 31 <= args.tile_size a /\ e = OverflowError) \/
                new_error E (args.tile_size a, args.tile_size a) = Some e \/
                exists r c tile leftover,
                  save_error E (path_join (out_dir_of E) (tile_name r c)) tile
                  = Some (e, leftover))
      (grid_list (width img) (height img)
         (Z.max 1 (args.cols a)) (Z.max 1 (args.rows a)))
      (cell_turn E (args.tile_size a) img (out_dir_of E))) as Hloop.
    cbv beta in Hloop.
    specialize (Hloop ltac:(
      intros [[r c] b] s w0 _; unfold cell_turn;
      destruct (degenerate b); [exact I|];
      destruct (Image_new _ _ _) as [tile|e3] eqn:En;
        [destruct (save_error E (tile_path (out_dir_of E) r c) tile)
           as [[e4 leftover]|] eqn:Es; [|exact I];
         right; right; right; exists r, c, tile, leftover; exact Es
        |apply Image_new_raises in En as [[H ->]|[[H ->]|H]];
           [left; split; [lia | reflexivity]
           |right; left; split; [lia | reflexivity]
           |right; right; left; exact H]])
      [] (loop_start E a img w)).
    destruct (for_each _ _ _ _) as [[tiles|e2|code] w2]; try discriminate.
    injection Ht as -> _. exact Hloop.
  - exfalso. rewrite save_tiles_eval in Ht by assumption.
    destruct (makedirs_error E (out_dir_of E)) as [e2|]; [discriminate|].
    pose proof (for_each_raises (fun _ => True)
      (grid_list (width img) (height img)
         (Z.max 1 (args.cols a)) (Z.max 1 (args.rows a)))
      (cell_turn E (args.tile_size a) img (out_dir_of E))) as Hloop.
    specialize (Hloop ltac:(
      intros [[r c] b] s w0 _; unfold cell_turn;
      destruct (degenerate b); [exact I|];
      destruct (Image_new _ _ _) as [tile|e3]; [|exact I];
      destruct (save_error E _ _) as [[e4 leftover]|]; exact I)
      [] (loop_start E a img w)).
    destruct (for_each _ _ _ _) as [[tiles|e2|code'] w2]; try discriminate.
    exact Hloop.
Qed.

Lemma uncaught_errors_of_the_tile_tool_witness :
  let a := GenerateTiles.args.mk "a.png" 2 2 (-1) 8 in
  makedirs_error sample_env (out_dir_of sample_env) = Some ValueError \/
  (args.tile_size a < 0 /\ ValueError = ValueError) \/
  (2 ^ 31 <= args.tile_size a /\ ValueError = OverflowError) \/
  new_error sample_env (args.tile_size a, args.tile_size a)
  = Some ValueError \/
  (exists r c tile leftover,
     save_error sample_env
       (path_join (out_dir_of sample_env) (tile_name r c)) tile
     = Some (ValueError, leftover)).
Proof.
  intros a.
  apply (uncaught_errors_of_the_tile_tool sample_env a sample_image
           empty_world (run (main sample_env a) empty_world).2 ValueError).
  - split; reflexivity.
  - unfold in_range. cbn [width height sample_image args.cols args.rows a].
    lia.
  - vm_compute. reflexivity.
Defined.

(** X6.  When the folder cannot be made the run ends on that error as an
    uncaught exception: no file has been written and nothing has been
    printed, not even the line of the source. *)
Theorem folder_error_stops_the_run (E : env) (a : args.t) (img : raster)
    (w : world) (e : exn) :
  readable E a img -> in_range a img ->
  makedirs_error E (out_dir_of E) = Some e ->
  exists w',
    run (main E a) w = (Uncaught e, w') /\
    files w' = files w /\ stdout w' = stdout w.
Proof.
  intros Hread Hrange Hmk. exists w. unfold run.
  rewrite (main_eval E a img w Hread), save_tiles_eval by assumption.
  rewrite Hmk. split; [reflexivity|]. split; reflexivity.
Qed.

Lemma folder_error_stops_the_run_witness :
  exists w',
    run (main no_folder_env (sample_args "a.png" 8)) empty_world
    = (Uncaught OSError, w') /\
    files w' = files empty_world /\ stdout w' = stdout empty_world.
Proof.
  apply (folder_error_stops_the_run no_folder_env (sample_args "a.png" 8)
           sample_image empty_world OSError).
  - split; reflexivity.
  - unfold in_range. cbn [width height sample_image args.cols args.rows sample_args].
    lia.
  - reflexivity.
Defined.

End TileFailureSpec.

Module TileCrashSpec.
Import PyFloat Pillow Runtime GenerateTiles GridFacts LoopFacts GridSpec TileToolSpec.
Import Vocabulary IoFacts TileNames TileRunFacts TileLoopFacts.
Import TileFailureSpec.
Import RunVocabulary.

(** A list with an element that is kept starts with skipped cells up to
    the first kept one. *)
Lemma first_kept (cells : list (Z * Z * box)) :
  (exists x, x ∈ cells /\ degenerate x.2 = false) ->
  exists l1 x l2,
    cells = l1 ++ x :: l2 /\
    Forall (fun y => degenerate y.2 = true) l1 /\ degenerate x.2 = false.
Proof.
  induction cells as [|y cells IH]; intros (x & Hin & Hx); [inversion Hin|].
  destruct (degenerate y.2) eqn:Ey.
  - apply elem_of_cons in Hin as [->|Hin]; [congruence|].
    destruct IH as (l1 & x' & l2 & -> & Hall & Hx'); [exists x; auto|].
    exists (y :: l1), x', l2. split; [reflexivity|].
    split; [constructor; assumption | assumption].
  - exists [], y, cells. split; [reflexivity|]. split; [constructor | assumption].
Qed.

(** A grid over an image with a pixel has a cell that is kept. *)
Lemma grid_has_kept_cell w h cols rows :
  1 <= w < 2 ^ 31 -> 1 <= h < 2 ^ 31 ->
  1 <= cols <= 2 ^ 1022 -> 1 <= rows <= 2 ^ 1022 ->
  exists x, x ∈ grid_list w h cols rows /\ degenerate x.2 = false.
Proof.
  intros Hw Hh Hcols Hrows.
  destruct (step_of_point (edge (step w cols)) cols 0) as (c & Hc & Hxc).
  { lia. }
  { rewrite edge_0, edge_last by lia. lia. }
  destruct (step_of_point (edge (step h rows)) rows 0) as (r & Hr & Hyr).
  { lia. }
  { rewrite edge_0, edge_last by lia. lia. }
  exists (r, c, cell_box w h cols rows r c).
  split; [apply elem_of_grid_list; auto|].
  unfold degenerate, cell_box. cbn [snd].
  apply orb_false_intro; apply Z.leb_gt; lia.
Qed.

(** Skipped cells only print. *)
Lemma skipped_cells_run E tile_size img out_dir l tiles w :
  Forall (fun y : Z * Z * box => degenerate y.2 = true) l ->
  for_each l (cell_turn E tile_size img out_dir) tiles w
  = (Normal tiles,
     mkWorld (files w) (dirs w)
       (stdout w ++ ((fun x => SkippingEmptyCell x.1.1 x.1.2) <$> l))
       (draws w)).
Proof.
  intros Hall. revert w. induction Hall as [|[[r c] b] l Hy Hall IH]; intros w.
  - cbn [for_each fmap list_fmap]. unfold io_ret. rewrite app_nil_r.
    destruct w; reflexivity.
  - cbn [for_each]. unfold io_bind. cbn [snd] in Hy.
    unfold cell_turn at 1. rewrite Hy. rewrite IH.
    cbn [files dirs stdout draws]. rewrite fmap_cons, <- app_assoc. reflexivity.
Qed.

(** X7.  With a negative tile size, a readable source of at least one pixel
    and sizes in range, the run makes the folder and then ends on an
    uncaught [ValueError] at the first cell that is not degenerate: the
    folder exists and no file has been written. *)
Theorem negative_tile_size_stops_the_run (E : env) (a : args.t)
    (img : raster) (w : world) :
  readable E a img -> in_range a img ->
  1 <= width img -> 1 <= height img ->
  args.tile_size a < 0 ->
  makedirs_error E (out_dir_of E) = None ->
  exists w',
    run (main E a) w = (Uncaught ValueError, w') /\
    files w' = files w /\ out_dir_of E ∈ dirs w'.
Proof.
  intros Hread Hrange Hw1 Hh1 Hts Hmk. unfold run.
  rewrite (main_eval E a img w Hread), save_tiles_eval by assumption.
  rewrite Hmk. destruct Hrange as (Hw & Hh & Hc & Hr).
  destruct (first_kept (grid_list (width img) (height img)
              (Z.max 1 (args.cols a)) (Z.max 1 (args.rows a))))
    as (l1 & [[r c] b] & l2 & -> & Hall & Hx).
  { apply grid_has_kept_cell; try lia; apply clamp_range; assumption. }
  rewrite for_each_app. unfold io_bind.
  rewrite skipped_cells_run by assumption.
  cbn [for_each]. unfold io_bind. cbn [snd] in Hx.
  unfold cell_turn at 1. rewrite Hx. unfold Image_new.
  destruct (Z.ltb_spec (args.tile_size a) 0) as [_|]; [|lia]. cbn [orb].
  eexists. split; [reflexivity|]. split; [reflexivity|].
  cbn [dirs loop_start]. apply elem_of_union. left.
  apply elem_of_singleton. reflexivity.
Qed.

Lemma negative_tile_size_stops_the_run_witness :
  let a := GenerateTiles.args.mk "a.png" 2 2 (-1) 8 in
  exists w',
    run (main sample_env a) empty_world = (Uncaught ValueError, w') /\
    files w' = files empty_world /\ out_dir_of sample_env ∈ dirs w'.
Proof.
  intros a.
  apply (negative_tile_size_stops_the_run sample_env a sample_image
           empty_world).
  - split; reflexivity.
  - unfold in_range. cbn [width height sample_image args.cols args.rows a].
    lia.
  - cbn [width sample_image]. lia.
  - cbn [height sample_image]. lia.
  - cbn [args.tile_size a]. lia.
  - reflexivity.
Defined.

End TileCrashSpec.

(** ** A grid coarser than the image *)
Module CoarseRunSpec.
Import PyFloat Pillow Runtime GenerateTiles GridFacts LoopFacts GridSpec TileToolSpec.
Import DegenerateSpec.
Import Vocabulary IoFacts TileNames TileRunFacts TileLoopFacts.
Import RunVocabulary.

Lemma coarse_grid_all_kept w h cols rows :
  0 <= w < 2 ^ 31 -> 0 <= h < 2 ^ 31 -> 1 <= cols -> 1 <= rows ->
  2 * cols <= w -> 2 * rows <= h ->
  kept (grid_list w h cols rows) = grid_list w h cols rows /\
  skipped (grid_list w h cols rows) = [].
Proof.
  intros Hw Hh Hcols Hrows Hcw Hrh.
  assert (Hall : Forall (fun x : Z * Z * box => degenerate x.2 = false)
                   (grid_list w h cols rows)).
  { apply Forall_forall. intros [[r c] b] Hin.
    apply elem_of_grid_list in Hin as (Hr & Hc & ->).
    pose proof (coarse_edge_strict w cols ltac:(lia) Hcols Hcw c Hc).
    pose proof (coarse_edge_strict h rows ltac:(lia) Hrows Hrh r Hr).
    unfold degenerate, cell_box. cbn [snd].
    apply orb_false_intro; apply Z.leb_gt; assumption. }
  unfold kept, skipped. induction Hall as [|x l Hx Hall [IH1 IH2]].
  - split; reflexivity.
  - rewrite !filter_cons. rewrite decide_True by assumption.
    rewrite decide_False by congruence. rewrite IH1, IH2. split; reflexivity.
Qed.

(** X8.  When every cell spans at least two pixels each way
    ([2 * cols <= w], [2 * rows <= h]), the tile size is from 1 to
    2^31 - 1, a tile can be allocated, the folder can be made and no save
    fails, the loop skips no cell: it returns exactly [cols * rows] tiles in row-major order, the
    tile of row [r] and column [c] is a square of side [tile_size] held by
    the file [tile_r{r}_c{c}.png], and the only line printed is that of the
    source. *)
Theorem coarse_grid_writes_every_tile (E : env) (a : args.t) (img : raster)
    (w : world) :
  1 <= args.cols a -> 1 <= args.rows a ->
  2 * args.cols a <= width img < 2 ^ 31 ->
  2 * args.rows a <= height img < 2 ^ 31 ->
  1 <= args.tile_size a ->
  can_allocate E (args.tile_size a) (args.tile_size a) ->
  makedirs_error E (out_dir_of E) = None ->
  (forall r c tile, save_error E (tile_path (out_dir_of E) r c) tile = None) ->
  exists tiles w',
    save_tiles E a img w = (Normal (out_dir_of E, tiles), w') /\
    len tiles = args.cols a * args.rows a /\
    (forall r c, 0 <= r < args.rows a -> 0 <= c < args.cols a ->
       exists tile,
         tiles !! Z.to_nat (r * args.cols a + c) = Some tile /\
         width tile = args.tile_size a /\ height tile = args.tile_size a /\
         files w' !! path_join (out_dir_of E) (tile_name r c)
         = Some (PNG tile)) /\
    stdout w'
    = stdout w
      ++ [SourceInfo (args.source a) (width img) (height img)
            (args.cols a) (args.rows a) (out_dir_of E)].
Proof.
  intros Hcols Hrows Hcw Hrh Hts1 Hts Hmk Hsave.
  assert (Hc1 : 1 <= args.cols a <= 2 ^ 1022)
    by (apply (coarse_k (width img)); lia).
  assert (Hr1 : 1 <= args.rows a <= 2 ^ 1022)
    by (apply (coarse_k (height img)); lia).
  assert (Hrange : in_range a img).
  { split; [lia|]. split; [lia|]. split; lia. }
  pose proof (save_tiles_benign E a img w Hrange Hts Hmk Hsave) as Hrun.
  cbv zeta in Hrun. rewrite !Z.max_r in Hrun by lia.
  set (cells := grid_list (width img) (height img) (args.cols a) (args.rows a)) in *.
  destruct (run_cells E (args.tile_size a) img (out_dir_of E) cells []
              (loop_start E a img w))
    as (Ht & Ho & _ & _ & Hin & _).
  { apply grid_list_functional. }
  destruct (coarse_grid_all_kept (width img) (height img) (args.cols a)
              (args.rows a)) as [Hk Hs]; try lia.
  fold cells in Hk, Hs. rewrite Hk in Ht, Hin. rewrite Hs in Ho.
  destruct (foldl _ _ cells) as [tiles w']. cbn [fst snd] in *.
  exists tiles, w'. split; [assumption|].
  split.
  { rewrite Ht. cbn [app]. unfold len. rewrite length_fmap.
    apply grid_list_length; lia. }
  split.
  { intros r c Hr Hc.
    exists (cell_tile E (args.tile_size a) img
              (cell_box (width img) (height img) (args.cols a) (args.rows a) r c)).
    split.
    { rewrite Ht. cbn [app]. rewrite list_lookup_fmap.
      unfold cells. rewrite grid_list_lookup by assumption. reflexivity. }
    split; [reflexivity|]. split; [reflexivity|].
    apply (Hin r c). apply elem_of_grid_list. auto. }
  rewrite Ho. cbn [loop_start stdout fmap list_fmap].
  rewrite app_nil_r, !Z.max_r by lia. reflexivity.
Qed.

Lemma coarse_grid_writes_every_tile_witness :
  let a := sample_args "a.png" 8 in
  exists tiles w',
    save_tiles sample_env a sample_image empty_world
    = (Normal (out_dir_of sample_env, tiles), w') /\
    len tiles = args.cols a * args.rows a /\
    (forall r c, 0 <= r < args.rows a -> 0 <= c < args.cols a ->
       exists tile,
         tiles !! Z.to_nat (r * args.cols a + c) = Some tile /\
         width tile = args.tile_size a /\ height tile = args.tile_size a /\
         files w' !! path_join (out_dir_of sample_env) (tile_name r c)
         = Some (PNG tile)) /\
    stdout w'
    = stdout empty_world
      ++ [SourceInfo (args.source a) (width sample_image)
            (height sample_image) (args.cols a) (args.rows a)
            (out_dir_of sample_env)].
Proof.
  intros a.
  apply (coarse_grid_writes_every_tile sample_env a sample_image empty_world).
  - cbn [args.cols a sample_args]. lia.
  - cbn [args.rows a sample_args]. lia.
  - cbn [args.cols a sample_args width sample_image]. lia.
  - cbn [args.rows a sample_args height sample_image]. lia.
  - cbn [args.tile_size a sample_args]. lia.
  - split; [|split]; [vm_compute; intuition discriminate..|reflexivity].
  - reflexivity.
  - intros r c tile. reflexivity.
Defined.

End CoarseRunSpec.

(** ** The pixels of the contact sheet *)
Module SheetSpec.
Import PyFloat PyFloatFacts Pillow Runtime GenerateTiles GridFacts LoopFacts.
Import PillowFacts PreviewSpec.
Import Vocabulary.
Import RunVocabulary.

Lemma elem_of_enumerate {A} (l : list A) i (a : A) :
  (i, a) ∈ enumerate l <-> exists k : nat, i = Z.of_nat k /\ l !! k = Some a.
Proof.
  unfold enumerate. rewrite list_elem_of_lookup. split.
  - intros [k Hk]. apply lookup_zip_with_Some in Hk as (i' & a' & [= -> ->] & Hi & Ha).
    apply lookup_seqZ in Hi as [-> _]. exists k. split; [lia | assumption].
  - intros (k & -> & Hk). exists k. apply enumerate_lookup. assumption.
Qed.

Lemma in_bounds_square (t : raster) (size x0 y0 x y : Z) :
  width t = size -> height t = size ->
  in_bounds t (x - x0) (y - y0) = true <-> in_square (x0, y0) size x y.
Proof.
  intros Hw Hh. unfold in_bounds, in_square. cbn [fst snd].
  rewrite !andb_true_iff, !Z.leb_le, !Z.ltb_lt, Hw, Hh. lia.
Qed.

(** The color of a pixel after a run of pastes of squares that are pairwise
    apart. *)
Lemma paste_tiles_pix cols tile_size padding (indexed : list (Z * raster))
    x y :
  (forall i t, (i, t) ∈ indexed -> width t = tile_size /\ height t = tile_size) ->
  (forall i j t t', (i, t) ∈ indexed -> (j, t') ∈ indexed ->
     in_square (tile_position cols tile_size padding i) tile_size x y ->
     in_square (tile_position cols tile_size padding j) tile_size x y ->
     i = j /\ t = t') ->
  forall preview,
  (forall i t, (i, t) ∈ indexed ->
     in_square (tile_position cols tile_size padding i) tile_size x y ->
     pix (paste_tiles cols tile_size padding preview indexed) x y
     = pix t (x - (tile_position cols tile_size padding i).1)
             (y - (tile_position cols tile_size padding i).2)) /\
  ((forall i t, (i, t) ∈ indexed ->
      ~ in_square (tile_position cols tile_size padding i) tile_size x y) ->
   pix (paste_tiles cols tile_size padding preview indexed) x y
   = pix preview x y).
Proof.
  induction indexed as [|[j t'] l IH] using rev_ind; intros Hsz Hone preview.
  - split; [|reflexivity]. intros i t H. inversion H.
  - destruct (IH) with (preview := preview) as [IHin IHout].
    { intros i t H. apply (Hsz i t). apply elem_of_app. left. assumption. }
    { intros i k t t0 H1 H2. apply (Hone i k t t0); apply elem_of_app; left; assumption. }
    unfold paste_tiles in *. rewrite foldl_app. cbn [foldl fst snd].
    destruct (Hsz j t') as [Hw Hh]; [apply elem_of_app; right; constructor|].
    unfold paste at 1 3. destruct (tile_position cols tile_size padding j) as [xj yj] eqn:Ej.
    cbn [pix].
    pose proof (in_bounds_square t' tile_size xj yj x y Hw Hh) as Hsq.
    destruct (in_bounds t' (x - xj) (y - yj)) eqn:Eb.
    + assert (Hj : in_square (xj, yj) tile_size x y) by (apply Hsq; reflexivity).
      split.
      * intros i t Hin Hi.
        destruct (Hone i j t t') as [-> ->];
          [assumption | apply elem_of_app; right; constructor
           | assumption | rewrite Ej; assumption|].
        rewrite Ej. reflexivity.
      * intros Hnone. exfalso. apply (Hnone j t').
        -- apply elem_of_app. right. constructor.
        -- rewrite Ej. assumption.
    + assert (Hj : ~ in_square (xj, yj) tile_size x y).
      { intros H. apply Hsq in H. congruence. }
      split.
      * intros i t Hin Hi. apply elem_of_app in Hin as [Hin|Hin].
        -- apply IHin; assumption.
        -- apply list_elem_of_singleton in Hin. injection Hin as -> ->.
           rewrite Ej in Hi. contradiction.
      * intros Hnone. apply IHout. intros i t Hin.
        apply (Hnone i t). apply elem_of_app. left. assumption.
Qed.

(** The pixels of the sheet that [build_preview] returns. *)
Lemma build_preview_pix E tiles cols tile_size padding bg preview x y :
  1 <= cols -> 0 < padding ->
  (forall t, t ∈ tiles -> width t = tile_size /\ height t = tile_size) ->
  build_preview E tiles cols tile_size padding bg = Ok preview ->
  (forall (i : nat) t, tiles !! i = Some t ->
     in_square (tile_position cols tile_size padding (Z.of_nat i)) tile_size x y ->
     pix preview x y
     = pix t (x - (tile_position cols tile_size padding (Z.of_nat i)).1)
             (y - (tile_position cols tile_size padding (Z.of_nat i)).2)) /\
  ((forall (i : nat), (i < length tiles)%nat ->
      ~ in_square (tile_position cols tile_size padding (Z.of_nat i))
          tile_size x y) ->
   pix preview x y = clip_color bg).
Proof.
  intros Hcols Hpad Hsz Hb.
  rewrite build_preview_closed_form in Hb by assumption.
  destruct (preview_size _ _ _ _) as [size|e]; [|discriminate].
  cbn [mbind res_bind rbind] in Hb.
  destruct (Image_new (new_error E) size bg) as [blank|e] eqn:Enew;
    [|discriminate].
  cbn [mbind res_bind rbind] in Hb. injection Hb as <-.
  assert (Hblank : pix blank x y = clip_color bg).
  { destruct size as [sw sh].
    apply Image_new_Ok in Enew as (_ & _ & _ & ->). reflexivity. }
  destruct (paste_tiles_pix cols tile_size padding (enumerate tiles) x y)
    with (preview := blank) as [Hin Hout].
  { intros i t Hi. apply elem_of_enumerate in Hi as (k & -> & Hk).
    apply Hsz. apply list_elem_of_lookup. exists k. assumption. }
  { intros i j t t' Hi Hj Hsi Hsj.
    apply elem_of_enumerate in Hi as (k & -> & Hk).
    apply elem_of_enumerate in Hj as (k' & -> & Hk').
    destruct (decide (Z.of_nat k = Z.of_nat k')) as [Heq|Hne].
    - apply Nat2Z.inj in Heq. subst k'. split; [reflexivity | congruence].
    - exfalso.
      apply (squares_apart cols tile_size padding (Z.of_nat k) (Z.of_nat k') x y);
        try lia; try assumption. split; assumption. }
  split.
  - intros i t Hi Hsq. apply Hin; [|assumption].
    apply elem_of_enumerate. exists i. split; [reflexivity | assumption].
  - intros Hnone. rewrite Hout; [assumption|].
    intros i t Hi. apply elem_of_enumerate in Hi as (k & -> & Hk).
    apply Hnone. apply lookup_lt_Some in Hk. assumption.
Qed.

(** X9.  For [cols >= 1] and [padding > 0] and tiles that are squares of side
    [tile_size], the sheet that [build_preview] returns shows, in the square
    of each tile, the pixels of this tile, and the background color (as
    [Image.new] stores it, clipped to bytes) everywhere else. *)
Theorem preview_shows_the_tiles (E : env) (tiles : list raster)
    (cols tile_size padding : Z) (bg : color) (preview : raster) :
  1 <= cols -> 0 < padding ->
  (forall t, t ∈ tiles -> width t = tile_size /\ height t = tile_size) ->
  build_preview E tiles cols tile_size padding bg = Ok preview ->
  forall x y,
    (forall (i : nat) t, tiles !! i = Some t ->
       let px := padding + (Z.of_nat i `mod` cols) * (tile_size + padding) in
       let py := padding + (Z.of_nat i `div` cols) * (tile_size + padding) in
       px <= x < px + tile_size -> py <= y < py + tile_size ->
       pix preview x y = pix t (x - px) (y - py)) /\
    ((forall (i : nat), (i < length tiles)%nat ->
        let px := padding + (Z.of_nat i `mod` cols) * (tile_size + padding) in
        let py := padding + (Z.of_nat i `div` cols) * (tile_size + padding) in
        ~ (px <= x < px + tile_size /\ py <= y < py + tile_size)) ->
     pix preview x y = clip_color bg).
Proof.
  intros Hcols Hpad Hsz Hb x y.
  destruct (build_preview_pix E tiles cols tile_size padding bg preview x y
              Hcols Hpad Hsz Hb) as [Hin Hout].
  split.
  - intros i t Hi px py Hx Hy. apply (Hin i t Hi). split; assumption.
  - intros Hnone. apply Hout. intros i Hi Hsq. apply (Hnone i Hi). exact Hsq.
Qed.

Lemma preview_shows_the_tiles_witness :
  let tile := mkRaster 4 4 (fun x y => (x, y, 7)) in
  let tiles := [tile; tile; tile] in
  let preview :=
    match build_preview sample_env tiles 2 4 2 (30, 30, 30) with
    | Ok p => p
    | Raise _ => tile
    end in
  (forall (i : nat) t, tiles !! i = Some t ->
     let px := 2 + (Z.of_nat i `mod` 2) * (4 + 2) in
     let py := 2 + (Z.of_nat i `div` 2) * (4 + 2) in
     px <= 3 < px + 4 -> py <= 5 < py + 4 ->
     pix preview 3 5 = pix t (3 - px) (5 - py)) /\
  ((forall (i : nat), (i < length tiles)%nat ->
      let px := 2 + (Z.of_nat i `mod` 2) * (4 + 2) in
      let py := 2 + (Z.of_nat i `div` 2) * (4 + 2) in
      ~ (px <= 3 < px + 4 /\ py <= 5 < py + 4)) ->
   pix preview 3 5 = clip_color (30, 30, 30)).
Proof.
  intros tile tiles preview.
  apply (preview_shows_the_tiles sample_env tiles 2 4 2 (30, 30, 30) preview).
  - lia.
  - lia.
  - intros t Ht. repeat (apply elem_of_cons in Ht as [->|Ht]; [split; reflexivity|]).
    inversion Ht.
  - vm_compute. reflexivity.
Defined.

End SheetSpec.

(** ** The size of the sheet and its edge cases *)
Module SheetSizeSpec.
Import PyFloat PyFloatFacts Pillow Runtime GenerateTiles GridFacts LoopFacts.
Import PreviewSpec TileToolSpec.
Import Vocabulary.
Import RunVocabulary.

Lemma ceil_quotient_nonneg n k : 0 <= n -> 1 <= k -> 0 <= ceil_quotient n k.
Proof.
  intros Hn Hk. unfold ceil_quotient.
  change 0 with (Qceiling 0). apply Qceiling_resp_le.
  pose proof (inject_Z_nonneg n Hn). pose proof (inject_Z_ge1 k Hk).
  apply Qle_shift_div_l; lra.
Qed.

(** The row of a tile is below the number of rows. *)
Lemma row_below_ceil n k i :
  0 <= i < n -> 1 <= k -> i `div` k < ceil_quotient n k.
Proof.
  intros Hi Hk. unfold ceil_quotient.
  pose proof (Qle_ceiling (inject_Z n / inject_Z k)) as Hc.
  pose proof (inject_Z_ge1 k Hk) as HK.
  pose proof (Z.mul_div_le i k ltac:(lia)) as Hd.
  assert (Hlt : (i `div` k) * k < n) by lia.
  rewrite Zlt_Qlt, inject_Z_mult in Hlt.
  rewrite Zlt_Qlt.
  apply Qlt_le_trans with (inject_Z n / inject_Z k)%Q; [|assumption].
  apply Qlt_shift_div_l; [lra | assumption].
Qed.

Lemma ceil_quotient_le n k : 0 <= n -> 1 <= k -> ceil_quotient n k <= n.
Proof.
  intros Hn Hk. unfold ceil_quotient.
  rewrite <- (Qceiling_Z n) at 2. apply Qceiling_resp_le.
  pose proof (inject_Z_nonneg n Hn) as HN. pose proof (inject_Z_ge1 k Hk) as HK.
  apply Qle_shift_div_r; [lra|].
  assert ((inject_Z n * 1 <= inject_Z n * inject_Z k)%Q); [|lra].
  rewrite !(Qmult_comm (inject_Z n)). apply Qmult_le_compat_r; assumption.
Qed.

(** X10.  For fewer than 2^53 tiles, [cols >= 1] and a tile size and a
    padding that are not negative, when [Image.new] can make a raster of the
    size of the sheet (both dimensions below 2^31, and the allocation
    succeeds), [build_preview] returns a sheet and every tile lies within
    it, at least [padding] away from each of its four sides: no tile is
    clipped. *)
Theorem tiles_fit_in_the_sheet (E : env) (tiles : list raster)
    (cols tile_size padding : Z) (bg : color) :
  len tiles < 2 ^ 53 -> 1 <= cols ->
  0 <= tile_size -> 0 <= padding ->
  can_allocate E (cols * tile_size + (cols + 1) * padding)
    (ceil_quotient (len tiles) cols * tile_size
     + (ceil_quotient (len tiles) cols + 1) * padding) ->
  exists preview,
    build_preview E tiles cols tile_size padding bg = Ok preview /\
    forall i, 0 <= i < len tiles ->
      let px := padding + (i `mod` cols) * (tile_size + padding) in
      let py := padding + (i `div` cols) * (tile_size + padding) in
      padding <= px /\ px + tile_size <= width preview - padding /\
      padding <= py /\ py + tile_size <= height preview - padding.
Proof.
  intros Hn Hcols Hts Hpad (Hw & Hh & Hnone).
  destruct (build_preview_returns E tiles cols tile_size padding bg Hn Hcols
              Hw Hh Hnone) as [preview Hb].
  exists preview. split; [assumption|]. intros i Hi px py.
  destruct (build_preview_size E tiles cols tile_size padding bg preview
              Hn Hcols Hb) as [-> ->].
  pose proof (row_below_ceil (len tiles) cols i Hi ltac:(lia)) as Hrow.
  pose proof (Z.mod_pos_bound i cols ltac:(lia)) as Hmod.
  pose proof (Z.div_pos i cols ltac:(lia) ltac:(lia)) as Hdiv.
  unfold px, py. clear px py Hw Hh Hnone.
  revert Hrow Hmod Hdiv.
  generalize (ceil_quotient (len tiles) cols) as rows.
  generalize (i `mod` cols) as m. generalize (i `div` cols) as d.
  intros d m rows Hrow Hmod Hdiv.
  split; [nia|]. split; [nia|]. split; nia.
Qed.

Lemma tiles_fit_in_the_sheet_witness :
  let tile := mkRaster 4 4 (fun x y => (x, y, 7)) in
  let tiles := [tile; tile; tile] in
  exists preview,
    build_preview sample_env tiles 2 4 2 (30, 30, 30) = Ok preview /\
    forall i, 0 <= i < len tiles ->
      let px := 2 + (i `mod` 2) * (4 + 2) in
      let py := 2 + (i `div` 2) * (4 + 2) in
      2 <= px /\ px + 4 <= width preview - 2 /\
      2 <= py /\ py + 4 <= height preview - 2.
Proof.
  intros tile tiles.
  apply (tiles_fit_in_the_sheet sample_env tiles 2 4 2 (30, 30, 30)).
  - reflexivity.
  - lia.
  - lia.
  - lia.
  - split; [|split]; [vm_compute; intuition discriminate..|reflexivity].
Defined.

(** X11.  With no tile and [cols] other than 0 the sheet is a blank strip:
    [cols * tile_size + (cols + 1) * padding] wide and [padding] high, of the
    background color (clipped to bytes), when [Image.new] can make a raster
    of this size: the two sizes are from 0 to 2^31 - 1 and the allocation
    succeeds. *)
Theorem preview_of_no_tile (E : env) (cols tile_size padding : Z)
    (bg : color) :
  cols <> 0 ->
  can_allocate E (cols * tile_size + (cols + 1) * padding) padding ->
  build_preview E [] cols tile_size padding bg
  = Ok (mkRaster (cols * tile_size + (cols + 1) * padding) padding
          (fun _ _ => clip_color bg)).
Proof.
  intros Hcols Halloc. unfold build_preview, preview_size, int_truediv.
  destruct (Z.eqb_spec cols 0) as [|_]; [contradiction|].
  change (len []) with 0.
  assert (Hq : fl (inject_Z 0 / inject_Z cols) = Fin 0).
  { unfold fl. rewrite (RN_comp _ 0); [reflexivity|].
    change (inject_Z 0) with 0%Q. unfold Qdiv. ring. }
  rewrite Hq. cbn [mbind res_bind rbind py_ceil].
  change (Qceiling 0) with 0. rewrite Z.mul_0_l, Z.add_0_l, Z.mul_1_l.
  rewrite (can_allocate_returns E _ _ bg Halloc). reflexivity.
Qed.

Lemma preview_of_no_tile_witness :
  build_preview sample_env [] 8 256 2 (30, 30, 30)
  = Ok (mkRaster (8 * 256 + (8 + 1) * 2) 2
          (fun _ _ => clip_color (30, 30, 30))).
Proof.
  apply (preview_of_no_tile sample_env 8 256 2 (30, 30, 30)); [lia|].
  split; [|split]; [vm_compute; intuition discriminate..|reflexivity].
Defined.

End SheetSizeSpec.

(** ** A negative number of preview columns *)
Module NegativeColsSpec.
Import PyFloat PyFloatFacts Pillow Runtime GenerateTiles GridFacts LoopFacts.
Import PreviewSpec TileToolSpec.
Import Vocabulary.
Import RunVocabulary.

(** Rounding moves a value of at most 53 bits by at most 1, whatever its
    sign. *)
Lemma RN_small (x : Q) :
  (Qabs x <= pow2 53 -> Qabs (RN x) <= pow2 53 + 1)%Q.
Proof.
  intros Hx. destruct (Qeq_dec x 0) as [E|NE].
  { rewrite (RN_comp x 0 E), RN_0. pose proof (pow2_pos 53).
    change (Qabs 0) with 0%Q. lra. }
  rewrite RN_unfold by assumption.
  pose proof (Qabs_pos_lt x NE) as Hpos.
  assert (He : ulp_exp x <= 1).
  { unfold ulp_exp.
    pose proof (ilog2_mono (Qabs x) (pow2 53) Hpos Hx) as Hm.
    rewrite (ilog2_unique (pow2 53) 53) in Hm.
    - lia.
    - apply Qle_refl.
    - apply pow2_lt. lia. }
  set (s := ulp_exp x) in *.
  pose proof (pow2_pos s) as Hs.
  assert (Hp2 : (pow2 s <= 2)%Q).
  { change 2%Q with (pow2 1). apply pow2_le. assumption. }
  destruct (round_half_even_near (x / pow2 s)) as [H1 H2].
  assert (Hx' : (x == x / pow2 s * pow2 s)%Q) by (field; lra).
  revert H1 H2 Hx'.
  generalize (inject_Z (round_half_even (x / pow2 s))) as m.
  generalize (x / pow2 s)%Q as t.
  revert Hs Hp2. generalize (pow2 s) as p.
  intros p Hs Hp2 t m H1 H2 Hx'.
  assert (((t - (1 # 2)) * p <= m * p)%Q) by (apply Qmult_le_compat_r; lra).
  assert ((m * p <= (t + (1 # 2)) * p)%Q) by (apply Qmult_le_compat_r; lra).
  revert Hx. generalize (pow2 53) as B. intros B Hx.
  apply Qabs_Qle_condition in Hx. apply Qabs_Qle_condition. split; lra.
Qed.

(** The quotient of a count of tiles by a negative number is a float. *)
Lemma int_truediv_negative n k :
  0 <= n < 2 ^ 53 -> k < 0 -> exists q, int_truediv n k = Ok (Fin q).
Proof.
  intros Hn Hk. unfold int_truediv.
  destruct (Z.eqb_spec k 0) as [|_]; [lia|].
  assert (Hx : (Qabs (inject_Z n / inject_Z k) <= pow2 53)%Q).
  { pose proof (inject_Z_nonneg n ltac:(lia)) as HN.
    assert (HK : (inject_Z k <= -1)%Q).
    { change (-1)%Q with (inject_Z (-1)). rewrite <- Zle_Qle. lia. }
    assert (HB : (inject_Z n <= pow2 53)%Q).
    { rewrite (pow2_Z 53) by lia. rewrite <- Zle_Qle. lia. }
    apply Qabs_Qle_condition.
    assert (Hinv : (inject_Z n / inject_Z k == - (inject_Z n / - inject_Z k))%Q)
      by (field; lra).
    rewrite Hinv.
    assert (H0 : (0 <= inject_Z n / - inject_Z k)%Q)
      by (apply Qle_shift_div_l; lra).
    assert (H1 : (inject_Z n / - inject_Z k <= inject_Z n)%Q).
    { apply Qle_shift_div_r; [lra|].
      assert ((1 * inject_Z n <= - inject_Z k * inject_Z n)%Q)
        by (apply Qmult_le_compat_r; lra).
      lra. }
    split; lra. }
  unfold fl. apply RN_small in Hx.
  destruct (Qle_bool (pow2 1024) (Qabs (RN (inject_Z n / inject_Z k)))) eqn:Eb.
  - exfalso. apply Qle_bool_iff in Eb.
    assert (Hlt : (pow2 53 + 1 < pow2 1024)%Q).
    { apply Qlt_le_trans with (pow2 54).
      - rewrite (pow2_Z 53), (pow2_Z 54) by lia.
        change 1%Q with (inject_Z 1). rewrite <- inject_Z_plus, <- Zlt_Qlt. lia.
      - apply pow2_le. lia. }
    lra.
  - eexists. reflexivity.
Qed.

(** [build_preview] on a negative number of columns. *)
Lemma build_preview_negative_cols E tiles cols tile_size padding bg :
  len tiles < 2 ^ 53 -> cols < 0 -> 0 < tile_size -> 0 <= padding ->
  build_preview E tiles cols tile_size padding bg = Raise ValueError.
Proof.
  intros Hn Hcols Hts Hpad. unfold build_preview, preview_size.
  destruct (int_truediv_negative (len tiles) cols) as [q ->];
    [unfold len in *; lia | assumption |].
  cbn [mbind res_bind rbind py_ceil]. unfold Image_new.
  destruct (Z.ltb_spec (cols * tile_size + (cols + 1) * padding) 0) as [_|];
    [reflexivity | nia].
Qed.

(** X12.  With a negative [--preview-cols] and a positive tile size the
    sheet would have a negative width: [build_preview] raises [ValueError]
    when it makes the blank sheet, and in a run that reaches the preview
    step the error is caught and logged, the process ends with exit code 0
    and the file system is the one the tile loop left. *)
Theorem negative_preview_cols_is_caught (E : env) (a : args.t)
    (w w1 w2 : world) (img : raster) (out_dir : string) (tiles : list raster) :
  args.preview_cols a < 0 -> 0 < args.tile_size a -> len tiles < 2 ^ 53 ->
  load_source E a w = (Normal img, w1) ->
  save_tiles E a img w1 = (Normal (out_dir, tiles), w2) ->
  build_preview E tiles (args.preview_cols a) (args.tile_size a)
    default_padding default_bg = Raise ValueError /\
  run (main E a) w
  = (Exited 0,
     mkWorld (files w2) (dirs w2)
       (stdout w2 ++ [FailedToBuildPreview ValueError; MsgDone]) (draws w2)).
Proof.
  intros Hcols Hts Hn Hl Ht.
  assert (Hb : build_preview E tiles (args.preview_cols a) (args.tile_size a)
                 default_padding default_bg = Raise ValueError).
  { apply build_preview_negative_cols; try assumption. unfold default_padding. lia. }
  split; [assumption|].
  unfold run, main.
  rewrite (bind_normal _ _ _ _ _ Hl), (bind_normal _ _ _ _ _ Ht).
  assert (Hs : save_preview E a out_dir tiles w2
               = (Normal (), mkWorld (files w2) (dirs w2)
                    (stdout w2 ++ [FailedToBuildPreview ValueError])
                    (draws w2))).
  { unfold save_preview, try_except, mbind, io_mbind, io_bind, lift.
    rewrite Hb. reflexivity. }
  rewrite (bind_normal _ _ _ _ _ Hs). cbn [print stdout dirs files draws].
  rewrite <- app_assoc. reflexivity.
Qed.

Lemma negative_preview_cols_is_caught_witness :
  build_preview sample_env sample_tiles (args.preview_cols (sample_args "a.png" (-3)))
    (args.tile_size (sample_args "a.png" (-3))) default_padding default_bg
  = Raise ValueError /\
  run (main sample_env (sample_args "a.png" (-3))) empty_world
  = (Exited 0,
     mkWorld (files sample_tiles_world) (dirs sample_tiles_world)
       (stdout sample_tiles_world
        ++ [FailedToBuildPreview ValueError; MsgDone])
       (draws sample_tiles_world)).
Proof.
  apply (negative_preview_cols_is_caught sample_env
           (sample_args "a.png" (-3)) empty_world empty_world
           sample_tiles_world sample_image sample_out_dir sample_tiles).
  - cbn [args.preview_cols sample_args]. lia.
  - cbn [args.tile_size sample_args]. lia.
  - vm_compute. reflexivity.
  - vm_compute. reflexivity.
  - vm_compute. reflexivity.
Defined.

End NegativeColsSpec.

(** ** A run of the tile tool in which nothing fails *)
Module TileSuccessSpec.
Import PyFloat Pillow Runtime GenerateTiles GridFacts LoopFacts GridSpec.
Import PreviewSpec TileToolSpec SheetSizeSpec.
Import Vocabulary IoFacts TileNames TileRunFacts TileLoopFacts.
Import RunVocabulary.

(** X13.  With a readable source, sizes in range, a tile size and
    [--preview-cols] at least 1, sizes small enough for the sheet to stay
    below 2^31 pixels each way whatever the number of tiles
    ([preview_cols * (tile_size + 2) + 2] and
    [cols * rows * (tile_size + 2) + 2] below 2^31), and an environment in
    which the folder can be made, no raster fails to be allocated and no
    save fails, the tile tool ends with exit code 0: after the tile loop it
    builds the sheet of the tiles, writes it to [preview.png] in the folder
    and prints [Saved preview] and [Done.]. *)
Theorem successful_run_of_the_tile_tool (E : env) (a : args.t)
    (img : raster) (w : world) :
  readable E a img -> in_range a img ->
  1 <= args.tile_size a -> 1 <= args.preview_cols a ->
  args.preview_cols a * (args.tile_size a + 2) + 2 < 2 ^ 31 ->
  Z.max 1 (args.cols a) * Z.max 1 (args.rows a) * (args.tile_size a + 2) + 2
  < 2 ^ 31 ->
  makedirs_error E (out_dir_of E) = None ->
  (forall size, new_error E size = None) ->
  (forall p im, save_error E p im = None) ->
  exists tiles preview w1 w2,
    save_tiles E a img w = (Normal (out_dir_of E, tiles), w1) /\
    build_preview E tiles (args.preview_cols a) (args.tile_size a)
      default_padding default_bg = Ok preview /\
    run (main E a) w = (Exited 0, w2) /\
    files w2
    = <[path_join (out_dir_of E) "preview.png" := PNG preview]> (files w1) /\
    dirs w2 = dirs w1 /\
    stdout w2
    = stdout w1
      ++ [SavedPreview (path_join (out_dir_of E) "preview.png"); MsgDone].
Proof.
  intros Hread Hrange Hts Hpc Hpw Hph Hmk Hnew Hsave.
  assert (Halloc : can_allocate E (args.tile_size a) (args.tile_size a)).
  { split; [nia|]. split; [nia | apply Hnew]. }
  pose proof (save_tiles_benign E a img w Hrange Halloc Hmk
                (fun r c tile => Hsave _ tile)) as Hrun.
  cbv zeta in Hrun.
  set (cells := grid_list (width img) (height img)
                  (Z.max 1 (args.cols a)) (Z.max 1 (args.rows a))) in *.
  destruct (run_cells E (args.tile_size a) img (out_dir_of E) cells []
              (loop_start E a img w)) as (Ht & _).
  { apply grid_list_functional. }
  destruct (foldl _ _ cells) as [tiles w1]. cbn [fst snd] in *.
  assert (Hn : 0 <= len tiles
               <= Z.max 1 (args.cols a) * Z.max 1 (args.rows a)).
  { rewrite Ht. cbn [app]. unfold len. rewrite length_fmap.
    pose proof (kept_skipped_length cells) as Hks.
    pose proof (grid_list_length (width img) (height img)
                  (Z.max 1 (args.cols a)) (Z.max 1 (args.rows a))
                  ltac:(lia) ltac:(lia)) as Hlen.
    fold cells in Hlen. unfold len in Hlen. lia. }
  assert (H53 : len tiles < 2 ^ 53).
  { assert (2 ^ 31 <= 2 ^ 53) by (apply Z.pow_le_mono_r; lia). nia. }
  pose proof (ceil_quotient_nonneg (len tiles) (args.preview_cols a)
                ltac:(lia) Hpc) as Hr0.
  pose proof (ceil_quotient_le (len tiles) (args.preview_cols a)
                ltac:(lia) Hpc) as Hr1.
  destruct (build_preview_returns E tiles (args.preview_cols a)
              (args.tile_size a) default_padding default_bg)
    as [preview Hb]; try assumption.
  { unfold default_padding. nia. }
  { unfold default_padding.
    revert Hr0 Hr1. generalize (ceil_quotient (len tiles) (args.preview_cols a)).
    intros rows Hr0 Hr1. nia. }
  { apply Hnew. }
  exists tiles, preview, w1. eexists.
  split; [assumption|]. split; [assumption|].
  split.
  { unfold run. rewrite (main_eval E a img w Hread), Hrun.
    unfold save_preview, try_except, mbind, io_mbind, io_bind, lift, save.
    rewrite Hb, Hsave. cbn [print]. reflexivity. }
  cbn [files dirs stdout]. split; [reflexivity|]. split; [reflexivity|].
  rewrite <- app_assoc. reflexivity.
Qed.

Lemma successful_run_of_the_tile_tool_witness :
  let a := sample_args "a.png" 8 in
  exists tiles preview w1 w2,
    save_tiles sample_env a sample_image empty_world
    = (Normal (out_dir_of sample_env, tiles), w1) /\
    build_preview sample_env tiles (args.preview_cols a) (args.tile_size a)
      default_padding default_bg = Ok preview /\
    run (main sample_env a) empty_world = (Exited 0, w2) /\
    files w2
    = <[path_join (out_dir_of sample_env) "preview.png" := PNG preview]>
        (files w1) /\
    dirs w2 = dirs w1 /\
    stdout w2
    = stdout w1
      ++ [SavedPreview (path_join (out_dir_of sample_env) "preview.png");
          MsgDone].
Proof.
  intros a.
  apply (successful_run_of_the_tile_tool sample_env a sample_image empty_world).
  - split; reflexivity.
  - unfold in_range. cbn [width height sample_image args.cols args.rows a sample_args].
    lia.
  - cbn [args.tile_size a sample_args]. lia.
  - cbn [args.preview_cols a sample_args]. lia.
  - cbn [args.preview_cols args.tile_size a sample_args]. lia.
  - cbn [args.cols args.rows args.tile_size a sample_args]. lia.
  - reflexivity.
  - intros size. reflexivity.
  - intros p im. reflexivity.
Defined.

End TileSuccessSpec.

(** ** The draws behind an image of the block tool *)
Module BlockDrawSpec.
Import Pillow Runtime Img LoopFacts BlockSpec TileToolSpec BlockToolSpec.
Import Vocabulary IoFacts.
Import RunVocabulary.

Lemma byte_color_drawn E d : byte_color (color_drawn E d).
Proof.
  unfold byte_color, color_drawn. cbn [fst snd].
  pose proof (Z.mod_pos_bound (entropy E d) 256 ltac:(lia)).
  pose proof (Z.mod_pos_bound (entropy E (S d)) 256 ltac:(lia)).
  pose proof (Z.mod_pos_bound (entropy E (S (S d))) 256 ltac:(lia)).
  lia.
Qed.

Section Blocks.
Variable E : env.
Variables width height block_size : Z.
Hypothesis Hbs : 1 <= block_size.
Hypothesis Hheight : 0 <= height.

(** One turn of the inner loop. *)
Lemma paint_turn_exact img w bx by_ :
  sized width height block_size img -> 0 <= bx < width -> 0 <= by_ < height ->
  exists img',
    (c ← random_color E; lift (paint_block img bx by_ block_size c)) w
    = (Normal img',
       mkWorld (files w) (dirs w) (stdout w) (S (S (S (draws w))))) /\
    sized width height block_size img' /\
    (forall x y, in_block block_size bx by_ x y ->
       pix img' x y = color_drawn E (draws w)) /\
    (forall x y, ~ in_block block_size bx by_ x y ->
       pix img' x y = pix img x y).
Proof.
  intros [Ew Eh] Hbx Hby.
  destruct (paint_block_result img bx by_ block_size (color_drawn E (draws w)))
    as (img' & Hp & Hw' & Hh' & Hin & Hout); try lia; try nia.
  exists img'. split.
  - rewrite (bind_normal _ _ _ _ _ (random_color_eval E w)).
    unfold lift. rewrite Hp. reflexivity.
  - split; [split; congruence|]. split; assumption.
Qed.

(** The loops of the blocks: what they draw and what they paint. *)
Lemma block_loops_exact img w :
  0 <= width -> sized width height block_size img ->
  exists img',
    for_each (range width) (fun bx =>
      for_each (range height) (fun by_ img =>
        c ← random_color E;
        lift (paint_block img bx by_ block_size c))) img w
    = (Normal img',
       mkWorld (files w) (dirs w) (stdout w)
         (draws w + 3 * Z.to_nat (width * height))) /\
    sized width height block_size img' /\
    painted E height block_size (draws w) width 0 img'.
Proof.
  intros Hw Hs.
  destruct (for_each_invariant (range width)
    (fun bx => for_each (range height) (fun by_ img =>
        c ← random_color E; lift (paint_block img bx by_ block_size c)))
    (fun i img' w' =>
       same_but_draws w w' /\
       draws w' = (draws w + 3 * Z.to_nat (Z.of_nat i * height))%nat /\
       sized width height block_size img' /\
       painted E height block_size (draws w) (Z.of_nat i) 0 img'))
    with (s := img) (w := w)
    as (img' & w' & Hf & Hsame & Hd & Hsz & Hall).
  - (* the outer turn *)
    intros i bx img1 w1 Hl (Hsame1 & Hd1 & Hs1 & Hall1).
    apply lookup_seqZ in Hl as [-> Hi]. rewrite Z.add_0_l.
    destruct (for_each_invariant (range height)
      (fun by_ img => c ← random_color E;
         lift (paint_block img (Z.of_nat i) by_ block_size c))
      (fun j img' w' =>
         same_but_draws w w' /\
         draws w'
         = (draws w + 3 * Z.to_nat (Z.of_nat i * height + Z.of_nat j))%nat /\
         sized width height block_size img' /\
         painted E height block_size (draws w) (Z.of_nat i) (Z.of_nat j) img'))
      with (s := img1) (w := w1)
      as (img2 & w2 & Hf2 & Hsame2 & Hd2 & Hs2 & Hall2).
    + (* the inner turn *)
      intros j by_ img3 w3 Hl (Hsame3 & Hd3 & Hs3 & Hall3).
      apply lookup_seqZ in Hl as [-> Hj]. rewrite Z.add_0_l.
      destruct (paint_turn_exact img3 w3 (Z.of_nat i) (Z.of_nat j) Hs3)
        as (img4 & Hb & Hs4 & Hin & Hout); try lia.
      eexists img4, _. split; [exact Hb|].
      split.
      { destruct Hsame3 as (? & ? & ?). split; [|split]; assumption. }
      split.
      { cbn [draws]. rewrite Hd3.
        replace (Z.of_nat i * height + Z.of_nat (S j))
          with (Z.of_nat i * height + Z.of_nat j + 1) by lia.
        rewrite (Z2Nat.inj_add _ 1) by nia. change (Z.to_nat 1) with 1%nat. lia. }
      split; [assumption|].
      intros bx by_ Hby Hcase x y Hblock.
      destruct (decide ((bx, by_) = (Z.of_nat i, Z.of_nat j))) as [[= -> ->]|Hne].
      * rewrite (Hin x y Hblock). rewrite Hd3. reflexivity.
      * rewrite Hout.
        -- apply (Hall3 bx by_ Hby); [|assumption].
           destruct Hcase as [?|[-> ?]]; [left; assumption|].
           right. split; [reflexivity|].
           assert (by_ <> Z.of_nat j) by congruence. lia.
        -- intros Hblock'. apply Hne.
           apply in_block_unique in Hblock, Hblock'; try assumption.
           destruct Hblock as [-> ->], Hblock' as [-> ->]. reflexivity.
    + split; [assumption|].
      split; [change (Z.of_nat 0) with 0; rewrite Z.add_0_r; exact Hd1|].
      split; [assumption|].
      intros bx by_ Hby [?|[_ ?]]; [apply Hall1; [assumption | left; assumption]
                                     | exfalso; lia].
    + exists img2, w2. split; [assumption|]. split; [assumption|].
      unfold range in Hd2, Hall2. rewrite length_seqZ in Hd2, Hall2.
      split.
      { replace (Z.of_nat (S i) * height)
          with (Z.of_nat i * height + Z.of_nat (Z.to_nat height)) by lia.
        exact Hd2. }
      split; [assumption|].
      intros bx by_ Hby Hcase. apply Hall2; [assumption|].
      destruct Hcase as [?|[? ?]]; [|exfalso; lia].
      destruct (decide (bx = Z.of_nat i)) as [->|]; [right|left]; lia.
  - split; [split; [|split]; reflexivity|].
    split; [cbn; lia|]. split; [assumption|].
    intros bx by_ Hby [?|[? ?]]; exfalso; lia.
  - exists img'. unfold range in Hd, Hall. rewrite length_seqZ in Hd, Hall.
    rewrite Z2Nat.id in Hd, Hall by lia.
    split.
    + rewrite Hf. destruct Hsame as (Hfi & Hdi & Ho). destruct w' as [f d o dr].
      cbn [files dirs stdout draws] in *. subst. reflexivity.
    + split; assumption.
Qed.

End Blocks.

(** [generate_random_image] when the save succeeds: the image written and
    the draws it took. *)
Lemma generate_random_image_exact E width height filename block_size w :
  0 <= width -> 0 <= height -> 1 <= block_size ->
  can_allocate E (width * block_size) (height * block_size) ->
  (forall im, save_error E filename im = None) ->
  exists img,
    generate_random_image E width height filename block_size w
    = (Normal (),
       mkWorld (<[filename := PNG img]> (files w)) (dirs w) (stdout w)
         (draws w + 3 * Z.to_nat (width * height))) /\
    sized width height block_size img /\
    painted E height block_size (draws w) width 0 img.
Proof.
  intros Hw Hh Hbs Halloc Hsave. unfold generate_random_image.
  pose proof (blank_image E width height block_size Halloc) as Hnew.
  destruct (block_loops_exact E width height block_size Hbs Hh
              (mkRaster (width * block_size) (height * block_size)
                 (fun _ _ => black)) w Hw)
    as (img & Hloop & Hsz & Hall).
  { split; reflexivity. }
  exists img. split.
  - erewrite bind_normal; [|unfold lift; rewrite Hnew; reflexivity].
    erewrite bind_normal; [|exact Hloop].
    unfold save. rewrite Hsave. reflexivity.
  - split; assumption.
Qed.

(** X14.  For a grid of [width] x [height] blocks of side [block_size], all
    at least 1, when [Image.new] can make the raster (both of its
    dimensions are below 2^31 and the allocation succeeds) and the save
    succeeds, [generate_random_image] takes exactly
    [3 * width * height] draws and writes an image in which the block
    [(bx, by)] has the color made of the three draws that start at number
    [3 * (bx * height + by)] after the first: the blocks are colored one
    after the other, column by column, each from draws of its own. *)
Theorem image_colors_follow_the_draws (E : env) (width height : Z)
    (filename : string) (block_size : Z) (w : world) :
  1 <= width -> 1 <= height -> 1 <= block_size ->
  can_allocate E (width * block_size) (height * block_size) ->
  (forall im, save_error E filename im = None) ->
  exists img,
    generate_random_image E width height filename block_size w
    = (Normal (),
       mkWorld (<[filename := PNG img]> (files w)) (dirs w) (stdout w)
         (draws w + 3 * Z.to_nat (width * height))) /\
    forall x y,
      0 <= x < width * block_size -> 0 <= y < height * block_size ->
      let d := (draws w
                + 3 * Z.to_nat (x `div` block_size * height
                                + y `div` block_size))%nat in
      pix img x y
      = (entropy E d `mod` 256, entropy E (S d) `mod` 256,
         entropy E (S (S d)) `mod` 256).
Proof.
  intros Hw Hh Hbs Halloc Hsave.
  destruct (generate_random_image_exact E width height filename block_size w
              ltac:(lia) ltac:(lia) Hbs Halloc Hsave)
    as (img & Hrun & _ & Hall).
  exists img. split; [assumption|]. intros x y Hx Hy d.
  apply (Hall (x `div` block_size) (y `div` block_size)).
  - split; [apply Z.div_pos; lia | apply Z.div_lt_upper_bound; lia].
  - left. split; [apply Z.div_pos; lia | apply Z.div_lt_upper_bound; lia].
  - apply in_block_unique; [assumption | split; reflexivity].
Qed.

Lemma image_colors_follow_the_draws_witness :
  exists img,
    generate_random_image sample_env 4 4 "random_image_1.png" 10 empty_world
    = (Normal (),
       mkWorld (<["random_image_1.png" := PNG img]> (files empty_world))
         (dirs empty_world) (stdout empty_world)
         (draws empty_world + 3 * Z.to_nat (4 * 4))) /\
    forall x y,
      0 <= x < 4 * 10 -> 0 <= y < 4 * 10 ->
      let d := (draws empty_world
                + 3 * Z.to_nat (x `div` 10 * 4 + y `div` 10))%nat in
      pix img x y
      = (entropy sample_env d `mod` 256,
         entropy sample_env (S d) `mod` 256,
         entropy sample_env (S (S d)) `mod` 256).
Proof.
  apply (image_colors_follow_the_draws sample_env 4 4 "random_image_1.png"
           10 empty_world).
  - lia.
  - lia.
  - lia.
  - split; [|split]; [vm_compute; intuition discriminate..|reflexivity].
  - intros im. reflexivity.
Defined.

(** X15.  In the same runs every pixel of the image written is an RGB color
    whose three channels are between 0 and 255. *)
Theorem image_colors_are_bytes (E : env) (width height : Z)
    (filename : string) (block_size : Z) (w : world) :
  1 <= width -> 1 <= height -> 1 <= block_size ->
  can_allocate E (width * block_size) (height * block_size) ->
  (forall im, save_error E filename im = None) ->
  exists img w',
    generate_random_image E width height filename block_size w
    = (Normal (), w') /\
    files w' !! filename = Some (PNG img) /\
    forall x y,
      0 <= x < Pillow.width img -> 0 <= y < Pillow.height img ->
      0 <= (pix img x y).1.1 <= 255 /\
      0 <= (pix img x y).1.2 <= 255 /\
      0 <= (pix img x y).2 <= 255.
Proof.
  intros Hw Hh Hbs Halloc Hsave.
  destruct (generate_random_image_exact E width height filename block_size w
              ltac:(lia) ltac:(lia) Hbs Halloc Hsave)
    as (img & Hrun & [Ew Eh] & Hall).
  exists img. eexists. split; [exact Hrun|].
  split; [apply lookup_insert_eq|].
  intros x y Hx Hy. rewrite Ew in Hx. rewrite Eh in Hy.
  rewrite (Hall (x `div` block_size) (y `div` block_size) ltac:(
             split; [apply Z.div_pos; lia | apply Z.div_lt_upper_bound; lia])
             ltac:(left; split; [apply Z.div_pos; lia
                                | apply Z.div_lt_upper_bound; lia]) x y).
  - apply byte_color_drawn.
  - apply in_block_unique; [assumption | split; reflexivity].
Qed.

Lemma image_colors_are_bytes_witness :
  exists img w',
    generate_random_image sample_env 4 4 "random_image_1.png" 10 empty_world
    = (Normal (), w') /\
    files w' !! "random_image_1.png" = Some (PNG img) /\
    forall x y,
      0 <= x < Pillow.width img -> 0 <= y < Pillow.height img ->
      0 <= (pix img x y).1.1 <= 255 /\
      0 <= (pix img x y).1.2 <= 255 /\
      0 <= (pix img x y).2 <= 255.
Proof.
  apply (image_colors_are_bytes sample_env 4 4 "random_image_1.png" 10
           empty_world).
  - lia.
  - lia.
  - lia.
  - split; [|split]; [vm_compute; intuition discriminate..|reflexivity].
  - intros im. reflexivity.
Defined.

End BlockDrawSpec.

(** ** The images of a run of the block tool *)
Module BlockRunSpec.
Import Pillow Runtime Img LoopFacts BlockSpec TileToolSpec BlockToolSpec.
Import Vocabulary IoFacts BlockDrawSpec.
Import RunVocabulary.

(** X16.  In a run of the block tool with [width], [height] and
    [block_size] at least 1 in which [Image.new] can make the raster (both
    of its dimensions are below 2^31 and the allocation succeeds) and no
    save fails, image [i]
    (from 1 to [count]) takes the [3 * width * height] draws that follow
    those of the images before it: the run takes
    [3 * count * width * height] draws, and the pixel [(x, y)] of image [i]
    has the color made of the three draws that start at number
    [3 * ((i - 1) * width * height + (x div block_size) * height
          + y div block_size)]. *)
Theorem images_take_successive_draws (E : env) (a : args.t) (w : world) :
  1 <= args.width a -> 1 <= args.height a -> 1 <= args.block_size a ->
  0 <= args.count a ->
  can_allocate E (args.width a * args.block_size a)
    (args.height a * args.block_size a) ->
  (forall i im, 1 <= i <= args.count a ->
     save_error E (image_name (args.out_prefix a) i) im = None) ->
  exists w',
    run (main E a) w = (Exited 0, w') /\
    draws w'
    = (draws w
       + 3 * Z.to_nat (args.count a * (args.width a * args.height a)))%nat /\
    forall i, 1 <= i <= args.count a ->
      exists img,
        files w' !! (args.out_prefix a +:+ str i +:+ ".png") = Some (PNG img) /\
        forall x y,
          0 <= x < args.width a * args.block_size a ->
          0 <= y < args.height a * args.block_size a ->
          let d := (draws w
                    + 3 * Z.to_nat ((i - 1) * (args.width a * args.height a)
                                    + x `div` args.block_size a * args.height a
                                    + y `div` args.block_size a))%nat in
          pix img x y
          = (entropy E d `mod` 256, entropy E (S d) `mod` 256,
             entropy E (S (S d)) `mod` 256).
Proof.
  intros Hw Hh Hbs Hcount Halloc Hsave.
  set (prefix := args.out_prefix a) in *.
  set (n := args.width a * args.height a).
  assert (Hn : 0 <= n) by (unfold n; nia).
  destruct (for_each_invariant (range (args.count a))
    (fun i (_ : unit) =>
       let filename := args.out_prefix a +:+ str (i + 1) +:+ ".png" in
       generate_random_image E (args.width a) (args.height a) filename
         (args.block_size a))
    (fun k (_ : unit) w' =>
       draws w' = (draws w + 3 * Z.to_nat (Z.of_nat k * n))%nat /\
       forall i, 1 <= i <= Z.of_nat k ->
         exists img, files w' !! image_name prefix i = Some (PNG img) /\
           painted E (args.height a) (args.block_size a)
             (draws w + 3 * Z.to_nat ((i - 1) * n)) (args.width a) 0 img))
    with (s := ()) (w := w)
    as (u & w' & Hf & Hd & Himgs).
  - intros k i [] w1 Hl (Hd & Himgs).
    apply lookup_seqZ in Hl as [-> Hk]. rewrite Z.add_0_l. cbv zeta.
    destruct (generate_random_image_exact E (args.width a) (args.height a)
                (args.out_prefix a +:+ str (Z.of_nat k + 1) +:+ ".png")
                (args.block_size a) w1) as (img & Hg & _ & Hgood);
      try lia; try assumption.
    { intros im. apply (Hsave (Z.of_nat k + 1)). lia. }
    eexists (), _. split; [exact Hg|]. cbn [files draws].
    split.
    { rewrite Hd. fold n.
      replace (Z.of_nat (S k) * n) with (Z.of_nat k * n + n) by lia.
      rewrite Z2Nat.inj_add by nia. lia. }
    intros i Hi. destruct (decide (i = Z.of_nat k + 1)) as [->|Hne].
    + exists img. split; [apply lookup_insert_eq|].
      rewrite Hd in Hgood.
      replace (Z.of_nat k + 1 - 1) with (Z.of_nat k) by lia. exact Hgood.
    + destruct (Himgs i ltac:(lia)) as (img' & Hl & Hg').
      exists img'. split; [|assumption].
      rewrite lookup_insert_ne; [assumption|].
      intros Heq. apply (image_name_inj prefix) in Heq. lia.
  - split; [cbn; lia|]. intros i Hi. exfalso. lia.
  - unfold range in *. rewrite length_seqZ in Hd, Himgs.
    rewrite Z2Nat.id in Hd, Himgs by lia.
    exists w'. split.
    { unfold run, main. erewrite bind_normal; [|exact Hf]. reflexivity. }
    split; [exact Hd|].
    intros i Hi. destruct (Himgs i Hi) as (img & Hl & Hall).
    exists img. split; [exact Hl|]. intros x y Hx Hy.
    set (d := (draws w
               + 3 * Z.to_nat ((i - 1) * n
                               + x `div` args.block_size a * args.height a
                               + y `div` args.block_size a))%nat).
    rewrite (Hall (x `div` args.block_size a) (y `div` args.block_size a)
               ltac:(split; [apply Z.div_pos; lia
                            | apply Z.div_lt_upper_bound; lia])
               ltac:(left; split; [apply Z.div_pos; lia
                                  | apply Z.div_lt_upper_bound; lia]) x y).
    + unfold color_drawn, draw_of_block.
      assert (Ed : (draws w + 3 * Z.to_nat ((i - 1) * n)
                    + 3 * Z.to_nat (x `div` args.block_size a * args.height a
                                    + y `div` args.block_size a))%nat = d).
      { unfold d.
        pose proof (Z.div_pos x (args.block_size a) ltac:(lia) ltac:(lia)).
        pose proof (Z.div_pos y (args.block_size a) ltac:(lia) ltac:(lia)).
        rewrite <- Z.add_assoc.
        rewrite (Z2Nat.inj_add ((i - 1) * n)) by nia. lia. }
      rewrite Ed. reflexivity.
    + apply in_block_unique; [assumption | split; reflexivity].
Qed.

Lemma images_take_successive_draws_witness :
  exists w',
    run (main sample_env block_args) empty_world = (Exited 0, w') /\
    draws w'
    = (draws empty_world
       + 3 * Z.to_nat (args.count block_args
                       * (args.width block_args * args.height block_args)))%nat /\
    forall i, 1 <= i <= args.count block_args ->
      exists img,
        files w' !! (args.out_prefix block_args +:+ str i +:+ ".png")
        = Some (PNG img) /\
        forall x y,
          0 <= x < args.width block_args * args.block_size block_args ->
          0 <= y < args.height block_args * args.block_size block_args ->
          let d := (draws empty_world
                    + 3 * Z.to_nat ((i - 1) * (args.width block_args
                                               * args.height block_args)
                                    + x `div` args.block_size block_args
                                      * args.height block_args
                                    + y `div` args.block_size block_args))%nat in
          pix img x y
          = (entropy sample_env d `mod` 256,
             entropy sample_env (S d) `mod` 256,
             entropy sample_env (S (S d)) `mod` 256).
Proof.
  apply (images_take_successive_draws sample_env block_args empty_world).
  - vm_compute. discriminate.
  - vm_compute. discriminate.
  - vm_compute. discriminate.
  - vm_compute. discriminate.
  - split; [|split]; [vm_compute; intuition discriminate..|reflexivity].
  - intros i im Hi. reflexivity.
Defined.

End BlockRunSpec.

(** ** How the block tool can fail *)
Module BlockFailureSpec.
Import Pillow Runtime Img LoopFacts BlockSpec TileToolSpec BlockToolSpec.
Import Vocabulary IoFacts BlockDrawSpec.
Import RunVocabulary.

(** [generate_random_image] when the save fails. *)
Lemma generate_random_image_save_fails E width height filename block_size w e :
  0 <= width -> 0 <= height -> 1 <= block_size ->
  can_allocate E (width * block_size) (height * block_size) ->
  (forall im, exists leftover, save_error E filename im = Some (e, leftover)) ->
  exists leftover d,
    generate_random_image E width height filename block_size w
    = (Throw e,
       mkWorld (partial_alter leftover filename (files w)) (dirs w)
         (stdout w) d).
Proof.
  intros Hw Hh Hbs Halloc Hsave. unfold generate_random_image.
  pose proof (blank_image E width height block_size Halloc) as Hnew.
  destruct (block_loops_exact E width height block_size Hbs Hh
              (mkRaster (width * block_size) (height * block_size)
                 (fun _ _ => black)) w Hw)
    as (img & Hloop & _).
  { split; reflexivity. }
  destruct (Hsave img) as [leftover Hs].
  exists leftover. eexists.
  erewrite bind_normal; [|unfold lift; rewrite Hnew; reflexivity].
  erewrite bind_normal; [|exact Hloop].
  unfold save. rewrite Hs. reflexivity.
Qed.

(** X17.  With [width], [height] and [block_size] at least 1 and a raster
    that [Image.new] can make (both of its dimensions are below 2^31 and
    the allocation succeeds), when the save of image [k] fails and those
    before it succeed, the block tool ends on that error as an uncaught
    exception: the images before [k] are written, and no file of a later
    image is touched. *)
Theorem failed_save_stops_the_block_tool (E : env) (a : args.t) (w : world)
    (k : Z) (e : exn) :
  1 <= args.width a -> 1 <= args.height a -> 1 <= args.block_size a ->
  can_allocate E (args.width a * args.block_size a)
    (args.height a * args.block_size a) ->
  1 <= k <= args.count a ->
  (forall i im, 1 <= i < k ->
     save_error E (image_name (args.out_prefix a) i) im = None) ->
  (forall im, exists leftover,
     save_error E (image_name (args.out_prefix a) k) im = Some (e, leftover)) ->
  exists w',
    run (main E a) w = (Uncaught e, w') /\
    (forall i, 1 <= i < k ->
       exists img,
         files w' !! (args.out_prefix a +:+ str i +:+ ".png")
         = Some (PNG img)) /\
    (forall i, k < i ->
       files w' !! (args.out_prefix a +:+ str i +:+ ".png")
       = files w !! (args.out_prefix a +:+ str i +:+ ".png")).
Proof.
  intros Hw1 Hh1 Hbs Halloc Hk Hsave Hfail.
  assert (Hw : 0 <= args.width a) by lia.
  assert (Hh : 0 <= args.height a) by lia.
  set (prefix := args.out_prefix a) in *.
  set (body := fun i (_ : unit) =>
       let filename := args.out_prefix a +:+ str (i + 1) +:+ ".png" in
       generate_random_image E (args.width a) (args.height a) filename
         (args.block_size a)).
  assert (Hsplit : range (args.count a)
                   = range (k - 1) ++ (k - 1) :: seqZ k (args.count a - k)).
  { unfold range.
    replace (args.count a) with ((k - 1) + (args.count a - (k - 1))) at 1 by lia.
    rewrite seqZ_app by lia. f_equal.
    rewrite seqZ_cons by lia. f_equal. f_equal; lia. }
  destruct (for_each_invariant (range (k - 1)) body
    (fun j (_ : unit) w' =>
       (forall i, 1 <= i <= Z.of_nat j ->
          exists img, files w' !! image_name prefix i = Some (PNG img)) /\
       (forall p, (forall i, 1 <= i <= Z.of_nat j -> p <> image_name prefix i) ->
          files w' !! p = files w !! p)))
    with (s := ()) (w := w)
    as (u & w1 & Hf & Himgs & Hframe).
  - intros j i [] w1 Hl (Himgs & Hframe).
    apply lookup_seqZ in Hl as [-> Hj]. rewrite Z.add_0_l. unfold body.
    destruct (generate_random_image_exact E (args.width a) (args.height a)
                (args.out_prefix a +:+ str (Z.of_nat j + 1) +:+ ".png")
                (args.block_size a) w1) as (img & Hg & _);
      try lia; try assumption.
    { intros im. apply (Hsave (Z.of_nat j + 1)). lia. }
    eexists (), _. split; [exact Hg|]. cbn [files]. split.
    + intros i Hi. destruct (decide (i = Z.of_nat j + 1)) as [->|Hne].
      * exists img. apply lookup_insert_eq.
      * destruct (Himgs i ltac:(lia)) as (img' & Hl).
        exists img'. rewrite lookup_insert_ne; [assumption|].
        intros Heq. apply (image_name_inj prefix) in Heq. lia.
    + intros p Hp. rewrite lookup_insert_ne.
      * apply Hframe. intros i Hi. apply Hp. lia.
      * intros Heq. apply (Hp (Z.of_nat j + 1)); [lia|]. symmetry. exact Heq.
  - split; [intros i Hi; exfalso; lia | reflexivity].
  - unfold range in Himgs, Hframe. rewrite length_seqZ in Himgs, Hframe.
    rewrite Z2Nat.id in Himgs, Hframe by lia.
    destruct (generate_random_image_save_fails E (args.width a) (args.height a)
                (args.out_prefix a +:+ str (k - 1 + 1) +:+ ".png")
                (args.block_size a) w1 e Hw Hh Hbs Halloc)
      as (leftover & d & Hg).
    { replace (k - 1 + 1) with k by lia. exact Hfail. }
    eexists. split.
    { unfold run, main. fold body.
      unfold mbind, io_mbind, io_bind at 1. rewrite Hsplit, for_each_app.
      unfold io_bind at 1. rewrite Hf. destruct u.
      cbn [for_each]. unfold io_bind at 1. unfold body at 1. cbv zeta.
      rewrite Hg. reflexivity. }
    cbn [files]. split.
    + intros i Hi. destruct (Himgs i ltac:(lia)) as (img & Hl).
      exists img. rewrite lookup_partial_alter_ne; [exact Hl|].
      intros Heq. apply (image_name_inj prefix) in Heq. lia.
    + intros i Hi. rewrite lookup_partial_alter_ne.
      * apply Hframe. intros j Hj Heq. apply (image_name_inj prefix) in Heq. lia.
      * intros Heq. apply (image_name_inj prefix) in Heq. lia.
Qed.

Lemma failed_save_stops_the_block_tool_witness :
  let a := args.mk 2 2 3 3 "random_image_" in
  exists w',
    run (main (failing_save_env "random_image_2.png") a) empty_world
    = (Uncaught OSError, w') /\
    (forall i, 1 <= i < 2 ->
       exists img,
         files w' !! (args.out_prefix a +:+ str i +:+ ".png")
         = Some (PNG img)) /\
    (forall i, 2 < i ->
       files w' !! (args.out_prefix a +:+ str i +:+ ".png")
       = files empty_world !! (args.out_prefix a +:+ str i +:+ ".png")).
Proof.
  intros a.
  apply (failed_save_stops_the_block_tool
           (failing_save_env "random_image_2.png") a empty_world 2 OSError).
  - cbn [args.width a]. lia.
  - cbn [args.height a]. lia.
  - cbn [args.block_size a]. lia.
  - split; [|split]; [vm_compute; intuition discriminate..|reflexivity].
  - cbn [args.count a]. lia.
  - intros i im Hi. assert (i = 1) as -> by lia. reflexivity.
  - intros im. eexists. reflexivity.
Defined.

(** X18.  When [width * block_size] or [height * block_size] is negative and
    at least one image is asked for, the block tool ends on an uncaught
    [ValueError] raised by [Image.new]: nothing is drawn and nothing is
    written. *)
Theorem negative_size_stops_the_block_tool (E : env) (a : args.t)
    (w : world) :
  1 <= args.count a ->
  args.width a * args.block_size a < 0 \/
  args.height a * args.block_size a < 0 ->
  run (main E a) w = (Uncaught ValueError, w).
Proof.
  intros Hcount Hneg. unfold run, main, range.
  rewrite seqZ_cons by lia. cbn [for_each].
  unfold mbind, io_mbind, io_bind, generate_random_image, lift, Image_new.
  assert (Hb : (args.width a * args.block_size a <? 0)
               || (args.height a * args.block_size a <? 0) = true).
  { apply orb_true_iff. rewrite !Z.ltb_lt. assumption. }
  rewrite Hb. reflexivity.
Qed.

Lemma negative_size_stops_the_block_tool_witness :
  run (main sample_env (args.mk (-4) 4 10 1 "random_image_")) empty_world
  = (Uncaught ValueError, empty_world).
Proof.
  apply (negative_size_stops_the_block_tool sample_env
           (args.mk (-4) 4 10 1 "random_image_") empty_world).
  - cbn [args.count]. lia.
  - left. cbn [args.width args.block_size]. lia.
Defined.

(** X19.  With a count of images that is zero or negative the block tool
    ends with exit code 0 and the world as it was, whatever the other
    arguments are. *)
Theorem no_image_asked_for (E : env) (a : args.t) (w : world) :
  args.count a <= 0 -> run (main E a) w = (Exited 0, w).
Proof.
  intros Hcount. unfold run, main, range.
  rewrite seqZ_nil by assumption. reflexivity.
Qed.

Lemma no_image_asked_for_witness :
  run (main sample_env (args.mk (-4) 4 10 (-2) "random_image_")) empty_world
  = (Exited 0, empty_world).
Proof.
  apply (no_image_asked_for sample_env
           (args.mk (-4) 4 10 (-2) "random_image_") empty_world).
  cbn [args.count]. lia.
Defined.

End BlockFailureSpec.

(** ** The crops of the cells *)
Module CropSpec.
Import PyFloat Pillow Runtime GenerateTiles GridFacts LoopFacts GridSpec TileToolSpec.
Import Vocabulary IoFacts TileNames TileRunFacts TileLoopFacts.
Import RunVocabulary.

(** X20.  With sizes in range, the crop of every cell that is kept has at
    least one pixel each way and lies within the source: each of its pixels
    is the pixel of the source at the same place, none is read outside the
    image. *)
Theorem kept_cells_crop_inside_the_image (a : args.t) (img : raster) :
  in_range a img ->
  exists cells,
    grid_cells (width img) (height img)
      (Z.max 1 (args.cols a)) (Z.max 1 (args.rows a)) = Ok cells /\
    forall r c left_ upper right_ lower,
      (r, c, (left_, upper, right_, lower)) ∈ cells ->
      degenerate (left_, upper, right_, lower) = false ->
      let cell := crop img (left_, upper, right_, lower) in
      1 <= width cell /\ 1 <= height cell /\
      forall x y, 0 <= x < width cell -> 0 <= y < height cell ->
        in_bounds img (x + left_) (y + upper) = true /\
        pix cell x y = pix img (x + left_) (y + upper).
Proof.
  intros (Hw & Hh & Hc & Hr).
  pose proof (clamp_range _ Hc) as Hcols. pose proof (clamp_range _ Hr) as Hrows.
  exists (grid_list (width img) (height img)
            (Z.max 1 (args.cols a)) (Z.max 1 (args.rows a))).
  split; [apply grid_cells_eval; assumption|].
  intros r c l u rt lo Hin Hdeg cell.
  apply elem_of_grid_list in Hin as (Hr' & Hc' & Hb).
  injection Hb as -> -> -> ->.
  pose proof (edge_range (width img) _ c Hw Hcols ltac:(lia)) as H1.
  pose proof (edge_range (width img) _ (c + 1) Hw Hcols ltac:(lia)) as H2.
  pose proof (edge_range (height img) _ r Hh Hrows ltac:(lia)) as H3.
  pose proof (edge_range (height img) _ (r + 1) Hh Hrows ltac:(lia)) as H4.
  unfold degenerate in Hdeg. apply orb_false_iff in Hdeg as [Hd1 Hd2].
  apply Z.leb_gt in Hd1, Hd2.
  unfold cell, crop. cbn [width height pix].
  split; [lia|]. split; [lia|].
  intros x y Hx Hy.
  assert (Hb : in_bounds img
                 (x + edge (step (width img) (Z.max 1 (args.cols a))) c)
                 (y + edge (step (height img) (Z.max 1 (args.rows a))) r)
               = true).
  { unfold in_bounds. rewrite !andb_true_iff, !Z.leb_le, !Z.ltb_lt. lia. }
  rewrite Hb. split; reflexivity.
Qed.

Lemma kept_cells_crop_inside_the_image_witness :
  let a := sample_args "a.png" 8 in
  exists cells,
    grid_cells (width sample_image) (height sample_image)
      (Z.max 1 (args.cols a)) (Z.max 1 (args.rows a)) = Ok cells /\
    forall r c left_ upper right_ lower,
      (r, c, (left_, upper, right_, lower)) ∈ cells ->
      degenerate (left_, upper, right_, lower) = false ->
      let cell := crop sample_image (left_, upper, right_, lower) in
      1 <= width cell /\ 1 <= height cell /\
      forall x y, 0 <= x < width cell -> 0 <= y < height cell ->
        in_bounds sample_image (x + left_) (y + upper) = true /\
        pix cell x y = pix sample_image (x + left_) (y + upper).
Proof.
  intros a.
  apply (kept_cells_crop_inside_the_image a sample_image).
  unfold in_range. cbn [width height sample_image args.cols args.rows a sample_args].
  lia.
Defined.

End CropSpec.

(** ** A tile that cannot be saved, and the exit through [sys.exit] *)
Module TileSaveFailureSpec.
Import PyFloat Pillow Runtime GenerateTiles GridFacts LoopFacts GridSpec TileToolSpec.
Import Vocabulary IoFacts TileNames TileRunFacts TileLoopFacts TileFailureSpec.
Import RunVocabulary.

Lemma NoDup_grid_list w h cols rows : NoDup (grid_list w h cols rows).
Proof.
  unfold grid_list. apply NoDup_bind.
  - intros r1 r2 [[r c] b] _ _ H1 H2.
    apply list_elem_of_bind in H1 as (c1 & H1 & _).
    apply list_elem_of_bind in H2 as (c2 & H2 & _).
    apply list_elem_of_singleton in H1, H2. congruence.
  - intros r _. apply NoDup_bind.
    + intros c1 c2 [[r' c] b] _ _ H1 H2.
      apply list_elem_of_singleton in H1, H2. congruence.
    + intros c _. apply NoDup_singleton.
    + apply NoDup_seqZ.
  - apply NoDup_seqZ.
Qed.

(** The cells before and after a cell of the grid are at other positions. *)
Lemma grid_positions_apart w h cols rows before r c b after r' c' b' :
  grid_list w h cols rows = before ++ (r, c, b) :: after ->
  (r', c', b') ∈ before \/ (r', c', b') ∈ after -> (r', c') <> (r, c).
Proof.
  intros Hsplit Hin [= -> ->].
  pose proof (NoDup_grid_list w h cols rows) as Hnd. rewrite Hsplit in Hnd.
  assert (b' = b) as ->.
  { apply (grid_list_functional w h cols rows r c); rewrite Hsplit.
    - destruct Hin as [Hin|Hin]; apply elem_of_app; [left; assumption|].
      right. apply elem_of_cons. right. assumption.
    - apply elem_of_app. right. constructor. }
  apply NoDup_app in Hnd as (_ & Hdisj & Hnd).
  destruct Hin as [Hin|Hin].
  - apply (Hdisj _ Hin). constructor.
  - apply NoDup_cons in Hnd as [Hnot _]. contradiction.
Qed.

Lemma cell_turn_saved E tile_size img out_dir r c b tiles w :
  can_allocate E tile_size tile_size ->
  (forall tile, save_error E (tile_path out_dir r c) tile = None) ->
  cell_turn E tile_size img out_dir (r, c, b) tiles w
  = (Normal (cell_step E tile_size img out_dir (tiles, w) (r, c, b)).1,
     (cell_step E tile_size img out_dir (tiles, w) (r, c, b)).2).
Proof.
  intros Hts Hsave. unfold cell_turn, cell_step.
  destruct (degenerate b); [reflexivity|].
  rewrite (can_allocate_returns E _ _ _ Hts).
  rewrite Hsave. reflexivity.
Qed.

(** X21.  With a tile size from 1 to 2^31 - 1 and tiles that can be
    allocated, when the save of the tile of a cell fails, the saves of the
    cells before it having succeeded, the run ends on that error as an uncaught
    exception: the tiles of the cells before it are written, the files of
    the cells after it and the preview are left as they were. *)
Theorem failed_tile_save_stops_the_run (E : env) (a : args.t) (img : raster)
    (w : world) (before after : list (Z * Z * box)) (r c : Z) (b : box)
    (e : exn) :
  readable E a img -> in_range a img -> 1 <= args.tile_size a ->
  can_allocate E (args.tile_size a) (args.tile_size a) ->
  makedirs_error E (out_dir_of E) = None ->
  grid_cells (width img) (height img)
    (Z.max 1 (args.cols a)) (Z.max 1 (args.rows a))
  = Ok (before ++ (r, c, b) :: after) ->
  degenerate b = false ->
  (forall r' c' b' tile, (r', c', b') ∈ before ->
     save_error E (path_join (out_dir_of E) (tile_name r' c')) tile = None) ->
  (forall tile, exists leftover,
     save_error E (path_join (out_dir_of E) (tile_name r c)) tile
     = Some (e, leftover)) ->
  exists w',
    run (main E a) w = (Uncaught e, w') /\
    (forall r' c' b', (r', c', b') ∈ before -> degenerate b' = false ->
       exists tile,
         files w' !! path_join (out_dir_of E) (tile_name r' c')
         = Some (PNG tile)) /\
    (forall r' c' b', (r', c', b') ∈ after ->
       files w' !! path_join (out_dir_of E) (tile_name r' c')
       = files w !! path_join (out_dir_of E) (tile_name r' c')) /\
    files w' !! path_join (out_dir_of E) "preview.png"
    = files w !! path_join (out_dir_of E) "preview.png".
Proof.
  intros Hread Hrange Hts1 Hts Hmk Hcells Hdeg Hsave Hfail.
  assert (Hsplit : grid_list (width img) (height img)
                     (Z.max 1 (args.cols a)) (Z.max 1 (args.rows a))
                   = before ++ (r, c, b) :: after).
  { destruct Hrange as (Hw & Hh & Hc & Hr).
    rewrite grid_cells_eval in Hcells
      by (try assumption; apply clamp_range; assumption).
    injection Hcells as ->. reflexivity. }
  pose proof (fun r' c' b' H =>
    grid_positions_apart _ _ _ _ _ _ _ _ _ r' c' b' Hsplit H) as Hapart.
  destruct (run_cells E (args.tile_size a) img (out_dir_of E) before []
              (loop_start E a img w)) as (_ & _ & _ & _ & Hin & Hout).
  { intros r1 c1 b1 b2 H1 H2.
    apply (grid_list_functional (width img) (height img)
             (Z.max 1 (args.cols a)) (Z.max 1 (args.rows a)) r1 c1);
      rewrite Hsplit; apply elem_of_app; left; assumption. }
  destruct (Hfail (cell_tile E (args.tile_size a) img b)) as [leftover Hs].
  eexists. split.
  { unfold run. rewrite (main_eval E a img w Hread), save_tiles_eval by assumption.
    rewrite Hmk, Hsplit, for_each_app. unfold io_bind.
    rewrite (for_each_pure before _
               (cell_step E (args.tile_size a) img (out_dir_of E))).
    2:{ intros [[r' c'] b'] s w0 Hb. apply cell_turn_saved; [assumption|].
        intros tile. apply (Hsave r' c' b'). assumption. }
    cbn [for_each]. unfold io_bind. unfold cell_turn at 1. rewrite Hdeg.
    rewrite (can_allocate_returns E _ _ _ Hts).
    fold (cell_tile E (args.tile_size a) img b).
    unfold tile_path at 1. rewrite Hs. reflexivity. }
  cbn [files].
  destruct (foldl _ _ before) as [tiles1 w1]. cbn [fst snd] in *.
  assert (Hne : forall r' c' b',
            (r', c', b') ∈ before \/ (r', c', b') ∈ after ->
            tile_path (out_dir_of E) r c <> tile_path (out_dir_of E) r' c').
  { intros r' c' b' H Heq.
    apply path_join_inj in Heq; [|apply tile_name_relative..].
    apply tile_name_inj in Heq as [-> ->].
    apply (Hapart r' c' b' H). reflexivity. }
  split; [|split].
  - intros r' c' b' Hb Hd.
    exists (cell_tile E (args.tile_size a) img b').
    rewrite lookup_partial_alter_ne by (apply (Hne r' c' b'); left; assumption).
    apply (Hin r' c' b'). apply elem_of_kept. split; assumption.
  - intros r' c' b' Ha.
    rewrite lookup_partial_alter_ne by (apply (Hne r' c' b'); right; assumption).
    apply Hout. intros r1 c1 b1 Hk Heq.
    apply elem_of_kept in Hk as [Hk _].
    apply path_join_inj in Heq; [|apply tile_name_relative..].
    apply tile_name_inj in Heq as [-> ->].
    pose proof (NoDup_grid_list (width img) (height img)
                  (Z.max 1 (args.cols a)) (Z.max 1 (args.rows a))) as Hnd.
    rewrite Hsplit in Hnd.
    assert (b1 = b') as ->.
    { apply (grid_list_functional (width img) (height img)
               (Z.max 1 (args.cols a)) (Z.max 1 (args.rows a)) r1 c1);
        rewrite Hsplit; apply elem_of_app; [left; assumption|].
      right. apply elem_of_cons. right. assumption. }
    apply NoDup_app in Hnd as (_ & Hdisj & _).
    apply (Hdisj _ Hk). apply elem_of_cons. right. assumption.
  - rewrite lookup_partial_alter_ne by apply tile_path_not_preview.
    apply Hout. intros r1 c1 b1 _ Heq.
    apply (tile_path_not_preview (out_dir_of E) r1 c1). symmetry. exact Heq.
Qed.

Lemma failed_tile_save_stops_the_run_witness :
  let E := failing_save_env
             "/home/u/Desktop/image_tiles_20250101_000000/tile_r1_c0.png" in
  let a := sample_args "a.png" 8 in
  exists w',
    run (main E a) empty_world = (Uncaught OSError, w') /\
    (forall r' c' b',
       (r', c', b') ∈ [(0, 0, (0, 0, 2, 2)); (0, 1, (2, 0, 4, 2))] ->
       degenerate b' = false ->
       exists tile,
         files w' !! path_join (out_dir_of E) (tile_name r' c')
         = Some (PNG tile)) /\
    (forall r' c' b', (r', c', b') ∈ [(1, 1, (2, 2, 4, 4))] ->
       files w' !! path_join (out_dir_of E) (tile_name r' c')
       = files empty_world !! path_join (out_dir_of E) (tile_name r' c')) /\
    files w' !! path_join (out_dir_of E) "preview.png"
    = files empty_world !! path_join (out_dir_of E) "preview.png".
Proof.
  intros E a.
  apply (failed_tile_save_stops_the_run E a sample_image empty_world
           [(0, 0, (0, 0, 2, 2)); (0, 1, (2, 0, 4, 2))]
           [(1, 1, (2, 2, 4, 4))] 1 0 (0, 2, 2, 4) OSError).
  - split; reflexivity.
  - unfold in_range. cbn [width height sample_image args.cols args.rows a sample_args].
    lia.
  - cbn [args.tile_size a sample_args]. lia.
  - split; [|split]; [vm_compute; intuition discriminate..|reflexivity].
  - reflexivity.
  - vm_compute. reflexivity.
  - reflexivity.
  - intros r' c' b' tile Hin.
    apply elem_of_cons in Hin as [[= -> -> ->]|Hin]; [reflexivity|].
    apply elem_of_cons in Hin as [[= -> -> ->]|Hin]; [reflexivity|].
    inversion Hin.
  - intros tile. eexists. reflexivity.
Defined.

(** The tile loop never calls [sys.exit]. *)
Lemma save_tiles_no_exit E a img w code w' :
  save_tiles E a img w <> (SysExit code, w').
Proof.
  unfold save_tiles, mbind, io_mbind, io_bind, lift.
  destruct (int_truediv _ _) as [cell_w|e]; [|discriminate].
  destruct (int_truediv _ _) as [cell_h|e]; [|discriminate].
  unfold ensure_desktop_folder, mbind, io_mbind, io_bind, makedirs.
  destruct (makedirs_error E _) as [e|]; [discriminate|].
  cbn [mret io_mret io_ret print].
  match goal with |- context [for_each ?l ?body ?s ?w0] =>
    pose proof (for_each_raises (fun _ => True) l body) as Hloop;
    specialize (fun H => Hloop H s w0);
    destruct (for_each l body s w0) as [[tiles|e|code'] w1]
  end; try discriminate.
  exfalso. cbn [fst] in Hloop. apply Hloop. clear Hloop.
  intros r s1 w2 _.
  match goal with |- context [for_each ?l ?body ?s ?w0] =>
    pose proof (for_each_raises (fun _ => True) l body) as Hin;
    specialize (fun H => Hin H s w0)
  end.
  apply Hin. clear Hin. intros c s2 w3 _.
  unfold process_cell, mbind, io_mbind, io_bind, lift, print, save.
  destruct (cell_bounds _ _ _ _ _ _) as [b|e]; [|exact I].
  destruct (degenerate b); [exact I|].
  destruct (average_color E _) as [col|e]; [|exact I].
  destruct (make_solid_tile _ _ _) as [tile|e]; [|exact I].
  destruct (save_error E _ _) as [[e leftover]|]; exact I.
Qed.

(** X22.  Once the command line is parsed (lines 78-132 of [main]), the
    tile tool ends through [sys.exit] only when the source is not a file or
    cannot be opened, and then with code 1; every other run ends normally,
    with exit code 0, or on an uncaught exception. *)
Theorem exit_one_only_for_unreadable_source (E : env) (a : args.t)
    (w w' : world) (code : Z) :
  run (main E a) w = (Exited code, w') ->
  code = 0 \/
  (code = 1 /\
   (isfile E (args.source a) = false \/
    exists e, open_rgb E (args.source a) = Raise e)).
Proof.
  intros Hrun.
  destruct (isfile E (args.source a)) eqn:Ef.
  2:{ right.
      destruct (load_source_unreadable E a w (or_introl Ef)) as [msg Hl].
      unfold run, main in Hrun. rewrite (bind_exit _ _ _ _ _ Hl) in Hrun.
      injection Hrun as <- _. split; [reflexivity | left; reflexivity]. }
  destruct (open_rgb E (args.source a)) as [img|e] eqn:Eo.
  2:{ right.
      destruct (load_source_unreadable E a w
                  (or_intror (ex_intro _ e Eo))) as [msg Hl].
      unfold run, main in Hrun. rewrite (bind_exit _ _ _ _ _ Hl) in Hrun.
      injection Hrun as <- _. split; [reflexivity | right; exists e; reflexivity]. }
  left.
  assert (Hread : readable E a img) by (split; assumption).
  destruct (save_tiles E a img w) as [[[out_dir tiles]|e|code'] w1] eqn:Ht.
  - destruct (main_after_tiles E a img w out_dir tiles w1 Hread Ht) as [w2 H2].
    rewrite H2 in Hrun. injection Hrun as <- _. reflexivity.
  - unfold run in Hrun. rewrite (main_eval E a img w Hread), Ht in Hrun.
    discriminate.
  - exfalso. apply (save_tiles_no_exit E a img w code' w1 Ht).
Qed.

Lemma exit_one_only_for_unreadable_source_witness :
  let a := sample_args "missing.png" 8 in
  1 = 0 \/
  (1 = 1 /\
   (isfile sample_env (args.source a) = false \/
    exists e, open_rgb sample_env (args.source a) = Raise e)).
Proof.
  intros a.
  apply (exit_one_only_for_unreadable_source sample_env a empty_world
           (run (main sample_env a) empty_world).2 1).
  vm_compute. reflexivity.
Defined.

End TileSaveFailureSpec.

(** ** What the block tool leaves alone *)
Module BlockFrameSpec.
Import Pillow Runtime Img LoopFacts BlockSpec TileToolSpec BlockToolSpec.
Import Vocabulary IoFacts TileFrameSpec.
Import RunVocabulary.

Lemma writes_images_refl prefix w : writes_images prefix w w.
Proof. split; [reflexivity|]. split; reflexivity. Qed.

Lemma writes_images_trans prefix w1 w2 w3 :
  writes_images prefix w1 w2 -> writes_images prefix w2 w3 ->
  writes_images prefix w1 w3.
Proof.
  intros (Hf1 & Hd1 & Ho1) (Hf2 & Hd2 & Ho2). split.
  { intros p Hp. rewrite Hf2, Hf1 by assumption. reflexivity. }
  split; congruence.
Qed.

Lemma writes_images_generate E prefix width height i block_size w :
  writes_images prefix w
    (generate_random_image E width height (image_name prefix i) block_size w).2.
Proof.
  unfold generate_random_image.
  apply bind_keeps; [apply writes_images_trans| |].
  { unfold lift. destruct (Image_new _ _ _); apply writes_images_refl. }
  intros img w1 _.
  apply bind_keeps; [apply writes_images_trans| |].
  - apply for_each_preserves;
      [apply writes_images_refl | apply writes_images_trans|].
    intros bx img1 w2 _.
    apply for_each_preserves;
      [apply writes_images_refl | apply writes_images_trans|].
    intros by_ img2 w3 _.
    apply bind_keeps; [apply writes_images_trans| |].
    + split; [reflexivity|]. split; reflexivity.
    + intros c w4 _. unfold lift.
      destruct (paint_block _ _ _ _ _); apply writes_images_refl.
  - intros img1 w2 _. unfold save.
    destruct (save_error E _ img1) as [[e leftover]|]; cbn [snd].
    + split; [|split; reflexivity].
      intros p Hp. cbn [files]. apply lookup_partial_alter_ne.
      apply not_eq_sym, Hp.
    + split; [|split; reflexivity].
      intros p Hp. cbn [files]. apply lookup_insert_ne.
      apply not_eq_sym, Hp.
Qed.

(** X23.  Once the command line is parsed (the loop of lines 52-54 and
    [generate_random_image]), whatever the arguments, the environment and
    the way the run ends, the block tool changes no file but those named
    [{prefix}{i}.png], makes and removes no directory, and prints
    nothing. *)
Theorem block_tool_writes_only_its_images (E : env) (a : args.t)
    (w : world) :
  let w' := (run (main E a) w).2 in
  (forall p,
     (forall i, p <> args.out_prefix a +:+ str i +:+ ".png") ->
     files w' !! p = files w !! p) /\
  dirs w' = dirs w /\ stdout w' = stdout w.
Proof.
  cbv zeta.
  assert (H : writes_images (args.out_prefix a) w (main E a w).2).
  { unfold main.
    apply bind_keeps; [apply writes_images_trans| |].
    - apply for_each_preserves;
        [apply writes_images_refl | apply writes_images_trans|].
      intros i [] w1 _. cbv zeta.
      apply (writes_images_generate E (args.out_prefix a) _ _ (i + 1)).
    - intros [] w1 _. apply writes_images_refl. }
  assert (H' : (run (main E a) w).2 = (main E a w).2).
  { unfold run. destruct (main E a w) as [[[]|e|code] w']; reflexivity. }
  rewrite H'. exact H.
Qed.

End BlockFrameSpec.
